(** * dg: reaching-definitions graph builder and points-to fixpoint driver

    A shallow embedding of
      - [src/llvm/LLVMReachingDefinitions.cpp]   (namespace [dg::analysis::rd])
      - [src/analysis/PointsTo/PointerAnalysis.h] (namespace [dg::analysis::pta])
    together with the properties of the specification that concern them.

    Pointers are handles: an [llvm::Value *] is its address (a [nat]), an
    [RDNode *] is the index of the node in the builder's arena, and a pointer
    that may be null is an [option].  The builder mutates its maps and the
    nodes it owns; this is written as a state-and-failure monad over the
    record [Builder].  A failed [assert], a null dereference and the
    exhaustion of the recursion budget are distinct failures. *)

From Stdlib Require Import NArith String Ascii.
From stdpp Require Import base option list gmap strings.

Local Open Scope nat_scope.

Module pta.

(** ** [PointerAnalysis.h] *)

(** [PSNode *]: the handle of a node owned by the [PointerSubgraph]. *)
Definition PSNodePtr := nat.

(** Modelled from the spec: the kinds of [PSNodeType] ([PSNode] is declared in
    [PointerSubgraph.h], not among the sources), the closed set the
    specification lists. *)
Inductive PSNodeType :=
| ALLOC | LOAD | STORE | GEP | PHI | CAST | CALL | RETURN | FUNCTION
| NULLPTR_NODE | UNKNOWN_MEM | CONSTANT | NOOP.

Global Instance PSNodeType_eq_dec : EqDecision PSNodeType.
Proof. solve_decision. Defined.

(** Modelled from the spec: what the driver reads and writes of a [PSNode]:
    its kind ([getType]), its offset ([setOffset]) and its successors. *)
Record PSNode :=
  { getType : PSNodeType; offset : N; successors : list PSNodePtr }.

Definition setOffset (o : N) (n : PSNode) : PSNode :=
  {| getType := getType n; offset := o; successors := successors n |}.

(** Modelled from the spec: the [PointerSubgraph] owns its nodes and has a
    designated root ([getRoot]), which may be null. *)
Record PointerSubgraph :=
  { nodes : gmap PSNodePtr PSNode; getRoot : option PSNodePtr }.

Definition successors_of (PS : PointerSubgraph) (n : PSNodePtr) : list PSNodePtr :=
  match nodes PS !! n with
  | Some nd => successors nd
  | None => []
  end.

(** One more layer of a breadth-first enumeration: the successors of the
    frontier that were not seen yet, each once. *)
Definition next_layer (PS : PointerSubgraph) (seen frontier : list PSNodePtr)
  : list PSNodePtr :=
  remove_dups (list_difference (flat_map (successors_of PS) frontier) seen).

Fixpoint enumerate (rounds : nat) (PS : PointerSubgraph)
    (seen frontier : list PSNodePtr) : list PSNodePtr :=
  match rounds with
  | 0 => seen
  | S rounds' =>
      match next_layer PS seen frontier with
      | [] => seen
      | layer => enumerate rounds' PS (seen ++ layer) layer
      end
  end.

(** Modelled from the spec: [PointerSubgraph::getNodes] (declared in
    [PointerSubgraph.h], not among the sources).  With a start node (or the
    root) it returns the nodes reachable from it; with a seed set it returns
    the nodes reachable from any seed, deduplicated, in the same forward
    order; [expected_num] is a capacity hint.  Every layer adds a node that
    was not seen, so as many rounds as the subgraph has nodes reach them
    all. *)
Definition getNodes (PS : PointerSubgraph) (start_node : option PSNodePtr)
    (start_set : option (list PSNodePtr)) (expected_num : nat)
  : list PSNodePtr :=
  let seeds :=
    match start_set with
    | Some seeds => seeds
    | None =>
        match start_node with
        | Some n => [n]
        | None => option_list (getRoot PS)
        end
    end in
  let seeds := remove_dups seeds in
  enumerate (size (nodes PS)) PS seeds seeds.

(** The virtual hooks [beforeProcessed] and [afterProcessed] and the private
    [processNode] (defined outside the header).  They may change the
    subgraph (grow points-to sets, add edges on a function-pointer call) and
    report growth. *)
Record Hooks :=
  { beforeProcessed : PSNodePtr -> PointerSubgraph -> bool * PointerSubgraph;
    processNode : PSNodePtr -> PointerSubgraph -> bool * PointerSubgraph;
    afterProcessed : PSNodePtr -> PointerSubgraph -> bool * PointerSubgraph }.

(** The default hooks of the base class return [false]. *)
Definition default_hook (n : PSNodePtr) (PS : PointerSubgraph)
  : bool * PointerSubgraph := (false, PS).

(** The members of [PointerAnalysis]. *)
Record PointerAnalysis :=
  { PS : PointerSubgraph;
    SCCs : list (list PSNodePtr);
    max_offset : N;
    preprocess_geps : bool;
    invalidate_nodes : bool;
    to_process : list PSNodePtr;
    changed : list PSNodePtr }.

Definition with_PS (pa : PointerAnalysis) (ps : PointerSubgraph) : PointerAnalysis :=
  {| PS := ps; SCCs := SCCs pa; max_offset := max_offset pa;
     preprocess_geps := preprocess_geps pa;
     invalidate_nodes := invalidate_nodes pa;
     to_process := to_process pa; changed := changed pa |}.

Definition with_to_process (pa : PointerAnalysis) (l : list PSNodePtr)
  : PointerAnalysis :=
  {| PS := PS pa; SCCs := SCCs pa; max_offset := max_offset pa;
     preprocess_geps := preprocess_geps pa;
     invalidate_nodes := invalidate_nodes pa;
     to_process := l; changed := changed pa |}.

Definition with_changed (pa : PointerAnalysis) (l : list PSNodePtr)
  : PointerAnalysis :=
  {| PS := PS pa; SCCs := SCCs pa; max_offset := max_offset pa;
     preprocess_geps := preprocess_geps pa;
     invalidate_nodes := invalidate_nodes pa;
     to_process := to_process pa; changed := l |}.

Inductive Outcome :=
| Returned (pa : PointerAnalysis)
| AssertionFailed (msg : string)
| OutOfFuel.

(** [m] is a successor of [n] in the subgraph. *)
Definition edge (PS : PointerSubgraph) (n m : PSNodePtr) : Prop :=
  m ∈ successors_of PS n.

(** Every successor of a node of the subgraph is a node of the subgraph. *)
Definition closed_graph (PS : PointerSubgraph) : Prop :=
  forall n m, is_Some (nodes PS !! n) -> edge PS n m -> is_Some (nodes PS !! m).

Section Analysis.

(** [UNKNOWN_OFFSET] comes from a header that is not among the sources. *)
Variable UNKNOWN_OFFSET : N.

(** The inner loop of [preprocessGEPs]: [n->setOffset(UNKNOWN_OFFSET)] for
    the GEP nodes of one component.  (A handle without a node is dangling;
    the components hold handles of nodes of the subgraph.) *)
Definition preprocessGEPs_node (ns : gmap PSNodePtr PSNode) (n : PSNodePtr)
  : gmap PSNodePtr PSNode :=
  match ns !! n with
  | Some nd =>
      if bool_decide (getType nd = GEP)
      then <[n := setOffset UNKNOWN_OFFSET nd]> ns
      else ns
  | None => ns
  end.

Definition preprocessGEPs_scc (ns : gmap PSNodePtr PSNode)
    (scc : list PSNodePtr) : gmap PSNodePtr PSNode :=
  if Nat.ltb 1 (length scc) then foldl preprocessGEPs_node ns scc else ns.

Definition preprocessGEPs (pa : PointerAnalysis) : PointerAnalysis :=
  with_PS pa
    {| nodes := foldl preprocessGEPs_scc (nodes (PS pa)) (SCCs pa);
       getRoot := getRoot (PS pa) |}.

(** [enqueue] of the base class. *)
Definition enqueue (pa : PointerAnalysis) (n : PSNodePtr) : PointerAnalysis :=
  with_changed pa (changed pa ++ [n]).

Variable hooks : Hooks.

(** The body of [for (PSNode *cur : to_process)]; [|=] evaluates all three
    calls. *)
Definition run_node (pa : PointerAnalysis) (cur : PSNodePtr) : PointerAnalysis :=
  let enq := false in
  let '(b, ps) := beforeProcessed hooks cur (PS pa) in
  let enq := enq || b in
  let '(b, ps) := processNode hooks cur ps in
  let enq := enq || b in
  let '(b, ps) := afterProcessed hooks cur ps in
  let enq := enq || b in
  let pa := with_PS pa ps in
  if enq then enqueue pa cur else pa.

(** The first half of the body of the [do .. while]: up to and including
    [to_process.clear()].  It returns [last_processed_num] too. *)
Definition run_pass (pa : PointerAnalysis) : nat * PointerAnalysis :=
  let last_processed_num := length (to_process pa) in
  let pa := with_changed pa [] in
  let pa := foldl run_node pa (to_process pa) in
  (last_processed_num, with_to_process pa []).

(** The re-enumeration. *)
Definition run_refill (last_processed_num : nat) (pa : PointerAnalysis)
  : PointerAnalysis :=
  with_to_process pa
    (getNodes (PS pa) None (Some (changed pa)) last_processed_num).

(** The [do .. while] of [run]; [fuel] bounds the number of iterations. *)
Fixpoint run_loop (fuel : nat) (pa : PointerAnalysis) : Outcome :=
  match fuel with
  | 0 => OutOfFuel
  | S fuel' =>
      let '(last_processed_num, pa) := run_pass pa in
      let checked :=
        if negb (bool_decide (changed pa = [])) then
          let pa := run_refill last_processed_num pa in
          (* since changed was not empty,
             the to_process must not be empty too *)
          if bool_decide (to_process pa = []) then
            AssertionFailed "!to_process.empty()"
          else if negb (length (changed pa) <=? length (to_process pa)) then
            AssertionFailed "to_process.size() >= changed.size()"
          else Returned pa
        else Returned pa in
      match checked with
      | Returned pa =>
          if negb (bool_decide (to_process pa = [])) then run_loop fuel' pa
          else if negb (bool_decide (to_process pa = [])) then
            AssertionFailed "to_process.empty()"
          else if negb (bool_decide (changed pa = [])) then
            AssertionFailed "changed.empty()"
          else Returned pa
      | failure => failure
      end
  end.

Definition run (fuel : nat) (pa : PointerAnalysis) : Outcome :=
  match getRoot (PS pa) with
  | None => AssertionFailed "Do not have root of PS"
  | Some root =>
      (* do some optimizations *)
      let pa := if preprocess_geps pa then preprocessGEPs pa else pa in
      let pa := with_to_process pa (getNodes (PS pa) (Some root) None 0) in
      (* do fixpoint *)
      run_loop fuel pa
  end.

(** The states at the top of an iteration of the loop of [run]. *)
Inductive loop_head : PointerAnalysis -> PointerAnalysis -> Prop :=
| loop_head_first pa0 root :
    getRoot (PS pa0) = Some root ->
    loop_head pa0
      (let pa := if preprocess_geps pa0 then preprocessGEPs pa0 else pa0 in
       with_to_process pa (getNodes (PS pa) (Some root) None 0))
| loop_head_next pa0 pa :
    loop_head pa0 pa ->
    changed (snd (run_pass pa)) <> [] ->
    loop_head pa0 (run_refill (fst (run_pass pa)) (snd (run_pass pa))).

(** ** Notions the properties are stated with *)

(** What [preprocessGEPs] does to one node that lies on a cycle. *)
Definition force_unknown (nd : PSNode) : PSNode :=
  if bool_decide (getType nd = GEP) then setOffset UNKNOWN_OFFSET nd else nd.

(** [n] lies in a component of more than one node. *)
Definition in_cycle (sccs : list (list PSNodePtr)) (n : PSNodePtr) : bool :=
  existsb (fun scc => Nat.ltb 1 (length scc) && bool_decide (n ∈ scc)) sccs.

End Analysis.

End pta.

Module rd.

(** ** The LLVM side, as far as the builder looks at it *)

(** [const llvm::Value *], compared by address. *)
Definition Value := nat.

(** [RDNode *] that is known not to be null: the handle [new RDNode()] gave. *)
Definition RDNode := nat.

(** [llvm::Type]: the builder only asks [isSized()] and hands the type to the
    data layout. *)
Record LType := { ty_id : nat; isSized : bool }.

(** [llvm::DataLayout]: [getTypeAllocSize] returns a [uint64_t]. *)
Record DataLayout := { getTypeAllocSize : LType -> N }.

(** The instructions [buildBlock] distinguishes by [getOpcode()].  [Inst] is the
    address of the instruction itself; a store carries the type of operand 0
    and operand 1; a call carries [isa<DbgValueInst>] and [getCalledValue()]. *)
Inductive Instruction :=
| Alloca (Inst : Value)
| Store (Inst : Value) (op0_ty : LType) (op1 : Value)
| Ret (Inst : Value)
| Call (Inst : Value) (isDbgValue : bool) (calledValue : Value)
| OtherInst (Inst : Value).

Definition inst_addr (i : Instruction) : Value :=
  match i with
  | Alloca a | Store a _ _ | Ret a | Call a _ _ | OtherInst a => a
  end.

(** [llvm::BasicBlock]: its address, its instructions in order and the
    addresses of its CFG successors ([succ_begin .. succ_end]). *)
Record BasicBlock :=
  { bb_addr : nat; bb_insts : list Instruction; bb_succs : list nat }.

(** [llvm::Function]: [f_name = None] is [!hasName()], [f_blocks] are the
    basic blocks in order ([size()] is their number). *)
Record Function :=
  { f_addr : Value;
    f_name : option string;
    f_blocks : list BasicBlock;
    isIntrinsic : bool }.

(** [llvm::Module]. *)
Record LLVMModule :=
  { functions : list Function;
    globals : list Value;
    stripPointerCasts : Value -> Value }.

(** [dyn_cast<Function>(v)]: the function of the module at address [v]. *)
Definition dyn_cast_Function (M : LLVMModule) (v : Value) : option Function :=
  find (fun f => Nat.eqb (f_addr f) v) (functions M).

(** [M->getFunction(name)]. *)
Definition getFunction (M : LLVMModule) (name : string) : option Function :=
  find (fun f => match f_name f with
                 | Some n => String.eqb n name
                 | None => false
                 end) (functions M).

(** ** The points-to side *)

(** [pss::PSSNode] and [pss::Pointer], one level deep, which is as far as the
    builder follows them: [pts->pointsTo], [ptr.target->getUserData<T>()],
    [ptr.offset]. The points-to set is the [std::set] in iteration order. *)
Inductive PSSNode :=
| mkPSSNode (pss_id : nat) (user_data : option Value) (pointsTo : list Pointer)
with Pointer :=
| mkPointer (target : PSSNode) (offset : N).

Definition pss_id (n : PSSNode) : nat := let '(mkPSSNode i _ _) := n in i.
Definition getUserData (n : PSSNode) : option Value :=
  let '(mkPSSNode _ u _) := n in u.
Definition pointsTo (n : PSSNode) : list Pointer :=
  let '(mkPSSNode _ _ p) := n in p.
Definition target (p : Pointer) : PSSNode := let '(mkPointer t _) := p in t.
Definition offset (p : Pointer) : N := let '(mkPointer _ o) := p in o.

(** Modelled from the spec: the two sentinel nodes of [PSS.h] (not among the
    sources).  They stand for no IR value, so they carry no user data, and
    they differ from each other and from every node of the subgraph, whose
    identifiers start at 2. *)
Definition NULLPTR : PSSNode := mkPSSNode 0 None [].
Definition UNKNOWN_MEMORY : PSSNode := mkPSSNode 1 None [].

(** Modelled from the spec: [Pointer::isNull()] of [Pointer.h] (not among the
    sources): a pointer whose target is [NULLPTR] answers true. *)
Definition isNull (p : Pointer) : bool :=
  Nat.eqb (pss_id (target p)) (pss_id NULLPTR).

(** The points-to oracle [PTA]; [None] is a null [PSSNode *]. *)
Record LLVMPointsToAnalysis := { getPointsTo : Value -> option PSSNode }.

(** ** The builder's state *)

(** Modelled from the spec: a def-site of [RDNode::addDef] ([RDNode] is
    declared in a header that is not among the sources): the tuple
    (allocation node, offset, size, strong-update flag). *)
Record DefSite :=
  { ds_target : RDNode; ds_offset : N; ds_len : N; ds_strong : bool }.

(** [Subgraph]: root and unified return node; default-constructed it is
    [(nullptr, nullptr)]. *)
Record Subgraph := { sg_root : option RDNode; sg_ret : option RDNode }.

Definition no_Subgraph : Subgraph := {| sg_root := None; sg_ret := None |}.

(** What is written to [llvm::errs()]. *)
Inductive Diagnostic :=
| PrintValue (v : Value)
| Message (msg : string).

(** The arena and the maps of [LLVMRDBuilder].
    [arena] counts the nodes allocated so far, so the next [new RDNode()] is
    the handle [arena]; [edges] and [defs] hold what [addSuccessor] and
    [addDef] recorded, oldest first. *)
Record Builder :=
  { arena : nat;
    edges : list (RDNode * RDNode);
    defs : list (RDNode * DefSite);
    nodes_map : gmap Value RDNode;
    mapping : gmap Value RDNode;
    subgraphs_map : gmap Value Subgraph;
    errs : list Diagnostic }.

Definition empty_Builder : Builder :=
  {| arena := 0; edges := []; defs := []; nodes_map := ∅; mapping := ∅;
     subgraphs_map := ∅; errs := [] |}.

Inductive Failure :=
| AssertionFailed (msg : string)
| NullDereference
| BadCast
| Abort
| OutOfFuel.

Inductive Result (A : Type) :=
| Ok (a : A) (s : Builder)
| Fail (e : Failure).
Arguments Ok {A} a s.
Arguments Fail {A} e.

Definition M (A : Type) : Type := Builder -> Result A.

Definition ret {A} (a : A) : M A := fun s => Ok a s.

Definition bind {A B} (m : M A) (k : A -> M B) : M B :=
  fun s => match m s with
           | Ok a s' => k a s'
           | Fail e => Fail e
           end.

Definition fail {A} (e : Failure) : M A := fun _ => Fail e.

Notation "'do' x <- m ; k" := (bind m (fun x => k))
  (at level 10, x name, m at level 100, k at level 200).
Notation "'do' ' pat <- m ; k" := (bind m (fun x => match x with pat => k end))
  (at level 10, pat pattern, m at level 100, k at level 200).
Notation "'exec' m ; k" := (bind m (fun _ => k))
  (at level 10, m at level 100, k at level 200).

Definition assert (b : bool) (msg : string) : M unit :=
  if b then ret tt else fail (AssertionFailed msg).

(** [p->...] on a pointer that may be null. *)
Definition deref {A} (p : option A) : M A :=
  match p with
  | Some a => ret a
  | None => fail NullDereference
  end.

(** [for (x : l) body(x)]. *)
Fixpoint for_each {A} (l : list A) (body : A -> M unit) : M unit :=
  match l with
  | [] => ret tt
  | x :: l' => exec body x; for_each l' body
  end.

(** A loop that carries the locals [acc] from one iteration to the next. *)
Fixpoint fold_each {A S} (l : list A) (body : S -> A -> M S) (acc : S) : M S :=
  match l with
  | [] => ret acc
  | x :: l' => do acc' <- body acc x; fold_each l' body acc'
  end.

(** [new RDNode()]. *)
Definition new_RDNode : M RDNode :=
  fun s => Ok (arena s)
    {| arena := S (arena s); edges := edges s; defs := defs s;
       nodes_map := nodes_map s; mapping := mapping s;
       subgraphs_map := subgraphs_map s; errs := errs s |}.

(** Modelled from the spec: [RDNode::addSuccessor] (declared in a header that
    is not among the sources) appends a successor edge. *)
Definition addSuccessor (from to : RDNode) : M unit :=
  fun s => Ok tt
    {| arena := arena s; edges := edges s ++ [(from, to)]; defs := defs s;
       nodes_map := nodes_map s; mapping := mapping s;
       subgraphs_map := subgraphs_map s; errs := errs s |}.

(** Modelled from the spec: [RDNode::addDef] records a def-site of the node. *)
Definition addDef (node target : RDNode) (off len : N) (strong : bool) : M unit :=
  fun s => Ok tt
    {| arena := arena s; edges := edges s;
       defs := defs s ++ [(node, {| ds_target := target; ds_offset := off;
                                    ds_len := len; ds_strong := strong |})];
       nodes_map := nodes_map s; mapping := mapping s;
       subgraphs_map := subgraphs_map s; errs := errs s |}.

(** Modelled from the spec: [LLVMRDBuilder::addNode] (declared in
    [LLVMReachingDefinitions.h], not among the sources) records
    [nodes_map[val] = node]. *)
Definition addNode (val : Value) (node : RDNode) : M unit :=
  fun s => Ok tt
    {| arena := arena s; edges := edges s; defs := defs s;
       nodes_map := <[val := node]> (nodes_map s); mapping := mapping s;
       subgraphs_map := subgraphs_map s; errs := errs s |}.

(** [mapping[&Inst] = node]. *)
Definition set_mapping (val : Value) (node : RDNode) : M unit :=
  fun s => Ok tt
    {| arena := arena s; edges := edges s; defs := defs s;
       nodes_map := nodes_map s; mapping := <[val := node]> (mapping s);
       subgraphs_map := subgraphs_map s; errs := errs s |}.

(** [subgraphs_map[&F] = sg]. *)
Definition set_subgraph (F : Value) (sg : Subgraph) : M unit :=
  fun s => Ok tt
    {| arena := arena s; edges := edges s; defs := defs s;
       nodes_map := nodes_map s; mapping := mapping s;
       subgraphs_map := <[F := sg]> (subgraphs_map s); errs := errs s |}.

(** [llvm::errs() << ...]. *)
Definition log (d : list Diagnostic) : M unit :=
  fun s => Ok tt
    {| arena := arena s; edges := edges s; defs := defs s;
       nodes_map := nodes_map s; mapping := mapping s;
       subgraphs_map := subgraphs_map s; errs := errs s ++ d |}.

(** [nodes_map[val]]: a value without an entry reads as [nullptr].  (The
    C++ [operator[]] also leaves a null entry behind; such an entry reads
    like a missing one everywhere, and is left out.) *)
Definition get_node (val : Value) : M (option RDNode) :=
  fun s => Ok (nodes_map s !! val) s.

(** [subgraphs_map[F]], with the same remark; no function lives at the null
    address, so a null [F] reads as the default [Subgraph]. *)
Definition get_subgraph (F : option Value) : M Subgraph :=
  fun s => Ok (match F with
               | Some a => default no_Subgraph (subgraphs_map s !! a)
               | None => no_Subgraph
               end) s.

Section Builder.

(** [UNKNOWN_OFFSET] comes from a header that is not among the sources; the
    builder only stores it, so it is a parameter. *)
Variable UNKNOWN_OFFSET : N.

(** The members [M], [DL] and [PTA] of [LLVMRDBuilder]. *)
Variable Mod : LLVMModule.
Variable DL : DataLayout.
Variable PTA : LLVMPointsToAnalysis.

Definition getAllocatedSize (Ty : LType) : N :=
  (* Type can be i8 *null or similar *)
  if negb (isSized Ty) then 0%N else getTypeAllocSize DL Ty.

Definition createAlloc (Inst : Value) : M RDNode :=
  do node <- new_RDNode;
  exec addNode Inst node;
  ret node.

(** The body of the loop of [createStore] for one pointer; [npts] is
    [pts->pointsTo.size()]. *)
Definition createStore_ptr (op0_ty : LType) (node : RDNode) (npts : nat)
    (ptr : Pointer) : M unit :=
  if isNull ptr then ret tt
  else
    let ptrVal := getUserData (target ptr) in
    match ptrVal with
    | None =>
        (* nodes_map[nullptr] is null, and *ptrVal is then printed *)
        fail NullDereference
    | Some v =>
        do ptrNode <- get_node v;
        match ptrNode with
        | None =>
            log [PrintValue v;
                 Message "Don't have created node for pointer's target"]
        | Some ptrNode =>
            let size := getAllocatedSize op0_ty in
            let size := if N.eqb size 0 then UNKNOWN_OFFSET else size in
            addDef node ptrNode (offset ptr) size (Nat.eqb npts 1)
        end
    end.

Definition createStore (Inst : Value) (op0_ty : LType) (op1 : Value) : M RDNode :=
  do node <- new_RDNode;
  exec addNode Inst node;
  match getPointsTo PTA op1 with
  | None => fail (AssertionFailed "Don't have the points-to information for store")
  | Some pts =>
      exec for_each (pointsTo pts)
           (createStore_ptr op0_ty node (length (pointsTo pts)));
      ret node
  end.

(** [strcmp] reads both arguments up to their first NUL. *)
Fixpoint c_str (s : string) : string :=
  match s with
  | EmptyString => EmptyString
  | String c s' =>
      if Ascii.eqb c "000"%char then EmptyString else String c (c_str s')
  end.

Definition strcmp_eq (a b : string) : bool := String.eqb (c_str a) (c_str b).

Inductive MemAllocationFuncs := NONEMEM | MALLOC | CALLOC | ALLOCA.

(** The value of the enumerator, as the condition of an [if] sees it. *)
Definition MemAllocationFuncs_nonzero (t : MemAllocationFuncs) : bool :=
  match t with
  | NONEMEM => false
  | _ => true
  end.

Definition getMemAllocationFunc (func : option Function) : M MemAllocationFuncs :=
  match func with
  | None => ret NONEMEM
  | Some f =>
      match f_name f with
      | None => ret NONEMEM
      | Some name =>
          if strcmp_eq name "malloc" then ret MALLOC
          else if strcmp_eq name "calloc" then ret CALLOC
          else if strcmp_eq name "alloca" then ret ALLOCA
          else if strcmp_eq name "realloc" then
            (* FIXME *)
            fail (AssertionFailed "realloc not implemented yet")
          else ret NONEMEM
      end
  end.

(** The call of [buildFunction] on the dereferenced [F], where [F] is
    whatever function pointer the caller holds:
    null, the address of something that is not a function of the module, or
    a function.  [buildFunction_rec] is the recursive call. *)
Definition call_buildFunction (buildFunction_rec : Function -> M RDNode)
    (F : option Value) : M RDNode :=
  match F with
  | None => fail NullDereference
  | Some a =>
      match dyn_cast_Function Mod a with
      | None => fail BadCast
      | Some Fn => buildFunction_rec Fn
      end
  end.

Definition createCallToFunction (buildFunction_rec : Function -> M RDNode)
    (CInst : Value) (F : option Value) : M (RDNode * RDNode) :=
  (* dummy nodes for easy generation *)
  do returnNode <- new_RDNode;
  do callNode <- new_RDNode;
  (* reuse built subgraphs if available *)
  do subg <- get_subgraph F;
  do subg <- match sg_root subg with
             | None =>
                 (* create new subgraph *)
                 exec call_buildFunction buildFunction_rec F;
                 get_subgraph F
             | Some _ => ret subg
             end;
  exec assert (bool_decide (is_Some (sg_root subg))
               && bool_decide (is_Some (sg_ret subg))) "subg.root && subg.ret";
  do subg_root <- deref (sg_root subg);
  do subg_ret <- deref (sg_ret subg);
  exec addSuccessor callNode subg_root;
  exec addSuccessor subg_ret returnNode;
  ret (callNode, returnNode).

(** The body of the fan-out loop of [createCall] for one pointer. *)
Definition createCall_ptr (buildFunction_rec : Function -> M RDNode)
    (CInst : Value) (call_funcptr ret_call : RDNode) (ptr : Pointer) : M unit :=
  (* XXX: + unknown pointers *)
  if isNull ptr then ret tt
  else
    let F := getUserData (target ptr) in
    do cf <- createCallToFunction buildFunction_rec CInst F;
    (* connect the graphs *)
    exec addSuccessor call_funcptr (fst cf);
    addSuccessor (snd cf) ret_call.

Definition createCall (buildFunction_rec : Function -> M RDNode)
    (CInst : Value) (calledValue : Value) : M (RDNode * RDNode) :=
  let calledVal := stripPointerCasts Mod calledValue in
  match dyn_cast_Function Mod calledVal with
  | Some func =>
      (* memory allocation (malloc, calloc, etc.) *)
      do type <- getMemAllocationFunc (Some func);
      if MemAllocationFuncs_nonzero type || Nat.eqb (length (f_blocks func)) 0
      then
        do n <- createAlloc CInst;
        ret (n, n)
      else if isIntrinsic func then
        fail (AssertionFailed "Intrinsic function not implemented yet")
      else
        do cf <- createCallToFunction buildFunction_rec CInst (Some (f_addr func));
        exec addNode CInst (fst cf);
        ret cf
  | None =>
      (* function pointer call *)
      match getPointsTo PTA calledVal with
      | None => fail (AssertionFailed "Don't have points-to information")
      | Some op =>
          exec assert (negb (Nat.eqb (length (pointsTo op)) 0))
                      "Don't have pointer to the func";
          if Nat.ltb 1 (length (pointsTo op)) then
            do call_funcptr <- new_RDNode;
            do ret_call <- new_RDNode;
            exec addNode CInst call_funcptr;
            exec for_each (pointsTo op)
                   (createCall_ptr buildFunction_rec CInst call_funcptr ret_call);
            ret (call_funcptr, ret_call)
          else
            (* don't add redundant nodes if not needed *)
            do begin <- deref (head (pointsTo op));
            let F := getUserData (target begin) in
            do cf <- createCallToFunction buildFunction_rec CInst F;
            ret cf
      end
  end.

(** One iteration of the loop of [buildBlock]; the local that survives an
    iteration is [node] ([prev_node] is assigned at the top of each one, and
    is never null there, because [node] never is). *)
Definition buildBlock_inst (buildFunction_rec : Function -> M RDNode)
    (node : RDNode) (Inst : Instruction) : M RDNode :=
  exec set_mapping (inst_addr Inst) node;
  let prev_node := node in
  do '(prev_node, node) <-
    match Inst with
    | Alloca a =>
        (* we need alloca's as target to DefSites *)
        do n <- createAlloc a; ret (prev_node, n)
    | Store a op0_ty op1 =>
        do n <- createStore a op0_ty op1; ret (prev_node, n)
    | Ret a =>
        (* we need create returns, since these modify CFG and thus data-flow *)
        do n <- createAlloc a; ret (prev_node, n)
    | Call a isDbgValue calledValue =>
        if isDbgValue then ret (prev_node, node)
        else
          do subg <- createCall buildFunction_rec a calledValue;
          exec addSuccessor prev_node (fst subg);
          (* new nodes will connect to the return node *)
          ret (snd subg, snd subg)
    | OtherInst _ => ret (prev_node, node)
    end;
  exec (if negb (Nat.eqb prev_node node)
        then addSuccessor prev_node node else ret tt);
  ret node.

(** [buildBlock]: first and last nodes of the block. *)
Definition buildBlock (buildFunction_rec : Function -> M RDNode)
    (block : BasicBlock) : M (option RDNode * option RDNode) :=
  let ret_ : option RDNode * option RDNode := (None, None) in
  (* the first node is dummy and serves as a phi from previous
     blocks so that we can have proper mapping *)
  do node <- new_RDNode;
  let ret_ := (Some node, snd ret_) in
  do node <- fold_each (bb_insts block) (buildBlock_inst buildFunction_rec) node;
  (* last node *)
  let ret_ := (fst ret_, Some node) in
  ret ret_.

Definition both_or_neither (p : option RDNode * option RDNode) : bool :=
  (bool_decide (is_Some (fst p)) && bool_decide (is_Some (snd p)))
  || (negb (bool_decide (is_Some (fst p))) && negb (bool_decide (is_Some (snd p)))).

(** [blockAddSuccessors].  [blocks] resolves the address of a successor to
    the block (the dereference of [S]); the recursion through blocks that were not built is
    bounded by [fuel]. *)
Fixpoint blockAddSuccessors (fuel : nat) (blocks : list BasicBlock)
    (built_blocks : gmap nat (option RDNode * option RDNode))
    (pssn : option RDNode * option RDNode) (block : BasicBlock) : M nat :=
  match fuel with
  | 0 => fail OutOfFuel
  | S fuel' =>
      fold_each (bb_succs block)
        (fun num S_ =>
           let succ := default (None, None) (built_blocks !! S_) in
           exec assert (both_or_neither succ)
                  "(succ.first && succ.second) || (!succ.first && !succ.second)";
           match fst succ with
           | None =>
               (* if we don't have this block built (there was no points-to
                  relevant instruction), we must pretend to be there for
                  control flow information. Thus instead of adding it as
                  successor, add its successors as successors *)
               match find (fun b => Nat.eqb (bb_addr b) S_) blocks with
               | None => fail BadCast
               | Some succ_block =>
                   do n <- blockAddSuccessors fuel' blocks built_blocks pssn
                             succ_block;
                   ret (num + n)
               end
           | Some succ_first =>
               (* add successor to the last nodes *)
               do last <- deref (snd pssn);
               exec addSuccessor last succ_first;
               ret (S num)
           end)
        0
  end.

(** The first loop of [buildFunction]: the locals are [built_blocks] and
    [first]. *)
Definition buildFunction_block (buildFunction_rec : Function -> M RDNode)
    (acc : gmap nat (option RDNode * option RDNode) * option RDNode)
    (block : BasicBlock)
  : M (gmap nat (option RDNode * option RDNode) * option RDNode) :=
  let '(built_blocks, first) := acc in
  do nds <- buildBlock buildFunction_rec block;
  exec assert (both_or_neither nds)
         "(nds.first && nds.second) || (!nds.first && !nds.second)";
  match fst nds with
  | Some _ =>
      ret (<[bb_addr block := nds]> built_blocks,
           match first with
           | None => fst nds
           | Some _ => first
           end)
  | None => ret (built_blocks, first)
  end.

(** The second loop of [buildFunction]: the local is [rets]. *)
Definition buildFunction_succs (fuel : nat) (blocks : list BasicBlock)
    (built_blocks : gmap nat (option RDNode * option RDNode))
    (rets : list (option RDNode)) (block : BasicBlock)
  : M (list (option RDNode)) :=
  match built_blocks !! bb_addr block with
  | None => ret rets
  | Some pssn =>
      exec assert (both_or_neither pssn)
             "(pssn.first && pssn.second) || (!pssn.first && !pssn.second)";
      match fst pssn with
      | None => ret rets
      | Some _ =>
          (* add successors to this block (skipping the empty blocks) *)
          do succ_num <- blockAddSuccessors fuel blocks built_blocks pssn block;
          (* if we have not added any successor, then the last node
             of this block is a return node *)
          if Nat.eqb succ_num 0 then ret (rets ++ [snd pssn]) else ret rets
      end
  end.

(** [buildFunction] from its first loop on: [root] and [ret_] are the two
    nodes it created, [buildFunction_rec] is what a call inside the blocks of
    [F] reaches, and [fuel] bounds [blockAddSuccessors]. *)
Definition buildFunction_graph (buildFunction_rec : Function -> M RDNode)
    (fuel : nat) (F : Function) (root ret_ : RDNode) : M RDNode :=
  do '(built_blocks, first) <-
    fold_each (f_blocks F) (buildFunction_block buildFunction_rec) (∅, None);
  exec assert (bool_decide (is_Some first)) "first";
  do first <- deref first;
  exec addSuccessor root first;
  do rets <-
    fold_each (f_blocks F)
      (buildFunction_succs fuel (f_blocks F) built_blocks) [];
  (* add successors edges from every real return to our artificial
     ret node *)
  exec assert (negb (Nat.eqb (length rets) 0))
         "BUG: Did not find any return node in function";
  exec for_each rets (fun r => do r <- deref r; addSuccessor r ret_);
  ret root.

(** The body of [buildFunction]. *)
Definition buildFunction_body (buildFunction_rec : Function -> M RDNode)
    (fuel : nat) (F : Function) : M RDNode :=
  (* create root and (unified) return nodes of this subgraph *)
  do root <- new_RDNode;
  do ret_ <- new_RDNode;
  (* add record to built graphs here, so that subsequent call of this
     function from buildPSSBlock won't get stuck in infinite recursive
     call when this function is recursive *)
  exec set_subgraph (f_addr F) {| sg_root := Some root; sg_ret := Some ret_ |};
  buildFunction_graph buildFunction_rec fuel F root ret_.

(** [buildFunction], with [fuel] bounding the depth of the recursion
    [buildFunction -> buildBlock -> createCall -> createCallToFunction ->
    buildFunction]. *)
Fixpoint buildFunction (fuel : nat) (F : Function) : M RDNode :=
  match fuel with
  | 0 => fail OutOfFuel
  | S fuel' => buildFunction_body (buildFunction fuel') fuel F
  end.

(** The loop of [buildGlobals]: the locals are [cur] and [first]. *)
Definition buildGlobals_global (acc : option RDNode * option RDNode)
    (g : Value) : M (option RDNode * option RDNode) :=
  let '(cur, first) := acc in
  let prev := cur in
  (* every global node is like memory allocation *)
  do cur <- new_RDNode;
  exec addNode g cur;
  match prev with
  | Some prev => exec addSuccessor prev cur; ret (Some cur, first)
  | None => ret (Some cur, Some cur)
  end.

Definition buildGlobals : M (option RDNode * option RDNode) :=
  do '(cur, first) <- fold_each (globals Mod) buildGlobals_global (None, None);
  exec assert (both_or_neither (first, cur)) "(!first && !cur) || (first && cur)";
  ret (first, cur).

Definition successorsNum (n : RDNode) : M nat :=
  fun s => Ok (length (filter (fun e => fst e = n) (edges s))) s.

Definition build (fuel : nat) : M RDNode :=
  (* get entry function *)
  match getFunction Mod "main" with
  | None =>
      exec log [Message "Need main function in module"];
      fail Abort
  | Some F =>
      (* first we must build globals, because nodes can use them as operands *)
      do glob <- buildGlobals;
      (* now we can build rest of the graph; the root is a handle, so
         assert(root) holds *)
      do root <- buildFunction fuel F;
      (* do we have any globals at all? If so, insert them at the begining
         of the graph *)
      match fst glob with
      | Some glob_first =>
          exec assert (bool_decide (is_Some (snd glob)))
                 "Have the start but not the end";
          (* this is a sequence of global nodes, make it the root of the graph *)
          do glob_second <- deref (snd glob);
          exec addSuccessor glob_second root;
          do n <- successorsNum root;
          exec assert (Nat.ltb 0 n) "root->successorsNum() > 0";
          ret glob_first
      | None => ret root
      end
  end.


(** ** Notions the properties are stated with *)

(** The size [createStore] records for a store of a value of type [op0_ty]. *)
Definition store_size (op0_ty : LType) : N :=
  if N.eqb (getAllocatedSize op0_ty) 0 then UNKNOWN_OFFSET
  else getAllocatedSize op0_ty.

(** The state after [llvm::errs() << ...]. *)
Definition logged (d : list Diagnostic) (s : Builder) : Builder :=
  {| arena := arena s; edges := edges s; defs := defs s;
     nodes_map := nodes_map s; mapping := mapping s;
     subgraphs_map := subgraphs_map s; errs := errs s ++ d |}.

(** The state after [from->addSuccessor(to)]. *)
Definition with_edge (from to : RDNode) (s : Builder) : Builder :=
  {| arena := arena s; edges := edges s ++ [(from, to)]; defs := defs s;
     nodes_map := nodes_map s; mapping := mapping s;
     subgraphs_map := subgraphs_map s; errs := errs s |}.

(** An instruction for which [buildBlock] creates no node: any opcode but
    alloca, store, ret and call, and the debug-value pseudo-call. *)
Definition emits_no_node (i : Instruction) : bool :=
  match i with
  | OtherInst _ => true
  | Call _ true _ => true
  | _ => false
  end.

Definition named (f : Function) (name : string) : bool :=
  match f_name f with
  | Some n => strcmp_eq n name
  | None => false
  end.

(** The callee is one of the allocators [getMemAllocationFunc] knows. *)
Definition recognized_allocator (f : Function) : bool :=
  named f "malloc" || named f "calloc" || named f "alloca".


(** [F] has a subgraph record with a root. *)
Definition built (s : Builder) (F : Value) : bool :=
  match subgraphs_map s !! F with
  | Some sg => bool_decide (is_Some (sg_root sg))
  | None => false
  end.

(** The number of functions of the module that have no such record yet. *)
Definition unbuilt (s : Builder) : nat :=
  length (filter (fun f => built s (f_addr f) = false) (functions Mod)).

(** From [s] to [s'] no subgraph record with a root was replaced or removed. *)
Definition stable (s s' : Builder) : Prop :=
  forall F sg,
    subgraphs_map s !! F = Some sg -> is_Some (sg_root sg) ->
    subgraphs_map s' !! F = Some sg.


(** *** Inputs on which the builder fails no assertion *)

(** The pointer leads to a function of the module that has a body. *)
Definition wf_callee (ptr : Pointer) : bool :=
  match getUserData (target ptr) with
  | Some a =>
      match dyn_cast_Function Mod a with
      | Some Fn => negb (Nat.eqb (length (f_blocks Fn)) 0)
      | None => false
      end
  | None => false
  end.

(** A store has points-to information whose pointers are null or lead to an
    IR value; a direct call is not to [realloc] nor to an intrinsic with a
    body; an indirect call has points-to information whose pointers (those
    that are not null, when there are several) lead to functions with a
    body. *)
Definition wf_inst (i : Instruction) : bool :=
  match i with
  | Store _ _ op1 =>
      match getPointsTo PTA op1 with
      | Some pts =>
          forallb (fun ptr => isNull ptr
                              || bool_decide (is_Some (getUserData (target ptr))))
            (pointsTo pts)
      | None => false
      end
  | Call _ false calledValue =>
      let calledVal := stripPointerCasts Mod calledValue in
      match dyn_cast_Function Mod calledVal with
      | Some func =>
          recognized_allocator func
          || (negb (named func "realloc")
              && (Nat.eqb (length (f_blocks func)) 0 || negb (isIntrinsic func)))
      | None =>
          match getPointsTo PTA calledVal with
          | Some op =>
              match pointsTo op with
              | [] => false
              | [ptr] => wf_callee ptr
              | ptrs => forallb (fun ptr => isNull ptr || wf_callee ptr) ptrs
              end
          | None => false
          end
      end
  | _ => true
  end.

(** The instructions of the block are well-formed and its successors are
    blocks of the function. *)
Definition wf_block (blocks : list BasicBlock) (b : BasicBlock) : bool :=
  forallb wf_inst (bb_insts b)
  && forallb (fun S_ => existsb (fun b' => Nat.eqb (bb_addr b') S_) blocks)
       (bb_succs b).

(** The function has a body of well-formed blocks, one of which has no
    successor. *)
Definition wf_function (F : Function) : bool :=
  negb (Nat.eqb (length (f_blocks F)) 0)
  && forallb (wf_block (f_blocks F)) (f_blocks F)
  && existsb (fun b => Nat.eqb (length (bb_succs b)) 0) (f_blocks F).

(** Every function of the module that has a body is well-formed. *)
Definition wf_module : bool :=
  forallb (fun F => Nat.eqb (length (f_blocks F)) 0 || wf_function F)
    (functions Mod).

(** Every subgraph record with a root has a return node. *)
Definition records_complete (s : Builder) : Prop :=
  forall F sg,
    subgraphs_map s !! F = Some sg -> is_Some (sg_root sg) -> is_Some (sg_ret sg).

(** *** Notions of the proofs *)

(** What one run of the loop of [createStore] may do: append def-sites of
    [node] that satisfy [P], and write diagnostics. *)
Definition adds_defs (node : RDNode) (P : DefSite -> Prop) (s s' : Builder) : Prop :=
  arena s' = arena s /\ edges s' = edges s /\ nodes_map s' = nodes_map s
  /\ mapping s' = mapping s /\ subgraphs_map s' = subgraphs_map s
  /\ exists added, defs s' = defs s ++ added
                   /\ Forall (fun nd => fst nd = node /\ P (snd nd)) added.

(** The def-sites [createStore] adds carry the size and the flag that the
    whole points-to set decides. *)
Definition store_def_site (op0_ty : LType) (npts : nat) (d : DefSite) : Prop :=
  ds_len d = store_size op0_ty
  /\ ds_strong d = Nat.eqb npts 1.

(** A computation that neither runs out of fuel nor touches
    [subgraphs_map]. *)
Definition quiet {A} (m : M A) : Prop :=
  forall s, m s <> Fail OutOfFuel
            /\ forall a s', m s = Ok a s' -> subgraphs_map s' = subgraphs_map s.

(** A computation that does not run out of fuel from a state with at most
    [k] functions left to build, and replaces no subgraph record. *)
Definition bounded_at {A} (k : nat) (m : M A) (s : Builder) : Prop :=
  (unbuilt s <= k -> m s <> Fail OutOfFuel)
  /\ forall a s', m s = Ok a s' -> stable s s'.

Definition bounded {A} (k : nat) (m : M A) : Prop :=
  forall s, bounded_at k m s.

(** What the proof asks of the recursive call. *)
Definition rec_bounded (k : nat) (rec : Function -> M RDNode) : Prop :=
  forall Fn s,
    Fn ∈ functions Mod -> built s (f_addr Fn) = false ->
    (unbuilt s <= k -> rec Fn s <> Fail OutOfFuel)
    /\ forall r s', rec Fn s = Ok r s' ->
         stable s s' /\ built s' (f_addr Fn) = true.

(** Every block of [blocks] has an entry with a first node. *)
Definition covers (built_blocks : gmap nat (option RDNode * option RDNode))
    (blocks : list BasicBlock) : Prop :=
  forall b, b ∈ blocks ->
    exists p q, built_blocks !! bb_addr b = Some (Some p, q).

(** A computation that returns and leaves [subgraphs_map] alone. *)
Definition total {A} (m : M A) : Prop :=
  forall s, exists a s', m s = Ok a s' /\ subgraphs_map s' = subgraphs_map s.

(** A computation that returns from a state with complete records and at
    most [k] functions left to build. *)
Definition succeeds_at {A} (k : nat) (m : M A) (s : Builder) : Prop :=
  records_complete s -> unbuilt s <= k ->
  exists a s', m s = Ok a s' /\ stable s s' /\ records_complete s'.

Definition succeeds {A} (k : nat) (m : M A) : Prop :=
  forall s, succeeds_at k m s.

(** What the proof of success asks of the recursive call. *)
Definition rec_succeeds (k : nat) (rec : Function -> M RDNode) : Prop :=
  forall Fn s,
    Fn ∈ functions Mod -> f_blocks Fn <> [] -> built s (f_addr Fn) = false ->
    records_complete s -> unbuilt s <= k ->
    exists r s', rec Fn s = Ok r s' /\ stable s s' /\ records_complete s'
                 /\ built s' (f_addr Fn) = true.

(** Both nodes of an entry of [built_blocks] are there. *)
Definition full (e : option RDNode * option RDNode) : Prop :=
  is_Some (fst e) /\ is_Some (snd e).

(** The state in which [buildFunction] starts on the blocks of [F]: two
    nodes allocated, and the record of [F] in [subgraphs_map]. *)
Definition with_subgraph_record (F : Value) (s : Builder) : Builder :=
  {| arena := S (S (arena s)); edges := edges s; defs := defs s;
     nodes_map := nodes_map s; mapping := mapping s;
     subgraphs_map :=
       <[F := {| sg_root := Some (arena s); sg_ret := Some (S (arena s)) |}]>
         (subgraphs_map s);
     errs := errs s |}.


(** *** More notions: growth of the builder's state *)

(** From [s] to [s'] the builder only added: nodes to the arena, edges,
    def-sites and diagnostics at the end of their lists, keys to its maps. *)
Definition extends (s s' : Builder) : Prop :=
  arena s <= arena s'
  /\ edges s `prefix_of` edges s'
  /\ defs s `prefix_of` defs s'
  /\ errs s `prefix_of` errs s'
  /\ dom (nodes_map s) ⊆ dom (nodes_map s')
  /\ dom (mapping s) ⊆ dom (mapping s')
  /\ dom (subgraphs_map s) ⊆ dom (subgraphs_map s').

(** A computation that, when it returns, has only added. *)
Definition grows {A} (m : M A) : Prop :=
  forall s a s', m s = Ok a s' -> extends s s'.


(** *** More notions: what [createStore] and [buildGlobals] record *)

(** The def-site [createStore] records for one pointer of the points-to set,
    if any: none for a null pointer, none for a target without user data or
    without a node in [nm]. *)
Definition store_def (op0_ty : LType) (node : RDNode) (npts : nat)
    (nm : gmap Value RDNode) (ptr : Pointer) : list (RDNode * DefSite) :=
  if isNull ptr then []
  else
    match getUserData (target ptr) with
    | Some v =>
        match nm !! v with
        | Some ptrNode =>
            [(node, {| ds_target := ptrNode; ds_offset := offset ptr;
                       ds_len := store_size op0_ty;
                       ds_strong := Nat.eqb npts 1 |})]
        | None => []
        end
    | None => []
    end.

(** The diagnostics [createStore] writes for one pointer. *)
Definition store_diagnostics (nm : gmap Value RDNode) (ptr : Pointer)
  : list Diagnostic :=
  if isNull ptr then []
  else
    match getUserData (target ptr) with
    | Some v =>
        match nm !! v with
        | Some _ => []
        | None => [PrintValue v;
                   Message "Don't have created node for pointer's target"]
        end
    | None => []
    end.

(** The pointer is one [createStore] can handle: null, or with user data. *)
Definition store_ptr_ok (ptr : Pointer) : bool :=
  isNull ptr || bool_decide (is_Some (getUserData (target ptr))).

End Builder.

(** The state after the edges [es] were added, in this order. *)
Definition add_edges (es : list (RDNode * RDNode)) (s : Builder) : Builder :=
  {| arena := arena s; edges := edges s ++ es; defs := defs s;
     nodes_map := nodes_map s; mapping := mapping s;
     subgraphs_map := subgraphs_map s; errs := errs s |}.

(** The first node of the block at address [S_], if it was built. *)
Definition first_of (built_blocks : gmap nat (option RDNode * option RDNode))
    (S_ : nat) : option RDNode :=
  built_blocks !! S_ ≫= fst.

(** An instruction for which [buildBlock] creates exactly one node. *)
Definition emits_one (i : Instruction) : bool :=
  match i with
  | Alloca _ | Store _ _ _ | Ret _ => true
  | _ => false
  end.

(** An instruction that is no call, or the debug-value pseudo-call. *)
Definition call_free (i : Instruction) : bool :=
  match i with
  | Call _ false _ => false
  | _ => true
  end.

(** The number of nodes the instructions of a call-free block emit. *)
Definition emitted (insts : list Instruction) : nat :=
  length (List.filter emits_one insts).


(** The edges [a -> a+1 -> ... -> a+k] between consecutively allocated
    nodes. *)
Definition chain (a k : nat) : list (RDNode * RDNode) :=
  map (fun j => (j, S j)) (seq a k).

End rd.

(** * Concrete inputs *)

Module examples.

Import rd.

(** The sentinel as [Offset.h] of dg defines it: all bits of a [uint64_t]. *)
Definition UNKNOWN : N := 18446744073709551615%N.

(** A toy data layout: the identifier of a type is its allocation size. *)
Definition DL0 : DataLayout := {| getTypeAllocSize := fun t => N.of_nat (ty_id t) |}.

Definition i32 : LType := {| ty_id := 4; isSized := true |}.
Definition opaque : LType := {| ty_id := 0; isSized := false |}.

(** The node of the allocation [10], and two functions as targets. *)
Definition alloc10 : PSSNode := mkPSSNode 5 (Some 10) [].
Definition target_f : PSSNode := mkPSSNode 6 (Some 50) [].

(** Value [100] points to the allocation [10]; value [101] to the allocation
    and to null; value [200] to null alone; value [201] to the function at
    [50] and to unknown memory. *)
Definition PTA0 : LLVMPointsToAnalysis :=
  {| getPointsTo := fun v =>
       match v with
       | 100 => Some (mkPSSNode 7 None [mkPointer alloc10 0])
       | 101 => Some (mkPSSNode 8 None [mkPointer alloc10 0; mkPointer NULLPTR 0])
       | 200 => Some (mkPSSNode 9 None [mkPointer NULLPTR 0])
       | 201 => Some (mkPSSNode 10 None
                        [mkPointer target_f 0; mkPointer UNKNOWN_MEMORY UNKNOWN])
       | _ => None
       end |}.

(** [main] calls itself. *)
Definition rec_entry : BasicBlock :=
  {| bb_addr := 1; bb_insts := [Call 13 false 50; Ret 14]; bb_succs := [] |}.
Definition rec_main : Function :=
  {| f_addr := 50; f_name := Some "main"%string; f_blocks := [rec_entry];
     isIntrinsic := false |}.
Definition M_rec : LLVMModule :=
  {| functions := [rec_main]; globals := []; stripPointerCasts := fun v => v |}.

(** [main] calls [g], and [g] calls [main]. *)
Definition mut_main : Function :=
  {| f_addr := 50; f_name := Some "main"%string;
     f_blocks := [{| bb_addr := 1; bb_insts := [Call 13 false 51; Ret 14];
                     bb_succs := [] |}];
     isIntrinsic := false |}.
Definition mut_g : Function :=
  {| f_addr := 51; f_name := Some "g"%string;
     f_blocks := [{| bb_addr := 2; bb_insts := [Call 15 false 50; Ret 16];
                     bb_succs := [] |}];
     isIntrinsic := false |}.
Definition M_mut : LLVMModule :=
  {| functions := [mut_main; mut_g]; globals := [70];
     stripPointerCasts := fun v => v |}.

(** [main] is [A -> B -> C]; [A] allocates and stores, [B] holds one
    instruction that emits no node, [C] returns. *)
Definition block_A : BasicBlock :=
  {| bb_addr := 1; bb_insts := [Alloca 10; Store 11 i32 100]; bb_succs := [2] |}.
Definition block_B : BasicBlock :=
  {| bb_addr := 2; bb_insts := [OtherInst 12]; bb_succs := [3] |}.
Definition block_C : BasicBlock :=
  {| bb_addr := 3; bb_insts := [Ret 14]; bb_succs := [] |}.
Definition abc_main : Function :=
  {| f_addr := 50; f_name := Some "main"%string;
     f_blocks := [block_A; block_B; block_C]; isIntrinsic := false |}.
Definition M_abc : LLVMModule :=
  {| functions := [abc_main]; globals := []; stripPointerCasts := fun v => v |}.

(** A module that declares [realloc] and [malloc], both without a body. *)
Definition realloc_decl : Function :=
  {| f_addr := 60; f_name := Some "realloc"%string; f_blocks := [];
     isIntrinsic := false |}.
Definition malloc_decl : Function :=
  {| f_addr := 61; f_name := Some "malloc"%string; f_blocks := [];
     isIntrinsic := false |}.
Definition M_alloc : LLVMModule :=
  {| functions := [realloc_decl; malloc_decl]; globals := [];
     stripPointerCasts := fun v => v |}.

(** The builder after the alloca [10] got the node [0]. *)
Definition after_alloca : Builder :=
  {| arena := 1; edges := []; defs := []; nodes_map := <[10 := 0]> ∅;
     mapping := ∅; subgraphs_map := ∅; errs := [] |}.

(** ... and after the store [11] of an [i32] through [100]. *)
Definition after_store (ty : LType) (len : N) : Builder :=
  {| arena := 2; edges := [];
     defs := [(1, {| ds_target := 0; ds_offset := 0; ds_len := len;
                     ds_strong := true |})];
     nodes_map := <[11 := 1]> (<[10 := 0]> ∅);
     mapping := ∅; subgraphs_map := ∅; errs := [] |}.

(** The points-to driver: an allocation and a GEP on a cycle, and a node on
    its own. *)
Definition PS0 : pta.PointerSubgraph :=
  {| pta.nodes :=
       <[0 := {| pta.getType := pta.ALLOC; pta.offset := 0;
                 pta.successors := [1] |}]>
       (<[1 := {| pta.getType := pta.GEP; pta.offset := 4;
                  pta.successors := [0; 2] |}]>
       (<[2 := {| pta.getType := pta.GEP; pta.offset := 8;
                  pta.successors := [] |}]> ∅));
     pta.getRoot := Some 0 |}.

Definition PA0 : pta.PointerAnalysis :=
  {| pta.PS := PS0; pta.SCCs := [[2]; [0; 1]]; pta.max_offset := UNKNOWN;
     pta.preprocess_geps := true; pta.invalidate_nodes := false;
     pta.to_process := []; pta.changed := [] |}.

(** Hooks under which the node [1] always reports growth. *)
Definition hooks0 : pta.Hooks :=
  {| pta.beforeProcessed := pta.default_hook;
     pta.processNode := fun n ps => (Nat.eqb n 1, ps);
     pta.afterProcessed := pta.default_hook |}.

(** Neither built nor called: stands for a recursive call that must not
    happen. *)
Definition no_rec : Function -> M RDNode := fun _ => fail Abort.

(** A module with three globals. *)
Definition M_glob : LLVMModule :=
  {| functions := [abc_main]; globals := [70; 71; 72];
     stripPointerCasts := fun v => v |}.

(** Value [202] points to the function at [50] alone; value [203] to that
    function and to null. *)
Definition PTA1 : LLVMPointsToAnalysis :=
  {| getPointsTo := fun v =>
       match v with
       | 202 => Some (mkPSSNode 11 None [mkPointer target_f 0])
       | 203 => Some (mkPSSNode 12 None [mkPointer target_f 0; mkPointer NULLPTR 0])
       | _ => None
       end |}.

(** A block that is its own successor. *)
Definition block_loop : BasicBlock :=
  {| bb_addr := 4; bb_insts := []; bb_succs := [4] |}.

(** The hooks of the base class, with a [processNode] that reports
    nothing. *)
Definition hooks_quiet : pta.Hooks :=
  {| pta.beforeProcessed := pta.default_hook;
     pta.processNode := pta.default_hook;
     pta.afterProcessed := pta.default_hook |}.

(** The driver over [PS0] with components of one node only. *)
Definition PA1 : pta.PointerAnalysis :=
  {| pta.PS := PS0; pta.SCCs := [[0]; [1]; [2]]; pta.max_offset := UNKNOWN;
     pta.preprocess_geps := true; pta.invalidate_nodes := false;
     pta.to_process := []; pta.changed := [] |}.

End examples.

(** * Properties of the points-to driver *)

Section pta_properties.

Import pta.

Variable UNKNOWN_OFFSET : N.

Local Abbreviation force_unknown := (pta.force_unknown UNKNOWN_OFFSET).

Lemma force_unknown_idemp nd :
  force_unknown (force_unknown nd) = force_unknown nd.
Proof.
  unfold force_unknown.
  destruct (bool_decide (getType nd = GEP)) eqn:E; simpl; rewrite ?E; done.
Qed.

Lemma preprocessGEPs_node_lookup ns n m :
  preprocessGEPs_node UNKNOWN_OFFSET ns n !! m
  = if decide (m = n) then force_unknown <$> ns !! m else ns !! m.
Proof.
  unfold preprocessGEPs_node, force_unknown.
  destruct (decide (m = n)) as [->|Hne].
  - destruct (ns !! n) as [nd|] eqn:E; simpl; [|by rewrite E].
    destruct (bool_decide (getType nd = GEP)).
    + by rewrite lookup_insert_eq.
    + by rewrite E.
  - destruct (ns !! n) as [nd|]; [|done].
    destruct (bool_decide (getType nd = GEP)); [|done].
    by rewrite lookup_insert_ne.
Qed.

Lemma preprocessGEPs_nodes_lookup scc ns m :
  foldl (preprocessGEPs_node UNKNOWN_OFFSET) ns scc !! m
  = if bool_decide (m ∈ scc) then force_unknown <$> ns !! m else ns !! m.
Proof.
  revert ns. induction scc as [|n scc IH]; intros ns; simpl.
  - done.
  - rewrite IH, preprocessGEPs_node_lookup.
    destruct (decide (m = n)) as [->|Hne].
    + rewrite (bool_decide_eq_true_2 (n ∈ n :: scc)) by left.
      destruct (bool_decide (n ∈ scc)); [|done].
      destruct (ns !! n); simpl; [|done]. by rewrite force_unknown_idemp.
    + destruct (decide (m ∈ scc)) as [Hin|Hnin].
      * rewrite !bool_decide_eq_true_2; [done|by right|done].
      * rewrite !bool_decide_eq_false_2; [done| |done].
        intros [?|?]%elem_of_cons; done.
Qed.

Lemma preprocessGEPs_sccs_lookup sccs ns m :
  foldl (preprocessGEPs_scc UNKNOWN_OFFSET) ns sccs !! m
  = if in_cycle sccs m then force_unknown <$> ns !! m else ns !! m.
Proof.
  revert ns. induction sccs as [|scc sccs IH]; intros ns; simpl; [done|].
  rewrite IH. unfold preprocessGEPs_scc.
  destruct (1 <? length scc)%nat; simpl.
  - rewrite preprocessGEPs_nodes_lookup.
    destruct (bool_decide (m ∈ scc)); simpl; [|done].
    destruct (in_cycle sccs m); [|done].
    destruct (ns !! m); simpl; [|done]. by rewrite force_unknown_idemp.
  - done.
Qed.

Lemma in_cycle_true sccs n :
  in_cycle sccs n = true <->
  exists scc, scc ∈ sccs /\ n ∈ scc /\ 1 < length scc.
Proof.
  unfold in_cycle. rewrite existsb_exists. split.
  - intros (scc & Hin & [Hlen Hn]%andb_prop).
    exists scc. rewrite list_elem_of_In. split; [done|].
    split; [by apply bool_decide_eq_true in Hn|by apply Nat.ltb_lt].
  - intros (scc & Hin & Hn & Hlen). exists scc.
    rewrite <- list_elem_of_In. split; [done|].
    apply andb_true_intro. split; [by apply Nat.ltb_lt|by apply bool_decide_eq_true].
Qed.

(** C6. After [preprocessGEPs], a GEP node in a component of more than one
    node has the offset [UNKNOWN_OFFSET] (and is otherwise as it was); a node
    of another kind is unchanged; and, the components being disjoint, a node
    in a component of one node is unchanged. *)
Theorem preprocessGEPs_offsets (pa : PointerAnalysis) (n : PSNodePtr) (nd : PSNode) :
  nodes (PS pa) !! n = Some nd ->
  (getType nd = GEP ->
   forall scc, scc ∈ SCCs pa -> n ∈ scc -> 1 < length scc ->
     nodes (PS (preprocessGEPs UNKNOWN_OFFSET pa)) !! n
     = Some {| getType := GEP; offset := UNKNOWN_OFFSET;
               successors := successors nd |})
  /\ (getType nd <> GEP ->
      nodes (PS (preprocessGEPs UNKNOWN_OFFSET pa)) !! n = Some nd)
  /\ ((forall c1 c2, c1 ∈ SCCs pa -> c2 ∈ SCCs pa -> n ∈ c1 -> n ∈ c2 -> c1 = c2) ->
      forall scc, scc ∈ SCCs pa -> n ∈ scc -> length scc = 1 ->
      nodes (PS (preprocessGEPs UNKNOWN_OFFSET pa)) !! n = Some nd).
Proof.
  intros Hn. simpl. rewrite preprocessGEPs_sccs_lookup, Hn. simpl.
  split; [|split].
  - intros Hgep scc Hscc Hin Hlen.
    assert (in_cycle (SCCs pa) n = true) as ->
      by (apply in_cycle_true; eauto).
    unfold force_unknown. rewrite bool_decide_eq_true_2 by done.
    unfold setOffset. by rewrite Hgep.
  - intros Hgep. unfold force_unknown.
    rewrite bool_decide_eq_false_2 by done. by destruct (in_cycle _ _).
  - intros Hdisj scc Hscc Hin Hlen.
    destruct (in_cycle (SCCs pa) n) eqn:E; [|done].
    apply in_cycle_true in E as (scc' & Hscc' & Hin' & Hlen').
    rewrite (Hdisj scc scc') in Hlen by done. lia.
Qed.

(** ** The re-enumeration of [run] *)

Lemma next_layer_NoDup ps seen frontier : NoDup (next_layer ps seen frontier).
Proof. apply NoDup_remove_dups. Qed.

Lemma next_layer_fresh ps seen frontier x :
  x ∈ next_layer ps seen frontier -> x ∉ seen.
Proof.
  unfold next_layer. rewrite elem_of_remove_dups, list_elem_of_difference.
  tauto.
Qed.

Lemma enumerate_NoDup rounds ps seen frontier :
  NoDup seen -> NoDup (enumerate rounds ps seen frontier).
Proof.
  revert seen frontier.
  induction rounds as [|rounds IH]; intros seen frontier Hseen; simpl; [done|].
  pose proof (next_layer_NoDup ps seen frontier) as Hlayer.
  pose proof (next_layer_fresh ps seen frontier) as Hfresh.
  destruct (next_layer ps seen frontier) as [|y layer]; [done|].
  apply IH, NoDup_app. split; [done|]. split; [|done].
  intros x Hx Hy. by apply (Hfresh x).
Qed.

Lemma enumerate_seen rounds ps seen frontier x :
  x ∈ seen -> x ∈ enumerate rounds ps seen frontier.
Proof.
  revert seen frontier.
  induction rounds as [|rounds IH]; intros seen frontier Hx; simpl; [done|].
  destruct (next_layer ps seen frontier) as [|y layer]; [done|].
  apply IH, elem_of_app. by left.
Qed.

Lemma getNodes_NoDup ps start seeds hint : NoDup (getNodes ps start seeds hint).
Proof. apply enumerate_NoDup, NoDup_remove_dups. Qed.

Lemma getNodes_seed ps start seeds hint x :
  x ∈ seeds -> x ∈ getNodes ps start (Some seeds) hint.
Proof. intros Hx. apply enumerate_seen. by apply elem_of_remove_dups. Qed.

(** A duplicate-free seed list is no longer than its enumeration. *)
Lemma getNodes_length ps start seeds hint :
  NoDup seeds -> length seeds <= length (getNodes ps start (Some seeds) hint).
Proof.
  intros Hseeds. apply submseteq_length, NoDup_submseteq; [done|].
  intros x. apply getNodes_seed.
Qed.

(** *** The enumeration is the set of nodes reachable from the seeds *)

Lemma next_layer_edge ps seen frontier y :
  y ∈ next_layer ps seen frontier -> exists x, x ∈ frontier /\ edge ps x y.
Proof.
  unfold next_layer.
  rewrite elem_of_remove_dups, list_elem_of_difference, list_elem_of_In.
  intros [(x & Hx & Hy)%in_flat_map _].
  exists x. by rewrite <- !list_elem_of_In in *.
Qed.

Lemma next_layer_complete ps seen frontier x y :
  x ∈ frontier -> edge ps x y -> y ∈ seen \/ y ∈ next_layer ps seen frontier.
Proof.
  intros Hx Hy. destruct (decide (y ∈ seen)) as [?|Hnew]; [by left|right].
  unfold next_layer.
  rewrite elem_of_remove_dups, list_elem_of_difference, list_elem_of_In.
  split; [|done]. apply in_flat_map. exists x.
  by rewrite <- !list_elem_of_In.
Qed.

Lemma enumerate_sound ps (R : PSNodePtr -> Prop) rounds seen frontier :
  (forall x y, R x -> edge ps x y -> R y) ->
  (forall x, x ∈ seen -> R x) ->
  (forall x, x ∈ frontier -> x ∈ seen) ->
  forall x, x ∈ enumerate rounds ps seen frontier -> R x.
Proof.
  intros Hstep. revert seen frontier.
  induction rounds as [|rounds IH]; intros seen frontier Hseen Hfront; simpl;
    [done|].
  pose proof (next_layer_edge ps seen frontier) as Hlayer.
  destruct (next_layer ps seen frontier) as [|y layer]; [done|].
  apply IH.
  - intros x [?|Hx]%elem_of_app; [by apply Hseen|].
    destruct (Hlayer x Hx) as (z & Hz & Hedge).
    eapply Hstep; [|done]. by apply Hseen, Hfront.
  - intros x Hx. apply elem_of_app. by right.
Qed.

(** A duplicate-free list of nodes that is as long as the subgraph has
    nodes holds them all. *)
Lemma all_nodes_seen ps seen n :
  NoDup seen -> (forall x, x ∈ seen -> is_Some (nodes ps !! x)) ->
  size (nodes ps) <= length seen ->
  is_Some (nodes ps !! n) -> n ∈ seen.
Proof.
  intros Hnd Hdom Hsize Hn.
  assert (seen ⊆+ elements (dom (nodes ps))) as Hsub.
  { apply NoDup_submseteq; [done|]. intros x Hx.
    by apply elem_of_elements, elem_of_dom, Hdom. }
  apply submseteq_length_Permutation in Hsub.
  - rewrite Hsub. by apply elem_of_elements, elem_of_dom.
  - change (length (elements (dom (nodes ps)))) with (size (dom (nodes ps))).
    by rewrite size_dom.
Qed.

Lemma enumerate_closed ps rounds seen frontier :
  closed_graph ps ->
  NoDup seen ->
  (forall x, x ∈ seen -> is_Some (nodes ps !! x)) ->
  (forall x, x ∈ frontier -> x ∈ seen) ->
  (forall x y, x ∈ seen -> x ∉ frontier -> edge ps x y -> y ∈ seen) ->
  size (nodes ps) <= rounds + length seen ->
  forall x y, x ∈ enumerate rounds ps seen frontier -> edge ps x y ->
              y ∈ enumerate rounds ps seen frontier.
Proof.
  intros Hclosed. revert seen frontier.
  induction rounds as [|rounds IH];
    intros seen frontier Hnd Hdom Hfront Hinner Hsize; simpl.
  - intros x y Hx Hedge.
    apply (all_nodes_seen ps); [done|done|done|].
    eapply Hclosed; [|done]. by apply Hdom.
  - pose proof (next_layer_NoDup ps seen frontier) as Hlnd.
    pose proof (next_layer_fresh ps seen frontier) as Hfresh.
    pose proof (next_layer_edge ps seen frontier) as Hledge.
    pose proof (next_layer_complete ps seen frontier) as Hlcomp.
    destruct (next_layer ps seen frontier) as [|z layer] eqn:E.
    + intros x y Hx Hedge.
      destruct (decide (x ∈ frontier)) as [Hxf|Hxf]; [|by eapply Hinner].
      destruct (Hlcomp x y Hxf Hedge) as [?|Hy]; [done|].
      by apply elem_of_nil in Hy.
    + apply IH.
      * apply NoDup_app. split; [done|]. split; [|done].
        intros x Hx Hx'. by apply (Hfresh x).
      * intros x [?|Hx]%elem_of_app; [by apply Hdom|].
        destruct (Hledge x Hx) as (w & Hw & Hedge).
        eapply Hclosed; [|done]. by apply Hdom, Hfront.
      * intros x Hx. apply elem_of_app. by right.
      * intros x y [Hx|Hx]%elem_of_app Hnl Hedge; [|done].
        apply elem_of_app.
        destruct (decide (x ∈ frontier)) as [Hxf|Hxf].
        -- by apply (Hlcomp x).
        -- left. by eapply Hinner.
      * rewrite length_app. simpl. lia.
Qed.

(** With a seed set, [getNodes] returns exactly the nodes that some seed
    reaches along successor edges (in a subgraph that owns the seeds and all
    successors of its nodes), each once. *)
Lemma getNodes_reachable ps start seeds hint x :
  closed_graph ps ->
  (forall seed, seed ∈ seeds -> is_Some (nodes ps !! seed)) ->
  x ∈ getNodes ps start (Some seeds) hint
  <-> exists seed, seed ∈ seeds /\ rtc (edge ps) seed x.
Proof.
  intros Hclosed Hseeds. unfold getNodes. split.
  - apply (enumerate_sound ps
             (fun x => exists seed, seed ∈ seeds /\ rtc (edge ps) seed x)).
    + intros y z (seed & Hs & Hr) Hedge. exists seed. split; [done|].
      by eapply rtc_r.
    + intros y Hy. rewrite elem_of_remove_dups in Hy.
      exists y. split; [done|apply rtc_refl].
    + done.
  - intros (seed & Hs & Hr).
    assert (seed ∈ enumerate (size (nodes ps)) ps (remove_dups seeds)
                   (remove_dups seeds)) as Hseed
      by (by apply enumerate_seen, elem_of_remove_dups).
    clear Hs. induction Hr as [seed|seed y z Hedge _ IH]; [done|].
    apply IH. revert Hseed Hedge.
    apply (enumerate_closed ps _ _ _ Hclosed);
      [apply NoDup_remove_dups| |done|done|lia].
    intros w Hw. rewrite elem_of_remove_dups in Hw. by apply Hseeds.
Qed.

Section run.

Variable hooks : Hooks.

Lemma run_node_to_process pa cur :
  to_process (run_node hooks pa cur) = to_process pa.
Proof.
  unfold run_node.
  destruct (beforeProcessed hooks cur (PS pa)) as [b1 ps1].
  destruct (processNode hooks cur ps1) as [b2 ps2].
  destruct (afterProcessed hooks cur ps2) as [b3 ps3].
  by destruct (false || b1 || b2 || b3).
Qed.

Lemma run_node_changed pa cur :
  exists l, changed (run_node hooks pa cur) = changed pa ++ l
            /\ l `sublist_of` [cur].
Proof.
  unfold run_node.
  destruct (beforeProcessed hooks cur (PS pa)) as [b1 ps1].
  destruct (processNode hooks cur ps1) as [b2 ps2].
  destruct (afterProcessed hooks cur ps2) as [b3 ps3].
  destruct (false || b1 || b2 || b3); simpl.
  - exists [cur]. done.
  - exists []. rewrite app_nil_r. split; [done|]. apply sublist_nil_l.
Qed.

Lemma run_nodes_changed l pa :
  exists l', changed (foldl (run_node hooks) pa l) = changed pa ++ l'
             /\ l' `sublist_of` l.
Proof.
  revert pa. induction l as [|cur l IH]; intros pa; simpl.
  - exists []. by rewrite app_nil_r.
  - destruct (run_node_changed pa cur) as (l1 & E1 & S1).
    destruct (IH (run_node hooks pa cur)) as (l2 & E2 & S2).
    exists (l1 ++ l2). rewrite E2, E1, app_assoc. split; [done|].
    change (cur :: l) with ([cur] ++ l). by apply sublist_app.
Qed.

(** The nodes a pass enqueues are nodes it processed, in their order, each
    at most once. *)
Lemma run_pass_changed pa :
  changed (snd (run_pass hooks pa)) `sublist_of` to_process pa.
Proof.
  unfold run_pass. simpl.
  destruct (run_nodes_changed (to_process pa) (with_changed pa [])) as (l & E & S).
  simpl in *. by rewrite E.
Qed.

Lemma run_refill_covers pa :
  NoDup (to_process pa) ->
  changed (snd (run_pass hooks pa)) <> [] ->
  let pa' := run_refill (fst (run_pass hooks pa)) (snd (run_pass hooks pa)) in
  to_process pa' <> []
  /\ length (changed pa') <= length (to_process pa')
  /\ NoDup (to_process pa').
Proof.
  intros Hnd Hne pa'.
  assert (NoDup (changed (snd (run_pass hooks pa)))) as Hch
    by (eapply sublist_NoDup; [apply Hnd|apply run_pass_changed]).
  assert (length (changed (snd (run_pass hooks pa))) <= length (to_process pa'))
    as Hlen by (apply getNodes_length, Hch).
  split; [|split; [exact Hlen|apply getNodes_NoDup]].
  intros E. rewrite E in Hlen.
  destruct (changed (snd (run_pass hooks pa))); [done|simpl in Hlen; lia].
Qed.

Lemma loop_head_NoDup pa0 pa :
  loop_head UNKNOWN_OFFSET hooks pa0 pa -> NoDup (to_process pa).
Proof. induction 1; apply getNodes_NoDup. Qed.

(** From a duplicate-free work list the loop fails no assertion. *)
Lemma run_loop_no_assertion fuel pa msg :
  NoDup (to_process pa) -> run_loop hooks fuel pa <> AssertionFailed msg.
Proof.
  revert pa. induction fuel as [|fuel IH]; intros pa Hnd; [done|].
  cbn [run_loop].
  pose proof (run_refill_covers pa Hnd) as Hcov.
  assert (to_process (snd (run_pass hooks pa)) = []) as Hclear by done.
  destruct (run_pass hooks pa) as [num pa1]. cbn [fst snd] in Hcov, Hclear.
  destruct (bool_decide (changed pa1 = [])) eqn:Ech; cbn [negb].
  - rewrite Hclear, bool_decide_eq_true_2 by done. cbn [negb].
    by rewrite Ech.
  - apply bool_decide_eq_false in Ech.
    destruct (Hcov Ech) as (Hne & Hlen & Hnd').
    rewrite (bool_decide_eq_false_2 _ Hne).
    apply Nat.leb_le in Hlen. rewrite Hlen. cbn [negb].
    rewrite (bool_decide_eq_false_2 _ Hne). cbn [negb]. by apply IH.
Qed.

End run.

(** C5. At the top of every iteration of [run], if the pass leaves [changed]
    non-empty then the re-enumeration from [changed] is non-empty and at
    least as long as [changed]; so neither assertion after the
    re-enumeration fails, whatever the number of iterations. *)
Theorem run_reenumeration_covers_changed (hooks : Hooks) (pa0 : PointerAnalysis) :
  (forall pa,
     loop_head UNKNOWN_OFFSET hooks pa0 pa ->
     changed (snd (run_pass hooks pa)) <> [] ->
     let pa' := run_refill (fst (run_pass hooks pa)) (snd (run_pass hooks pa)) in
     to_process pa' <> [] /\ length (changed pa') <= length (to_process pa'))
  /\ (forall fuel,
        run UNKNOWN_OFFSET hooks fuel pa0 <> AssertionFailed "!to_process.empty()"
        /\ run UNKNOWN_OFFSET hooks fuel pa0
           <> AssertionFailed "to_process.size() >= changed.size()").
Proof.
  split.
  - intros pa Hhead Hne.
    destruct (run_refill_covers hooks pa (loop_head_NoDup hooks pa0 pa Hhead) Hne)
      as (H1 & H2 & _).
    done.
  - intros fuel. unfold run.
    destruct (getRoot (PS pa0)) as [root|]; [|done].
    split; apply run_loop_no_assertion, getNodes_NoDup.
Qed.

End pta_properties.

(** * Properties of the reaching-definitions builder *)

Section rd_properties.

Import rd.

Variable UNKNOWN_OFFSET : N.
Variable Mod : LLVMModule.
Variable DL : DataLayout.
Variable PTA : LLVMPointsToAnalysis.

Local Abbreviation store_def_site := (rd.store_def_site UNKNOWN_OFFSET DL).
Local Abbreviation bounded_at := (rd.bounded_at Mod).
Local Abbreviation bounded := (rd.bounded Mod).
Local Abbreviation rec_bounded := (rd.rec_bounded Mod).
Local Abbreviation succeeds_at := (rd.succeeds_at Mod).
Local Abbreviation succeeds := (rd.succeeds Mod).
Local Abbreviation rec_succeeds := (rd.rec_succeeds Mod).

Lemma bind_Ok {A B} (m : M A) (k : A -> M B) s b s'' :
  bind m k s = Ok b s'' <-> exists a s', m s = Ok a s' /\ k a s' = Ok b s''.
Proof.
  unfold bind. destruct (m s) as [a s'|e].
  - split; [eauto|]. by intros (a' & s1 & [= <- <-] & ?).
  - split; [done|]. by intros (a' & s1 & ? & ?).
Qed.

(** A relation between states that every iteration of a loop establishes
    holds across the loop, if it is reflexive and transitive. *)
Lemma for_each_preserves {A} (R : Builder -> Builder -> Prop)
    (body : A -> M unit) (l : list A) :
  (forall s, R s s) ->
  (forall s1 s2 s3, R s1 s2 -> R s2 s3 -> R s1 s3) ->
  (forall x s s', x ∈ l -> body x s = Ok tt s' -> R s s') ->
  forall s s', for_each l body s = Ok tt s' -> R s s'.
Proof.
  intros Hrefl Htrans. induction l as [|x l IH]; intros Hbody s s'; simpl.
  - by intros [= <-].
  - intros ([] & s1 & H1 & H2)%bind_Ok.
    eapply Htrans; [eapply Hbody; [left|done]|].
    eapply IH; [|done]. intros y t t' Hy. apply Hbody. by right.
Qed.

Lemma fold_each_preserves {A S} (R : Builder -> Builder -> Prop)
    (body : S -> A -> M S) (l : list A) :
  (forall s, R s s) ->
  (forall s1 s2 s3, R s1 s2 -> R s2 s3 -> R s1 s3) ->
  (forall acc x acc' s s', x ∈ l -> body acc x s = Ok acc' s' -> R s s') ->
  forall acc acc' s s', fold_each l body acc s = Ok acc' s' -> R s s'.
Proof.
  intros Hrefl Htrans. induction l as [|x l IH]; intros Hbody acc acc' s s'; simpl.
  - by intros [= _ <-].
  - intros (acc1 & s1 & H1 & H2)%bind_Ok.
    eapply Htrans; [eapply Hbody; [left|done]|].
    eapply IH; [|done]. intros a y a' t t' Hy. apply Hbody. by right.
Qed.

(** ** [createStore] *)

Lemma adds_defs_refl node P s : adds_defs node P s s.
Proof.
  repeat split. exists []. by rewrite app_nil_r.
Qed.

Lemma adds_defs_trans node P s1 s2 s3 :
  adds_defs node P s1 s2 -> adds_defs node P s2 s3 -> adds_defs node P s1 s3.
Proof.
  intros (A1 & E1 & N1 & M1 & G1 & l1 & D1 & F1) (A2 & E2 & N2 & M2 & G2 & l2 & D2 & F2).
  repeat split; try congruence.
  exists (l1 ++ l2). rewrite D2, D1, app_assoc. split; [done|].
  by apply Forall_app.
Qed.

Lemma createStore_ptr_adds op0_ty node npts ptr s s' :
  createStore_ptr UNKNOWN_OFFSET DL op0_ty node npts ptr s = Ok tt s' ->
  adds_defs node (store_def_site op0_ty npts) s s'.
Proof.
  unfold createStore_ptr.
  destruct (isNull ptr); [intros [= <-]; apply adds_defs_refl|].
  destruct (getUserData (target ptr)) as [v|]; [|done].
  unfold bind, get_node. destruct (nodes_map s !! v) as [pn|].
  - intros [= <-]. repeat split; simpl.
    eexists. split; [done|]. by repeat constructor.
  - intros [= <-]. repeat split; simpl. exists []. by rewrite app_nil_r.
Qed.

Lemma createStore_adds Inst op0_ty op1 pts s node s' :
  getPointsTo PTA op1 = Some pts ->
  createStore UNKNOWN_OFFSET DL PTA Inst op0_ty op1 s = Ok node s' ->
  node = arena s
  /\ exists added,
       defs s' = defs s ++ added
       /\ Forall (fun nd => fst nd = node
                   /\ store_def_site op0_ty (length (pointsTo pts)) (snd nd))
            added.
Proof.
  intros Hpts. unfold createStore. rewrite Hpts.
  intros (n & s1 & [= <- <-] & ([] & s2 & [= <-] & H)%bind_Ok)%bind_Ok.
  apply bind_Ok in H as ([] & s3 & Hloop & [= <- <-]).
  split; [done|].
  eapply (for_each_preserves (adds_defs (arena s) _)) in Hloop;
    [|apply adds_defs_refl|apply adds_defs_trans
     |intros; by eapply createStore_ptr_adds].
  destruct Hloop as (_ & _ & _ & _ & _ & added & Hd & Hf).
  exists added. done.
Qed.

(** C3. Every def-site a [createStore] adds belongs to the node of the store
    and has its strong-update flag set exactly when the points-to set of the
    address operand has one element (null pointers counted). *)
Theorem createStore_strong_update Inst op0_ty op1 pts s node s' :
  getPointsTo PTA op1 = Some pts ->
  createStore UNKNOWN_OFFSET DL PTA Inst op0_ty op1 s = Ok node s' ->
  exists added,
    defs s' = defs s ++ added
    /\ forall n d, (n, d) ∈ added ->
         n = node /\ (ds_strong d = true <-> length (pointsTo pts) = 1).
Proof.
  intros Hpts Hrun.
  destruct (createStore_adds _ _ _ _ _ _ _ Hpts Hrun) as (_ & added & Hd & Hf).
  exists added. split; [done|]. intros n d Hin.
  rewrite Forall_forall in Hf. destruct (Hf _ Hin) as (Hn & _ & Hstrong).
  split; [done|]. simpl in Hstrong. rewrite Hstrong. apply Nat.eqb_eq.
Qed.

(** C7. [getAllocatedSize] is 0 for an unsized type and the allocation size
    the data layout gives for a sized one.  Every def-site a [createStore]
    adds has the size [UNKNOWN_OFFSET] when that allocation size is 0 -- for
    an unsized type, and for a sized type to which the data layout gives the
    size 0 -- and the allocation size the data layout gives for the type of
    the stored value otherwise. *)
Theorem createStore_def_size Inst op0_ty op1 pts s node s' :
  getPointsTo PTA op1 = Some pts ->
  createStore UNKNOWN_OFFSET DL PTA Inst op0_ty op1 s = Ok node s' ->
  getAllocatedSize DL op0_ty
  = (if isSized op0_ty then getTypeAllocSize DL op0_ty else 0%N)
  /\ exists added,
       defs s' = defs s ++ added
       /\ forall n d, (n, d) ∈ added ->
            (isSized op0_ty = false -> ds_len d = UNKNOWN_OFFSET)
            /\ (isSized op0_ty = true -> getTypeAllocSize DL op0_ty = 0%N ->
                ds_len d = UNKNOWN_OFFSET)
            /\ (isSized op0_ty = true -> getTypeAllocSize DL op0_ty <> 0%N ->
                ds_len d = getTypeAllocSize DL op0_ty).
Proof.
  intros Hpts Hrun.
  split; [unfold getAllocatedSize; by destruct (isSized op0_ty)|].
  destruct (createStore_adds _ _ _ _ _ _ _ Hpts Hrun) as (_ & added & Hd & Hf).
  exists added. split; [done|]. intros n d Hin.
  rewrite Forall_forall in Hf. destruct (Hf _ Hin) as (_ & Hlen & _).
  simpl in Hlen. rewrite Hlen. unfold store_size, getAllocatedSize.
  split; [|split].
  - by intros ->.
  - by intros -> ->.
  - intros -> Hnz. simpl. by rewrite (proj2 (N.eqb_neq _ _) Hnz).
Qed.

Lemma createStore_loop_nodes_map op0_ty node npts l s s' :
  for_each l (createStore_ptr UNKNOWN_OFFSET DL op0_ty node npts) s = Ok tt s' ->
  nodes_map s' = nodes_map s /\ subgraphs_map s' = subgraphs_map s
  /\ edges s' = edges s /\ arena s' = arena s.
Proof.
  intros Hloop.
  eapply (for_each_preserves (adds_defs node _)) in Hloop;
    [|apply adds_defs_refl|apply adds_defs_trans
     |intros; by eapply createStore_ptr_adds].
  destruct Hloop as (? & ? & ? & ? & ? & _). done.
Qed.

Lemma for_each_app {A} (body : A -> M unit) l1 l2 s s1 :
  for_each l1 body s = Ok tt s1 ->
  for_each (l1 ++ l2) body s = for_each l2 body s1.
Proof.
  revert s. induction l1 as [|x l1 IH]; intros s; simpl.
  - by intros [= ->].
  - intros ([] & s' & H1 & H2)%bind_Ok. unfold bind at 1. rewrite H1. by apply IH.
Qed.

Lemma for_each_app_Ok {A} (body : A -> M unit) l1 l2 s s' :
  for_each (l1 ++ l2) body s = Ok tt s' ->
  exists s1, for_each l1 body s = Ok tt s1 /\ for_each l2 body s1 = Ok tt s'.
Proof.
  revert s. induction l1 as [|x l1 IH]; intros s; simpl.
  - intros H. by exists s.
  - intros ([] & s0 & H0 & H)%bind_Ok.
    destruct (IH _ H) as (s1 & H1 & H2).
    exists s1. unfold bind. by rewrite H0.
Qed.

(** C9, at the defect. In the loop of [createStore], a pointer that is not
    null and whose target has no node in [nodes_map] is meant to be logged
    and skipped.  It is, when the target carries an IR value [v]: the builder
    writes the two diagnostics and goes on with the pointers that follow,
    from a state in which the def-sites recorded before it (and all nodes,
    edges and maps) are as they were.  But when the target carries no value
    -- as unknown memory, which is not the null pointer -- the look-up gives
    no node either, and the first diagnostic prints the value behind a null
    pointer: the loop dereferences null, and [createStore] on a points-to
    set that holds such a pointer never returns its node. *)
Theorem createStore_skips_missing_node op0_ty node npts before ptr after s s1 :
  isNull ptr = false ->
  for_each before (createStore_ptr UNKNOWN_OFFSET DL op0_ty node npts) s = Ok tt s1 ->
  (forall v,
     getUserData (target ptr) = Some v ->
     nodes_map s !! v = None ->
     let s2 := logged [PrintValue v;
                       Message "Don't have created node for pointer's target"]
                 s1 in
     createStore_ptr UNKNOWN_OFFSET DL op0_ty node npts ptr s1 = Ok tt s2
     /\ for_each (before ++ ptr :: after)
          (createStore_ptr UNKNOWN_OFFSET DL op0_ty node npts) s
        = for_each after (createStore_ptr UNKNOWN_OFFSET DL op0_ty node npts) s2
     /\ defs s2 = defs s1)
  /\ (getUserData (target ptr) = None ->
      createStore_ptr UNKNOWN_OFFSET DL op0_ty node npts ptr s1
      = Fail NullDereference
      /\ for_each (before ++ ptr :: after)
           (createStore_ptr UNKNOWN_OFFSET DL op0_ty node npts) s
         = Fail NullDereference
      /\ forall Inst ty op1 pts s0 r s',
           getPointsTo PTA op1 = Some pts ->
           pointsTo pts = before ++ ptr :: after ->
           createStore UNKNOWN_OFFSET DL PTA Inst ty op1 s0 <> Ok r s')
  /\ (forall off,
        isNull (mkPointer UNKNOWN_MEMORY off) = false
        /\ getUserData (target (mkPointer UNKNOWN_MEMORY off)) = None).
Proof.
  intros Hnull Hbefore. split; [|split; [|done]].
  - intros v Hud Hmiss s2.
    destruct (createStore_loop_nodes_map _ _ _ _ _ _ Hbefore) as (Hnm & _).
    assert (createStore_ptr UNKNOWN_OFFSET DL op0_ty node npts ptr s1 = Ok tt s2)
      as Hptr.
    { unfold createStore_ptr. rewrite Hnull, Hud. unfold bind, get_node.
      rewrite Hnm, Hmiss. done. }
    split; [done|]. split; [|done].
    rewrite (for_each_app _ _ _ _ _ Hbefore). simpl. unfold bind at 1.
    by rewrite Hptr.
  - intros Hud.
    assert (forall ty' node' npts' t,
              createStore_ptr UNKNOWN_OFFSET DL ty' node' npts' ptr t
              = Fail NullDereference) as Hptr.
    { intros. unfold createStore_ptr. by rewrite Hnull, Hud. }
    split; [apply Hptr|]. split.
    + rewrite (for_each_app _ _ _ _ _ Hbefore). simpl. unfold bind at 1.
      by rewrite Hptr.
    + intros Inst ty op1 pts s0 r s' Hpts Hset. unfold createStore.
      rewrite Hpts.
      intros (n & t1 & _ & ([] & t2 & _ & H)%bind_Ok)%bind_Ok.
      apply bind_Ok in H as ([] & t3 & Hloop & _).
      rewrite Hset in Hloop.
      apply for_each_app_Ok in Hloop as (t4 & _ & Hrest).
      simpl in Hrest. apply bind_Ok in Hrest as (u & t5 & Hfail & _).
      by rewrite Hptr in Hfail.
Qed.

(** ** [createCall] *)

Lemma strcmp_eq_trans_false a b c :
  strcmp_eq a b = true -> String.eqb (c_str b) (c_str c) = false ->
  strcmp_eq a c = false.
Proof.
  unfold strcmp_eq. intros ->%String.eqb_eq. done.
Qed.

Lemma getMemAllocationFunc_allocator func s :
  recognized_allocator func = true ->
  exists type, getMemAllocationFunc (Some func) s = Ok type s
               /\ MemAllocationFuncs_nonzero type = true.
Proof.
  unfold recognized_allocator, named, getMemAllocationFunc.
  destruct (f_name func) as [name|]; [|done].
  destruct (strcmp_eq name "malloc"); [by exists MALLOC|].
  destruct (strcmp_eq name "calloc"); [by exists CALLOC|].
  destruct (strcmp_eq name "alloca"); [by exists ALLOCA|done].
Qed.

Lemma getMemAllocationFunc_other func s :
  named func "realloc" = false ->
  exists type, getMemAllocationFunc (Some func) s = Ok type s.
Proof.
  unfold named, getMemAllocationFunc.
  destruct (f_name func) as [name|]; [|by exists NONEMEM].
  destruct (strcmp_eq name "malloc"); [by exists MALLOC|].
  destruct (strcmp_eq name "calloc"); [by exists CALLOC|].
  destruct (strcmp_eq name "alloca"); [by exists ALLOCA|].
  intros ->. by exists NONEMEM.
Qed.

(** C8, as the code has it. A direct call whose callee is a recognized
    allocator ([malloc], [calloc], [alloca]), or has an empty body and is not
    named [realloc], makes [createCall] allocate exactly one node [n],
    register it for the call, and return [(n, n)]; no edge is added and
    [subgraphs_map] is untouched, and [buildFunction] is not called. *)
Theorem createCall_allocation buildFunction_rec CInst calledValue func s :
  dyn_cast_Function Mod (stripPointerCasts Mod calledValue) = Some func ->
  recognized_allocator func = true
  \/ (length (f_blocks func) = 0 /\ named func "realloc" = false) ->
  createCall Mod PTA buildFunction_rec CInst calledValue s
  = Ok (arena s, arena s)
       {| arena := S (arena s); edges := edges s; defs := defs s;
          nodes_map := <[CInst := arena s]> (nodes_map s);
          mapping := mapping s; subgraphs_map := subgraphs_map s;
          errs := errs s |}.
Proof.
  intros Hfunc Hcallee. unfold createCall. rewrite Hfunc.
  destruct Hcallee as [Halloc|[Hempty Hname]].
  - destruct (getMemAllocationFunc_allocator func s Halloc) as (type & Ht & Hnz).
    unfold bind at 1. rewrite Ht, Hnz. done.
  - destruct (getMemAllocationFunc_other func s Hname) as (type & Ht).
    unfold bind at 1. rewrite Ht, Hempty, orb_true_r. done.
Qed.

(** C2, at the defect. In the fan-out of an indirect call a null pointer is
    skipped, but a pointer to unknown memory is not: its target's user data,
    which is null, is taken for the callee, and [createCallToFunction]
    dereferences it.  So a call whose callee may be unknown memory, among
    others, never yields its pair of nodes. *)
Theorem createCall_fanout_unknown_pointer
    buildFunction_rec CInst calledValue op before off after s :
  dyn_cast_Function Mod (stripPointerCasts Mod calledValue) = None ->
  getPointsTo PTA (stripPointerCasts Mod calledValue) = Some op ->
  pointsTo op = before ++ mkPointer UNKNOWN_MEMORY off :: after ->
  1 < length (pointsTo op) ->
  (forall call_funcptr ret_call s1,
     createCall_ptr Mod buildFunction_rec CInst call_funcptr ret_call
       (mkPointer NULLPTR off) s1 = Ok tt s1)
  /\ (forall call_funcptr ret_call s1,
        createCall_ptr Mod buildFunction_rec CInst call_funcptr ret_call
          (mkPointer UNKNOWN_MEMORY off) s1 = Fail NullDereference)
  /\ forall r s',
       createCall Mod PTA buildFunction_rec CInst calledValue s <> Ok r s'.
Proof.
  intros Hfunc Hop Hpts Hlen.
  split; [reflexivity|]. split; [reflexivity|].
  intros r s'. unfold createCall. rewrite Hfunc, Hop.
  apply Nat.ltb_lt in Hlen. rewrite Hlen.
  intros (_ & s1 & _ & (call_funcptr & s2 & _ & H)%bind_Ok)%bind_Ok.
  apply bind_Ok in H as (ret_call & s3 & _ & H).
  apply bind_Ok in H as (_ & s4 & _ & H).
  apply bind_Ok in H as ([] & s5 & Hloop & _).
  rewrite Hpts in Hloop.
  apply for_each_app_Ok in Hloop as (s6 & _ & Hrest).
  simpl in Hrest. apply bind_Ok in Hrest as (u & s7 & Hunknown & _).
  discriminate Hunknown.
Qed.

(** C10. An indirect call whose callee has a points-to set of one pointer is
    the call [createCallToFunction] makes to the function in the user data of
    that pointer's target, whatever the pointer is; [isNull] is not
    consulted.  For the null pointer, which the fan-out skips, this
    dereferences a null function. *)
Theorem createCall_singleton_unchecked
    buildFunction_rec CInst calledValue op ptr s :
  dyn_cast_Function Mod (stripPointerCasts Mod calledValue) = None ->
  getPointsTo PTA (stripPointerCasts Mod calledValue) = Some op ->
  pointsTo op = [ptr] ->
  createCall Mod PTA buildFunction_rec CInst calledValue s
  = createCallToFunction Mod buildFunction_rec CInst
      (getUserData (target ptr)) s
  /\ (target ptr = NULLPTR ->
      isNull ptr = true
      /\ createCall Mod PTA buildFunction_rec CInst
           calledValue s = Fail NullDereference).
Proof.
  intros Hfunc Hop Hpts.
  assert (createCall Mod PTA buildFunction_rec CInst calledValue s
          = createCallToFunction Mod buildFunction_rec CInst
              (getUserData (target ptr)) s) as Heq.
  { unfold createCall. rewrite Hfunc, Hop, Hpts. simpl.
    unfold bind at 1. simpl. unfold bind at 1. simpl.
    unfold bind at 1.
    by destruct (createCallToFunction _ _ _ _ _) as [[]|]. }
  split; [done|]. intros Ht. split; [unfold isNull; by rewrite Ht|].
  rewrite Heq, Ht. reflexivity.
Qed.

(** ** [buildBlock] and the stitching of blocks *)

Lemma buildBlock_inst_no_node buildFunction_rec node i s :
  emits_no_node i = true ->
  buildBlock_inst UNKNOWN_OFFSET Mod DL PTA buildFunction_rec node i s
  = Ok node
       {| arena := arena s; edges := edges s; defs := defs s;
          nodes_map := nodes_map s;
          mapping := <[inst_addr i := node]> (mapping s);
          subgraphs_map := subgraphs_map s; errs := errs s |}.
Proof.
  destruct i as [| | |a [] c|a]; try done; intros _;
    unfold buildBlock_inst, bind; simpl; by rewrite Nat.eqb_refl.
Qed.

Lemma buildBlock_insts_no_node buildFunction_rec node insts s :
  Forall (fun i => emits_no_node i = true) insts ->
  exists s',
    fold_each insts (buildBlock_inst UNKNOWN_OFFSET Mod DL PTA buildFunction_rec)
      node s = Ok node s'
    /\ arena s' = arena s /\ edges s' = edges s /\ defs s' = defs s
    /\ nodes_map s' = nodes_map s /\ subgraphs_map s' = subgraphs_map s.
Proof.
  intros Hall. revert s. induction Hall as [|i insts Hi _ IH]; intros s; simpl.
  - by exists s.
  - unfold bind at 1. rewrite (buildBlock_inst_no_node _ _ _ _ Hi).
    destruct (IH {| arena := arena s; edges := edges s; defs := defs s;
                    nodes_map := nodes_map s;
                    mapping := <[inst_addr i := node]> (mapping s);
                    subgraphs_map := subgraphs_map s; errs := errs s |})
      as (s' & Hrun & ?).
    exists s'. done.
Qed.

Lemma buildBlock_first buildFunction_rec block s r s' :
  buildBlock UNKNOWN_OFFSET Mod DL PTA buildFunction_rec block s = Ok r s' ->
  exists last, r = (Some (arena s), Some last).
Proof.
  unfold buildBlock.
  intros (n & s1 & [= <- <-] & (last & s2 & _ & [= <- _])%bind_Ok)%bind_Ok.
  by exists last.
Qed.

(** C1, as the code has it. [buildBlock] creates the dummy first node before
    it looks at any instruction, so a block never exports [(null, null)]:
    the pair is [(phi, last)] with [phi] the node created first, and for a
    block none of whose instructions emits a node it is [(phi, phi)], with
    that one node allocated and no edge.  The stitching therefore does not
    bypass such a block [B]: from a block [A] whose only successor is [B] it
    adds the single edge [last_A -> phi_B], and none to a successor of [B]. *)
Theorem buildBlock_never_exports_null :
  (forall buildFunction_rec block s r s',
     buildBlock UNKNOWN_OFFSET Mod DL PTA buildFunction_rec block s = Ok r s' ->
     exists last, r = (Some (arena s), Some last))
  /\ (forall buildFunction_rec block s,
        Forall (fun i => emits_no_node i = true) (bb_insts block) ->
        exists s',
          buildBlock UNKNOWN_OFFSET Mod DL PTA buildFunction_rec block s
          = Ok (Some (arena s), Some (arena s)) s'
          /\ arena s' = S (arena s) /\ edges s' = edges s /\ defs s' = defs s)
  /\ (forall fuel blocks built_blocks first_A last_A A B phi_B last_B s,
        bb_succs A = [B] ->
        built_blocks !! B = Some (Some phi_B, Some last_B) ->
        blockAddSuccessors (S fuel) blocks built_blocks
          (first_A, Some last_A) A s
        = Ok 1 (with_edge last_A phi_B s)).
Proof.
  split; [|split].
  - intros rec block s r s'. apply buildBlock_first.
  - intros rec block s Hall. unfold buildBlock. unfold bind at 1. simpl.
    destruct (buildBlock_insts_no_node rec (arena s) _
                {| arena := S (arena s); edges := edges s; defs := defs s;
                   nodes_map := nodes_map s; mapping := mapping s;
                   subgraphs_map := subgraphs_map s; errs := errs s |} Hall)
      as (s' & Hrun & Ha & He & Hd & _).
    exists s'. unfold bind. rewrite Hrun. done.
  - intros fuel blocks built first_A last_A A B phi_B last_B s HA HB.
    simpl. rewrite HA. simpl. unfold bind at 1. rewrite HB. simpl. done.
Qed.

(** ** Recursion: [buildFunction] and [createCallToFunction] *)

Lemma stable_refl s : stable s s.
Proof. by intros F sg. Qed.

Lemma stable_trans s1 s2 s3 : stable s1 s2 -> stable s2 s3 -> stable s1 s3.
Proof. intros H1 H2 F sg Hsg Hroot. apply H2; [|done]. by apply H1. Qed.

Lemma stable_same s s' : subgraphs_map s' = subgraphs_map s -> stable s s'.
Proof. intros E F sg. by rewrite E. Qed.

Lemma stable_built s s' F : stable s s' -> built s F = true -> built s' F = true.
Proof.
  unfold built. intros Hst.
  destruct (subgraphs_map s !! F) as [sg|] eqn:E; [|done].
  intros Hroot%bool_decide_eq_true.
  by rewrite (Hst F sg E Hroot), bool_decide_eq_true.
Qed.

Lemma filter_length_le {A} (P Q : A -> Prop)
    `{forall x, Decision (P x)} `{forall x, Decision (Q x)} (l : list A) :
  (forall x, x ∈ l -> P x -> Q x) ->
  length (filter P l) <= length (filter Q l).
Proof.
  induction l as [|x l IH]; intros Himp; [done|].
  rewrite !filter_cons.
  assert (length (filter P l) <= length (filter Q l)) as Hle
    by (apply IH; intros y Hy; apply Himp; by right).
  destruct (decide (P x)) as [HP|HP].
  - rewrite decide_True by (apply Himp; [left|done]). simpl. lia.
  - destruct (decide (Q x)); simpl; lia.
Qed.

Lemma filter_length_lt {A} (P Q : A -> Prop)
    `{forall x, Decision (P x)} `{forall x, Decision (Q x)} (l : list A) x :
  (forall y, y ∈ l -> P y -> Q y) ->
  x ∈ l -> Q x -> ~ P x ->
  length (filter P l) < length (filter Q l).
Proof.
  induction l as [|y l IH]; intros Himp Hx HQ HP; [by apply elem_of_nil in Hx|].
  rewrite !filter_cons.
  assert (forall z, z ∈ l -> P z -> Q z) as Himp'
    by (intros z Hz; apply Himp; by right).
  pose proof (filter_length_le P Q l Himp') as Hle.
  apply elem_of_cons in Hx as [<-|Hx].
  - rewrite decide_False, decide_True by done. simpl. lia.
  - specialize (IH Himp' Hx HQ HP).
    destruct (decide (P y)) as [HPy|HPy].
    + rewrite decide_True by (apply Himp; [left|done]). simpl. lia.
    + destruct (decide (Q y)); simpl; lia.
Qed.

Lemma unbuilt_stable s s' : stable s s' -> unbuilt Mod s' <= unbuilt Mod s.
Proof.
  intros Hst. apply filter_length_le. intros f _ Hf.
  destruct (built s (f_addr f)) eqn:E; [|done].
  by rewrite (stable_built _ _ _ Hst E) in Hf.
Qed.

Lemma unbuilt_decreases s s' Fn :
  stable s s' -> Fn ∈ functions Mod ->
  built s (f_addr Fn) = false -> built s' (f_addr Fn) = true ->
  unbuilt Mod s' < unbuilt Mod s.
Proof.
  intros Hst Hin Hs Hs'. apply (filter_length_lt _ _ _ Fn); [|done|done|].
  - intros f _ Hf. destruct (built s (f_addr f)) eqn:E; [|done].
    by rewrite (stable_built _ _ _ Hst E) in Hf.
  - by rewrite Hs'.
Qed.

Lemma dyn_cast_Function_Some a Fn :
  dyn_cast_Function Mod a = Some Fn -> Fn ∈ functions Mod /\ f_addr Fn = a.
Proof.
  unfold dyn_cast_Function. intros [Hin Heq]%find_some.
  split; [by apply list_elem_of_In|by apply Nat.eqb_eq].
Qed.

Lemma quiet_ret {A} (a : A) : quiet (ret a).
Proof. intros s. split; [done|]. by intros a' s' [= _ <-]. Qed.

Lemma quiet_fail {A} e : e <> OutOfFuel -> quiet (@fail A e).
Proof. intros He s. split; [|done]. unfold fail. congruence. Qed.

Lemma quiet_bind {A B} (m : M A) (k : A -> M B) :
  quiet m -> (forall a, quiet (k a)) -> quiet (bind m k).
Proof.
  intros Hm Hk s. destruct (Hm s) as [Hm1 Hm2]. unfold bind.
  destruct (m s) as [a s1|e]; [|split; [congruence|done]].
  destruct (Hk a s1) as [Hk1 Hk2]. split; [done|].
  intros b s' Hb. rewrite (Hk2 _ _ Hb). by eapply Hm2.
Qed.

Lemma quiet_for_each {A} (body : A -> M unit) l :
  (forall x, quiet (body x)) -> quiet (for_each l body).
Proof.
  intros Hbody. induction l as [|x l IH]; simpl.
  - apply quiet_ret.
  - apply quiet_bind; [apply Hbody|by intros _].
Qed.

Lemma quiet_fold_each {A S} (body : S -> A -> M S) l acc :
  (forall acc x, quiet (body acc x)) -> quiet (fold_each l body acc).
Proof.
  intros Hbody. revert acc. induction l as [|x l IH]; intros acc; simpl.
  - apply quiet_ret.
  - apply quiet_bind; [apply Hbody|apply IH].
Qed.

Lemma quiet_prim {A} (m : M A) :
  (forall s, exists a s', m s = Ok a s' /\ subgraphs_map s' = subgraphs_map s) ->
  quiet m.
Proof.
  intros H s. destruct (H s) as (a & s' & E & Hs). rewrite E.
  split; [done|]. by intros ? ? [= _ <-].
Qed.

Lemma quiet_new_RDNode : quiet new_RDNode.
Proof. apply quiet_prim. intros s. by eexists _, _. Qed.
Lemma quiet_addSuccessor a b : quiet (addSuccessor a b).
Proof. apply quiet_prim. intros s. by eexists _, _. Qed.
Lemma quiet_addDef a b c d e : quiet (addDef a b c d e).
Proof. apply quiet_prim. intros s. by eexists _, _. Qed.
Lemma quiet_addNode a b : quiet (addNode a b).
Proof. apply quiet_prim. intros s. by eexists _, _. Qed.
Lemma quiet_set_mapping a b : quiet (set_mapping a b).
Proof. apply quiet_prim. intros s. by eexists _, _. Qed.
Lemma quiet_log d : quiet (log d).
Proof. apply quiet_prim. intros s. by eexists _, _. Qed.
Lemma quiet_get_node v : quiet (get_node v).
Proof. apply quiet_prim. intros s. by eexists _, _. Qed.
Lemma quiet_get_subgraph F : quiet (get_subgraph F).
Proof. apply quiet_prim. intros s. by eexists _, _. Qed.
Lemma quiet_successorsNum n : quiet (successorsNum n).
Proof. apply quiet_prim. intros s. by eexists _, _. Qed.

Lemma quiet_assert b msg : quiet (assert b msg).
Proof. destruct b; [apply quiet_ret|by apply quiet_fail]. Qed.

Lemma quiet_deref {A} (p : option A) : quiet (deref p).
Proof. destruct p; [apply quiet_ret|by apply quiet_fail]. Qed.

Create HintDb quiet.
#[local] Hint Resolve quiet_ret quiet_new_RDNode quiet_addSuccessor
  quiet_addDef quiet_addNode quiet_set_mapping quiet_log quiet_get_node
  quiet_get_subgraph quiet_successorsNum quiet_assert quiet_deref : quiet.
#[local] Hint Extern 1 (quiet (fail _)) => (apply quiet_fail; discriminate) : quiet.
#[local] Hint Extern 2 (quiet (bind _ _)) => (apply quiet_bind; [|intros ?]) : quiet.
#[local] Hint Extern 2 (quiet (for_each _ _)) => (apply quiet_for_each; intros ?) : quiet.

Lemma quiet_createAlloc Inst : quiet (createAlloc Inst).
Proof. unfold createAlloc. auto 10 with quiet. Qed.

Lemma quiet_createStore_ptr op0_ty node npts ptr :
  quiet (createStore_ptr UNKNOWN_OFFSET DL op0_ty node npts ptr).
Proof.
  unfold createStore_ptr. destruct (isNull ptr); [auto with quiet|].
  destruct (getUserData (target ptr)); [|auto with quiet].
  apply quiet_bind; [auto with quiet|]. intros [pn|]; auto with quiet.
Qed.

Lemma quiet_createStore Inst op0_ty op1 :
  quiet (createStore UNKNOWN_OFFSET DL PTA Inst op0_ty op1).
Proof.
  unfold createStore.
  apply quiet_bind; [auto with quiet|]. intros node.
  apply quiet_bind; [auto with quiet|]. intros _.
  destruct (getPointsTo PTA op1); [|auto with quiet].
  apply quiet_bind; [|auto with quiet].
  apply quiet_for_each. intros ptr. apply quiet_createStore_ptr.
Qed.

Lemma quiet_getMemAllocationFunc func : quiet (getMemAllocationFunc func).
Proof.
  unfold getMemAllocationFunc. destruct func as [f|]; [|auto with quiet].
  destruct (f_name f) as [name|]; [|auto with quiet].
  repeat (match goal with |- quiet (if ?b then _ else _) => destruct b end);
    auto with quiet.
Qed.

#[local] Hint Resolve quiet_createAlloc quiet_createStore
  quiet_getMemAllocationFunc : quiet.

Lemma quiet_at {A} k (m : M A) s : quiet m -> bounded_at k m s.
Proof.
  intros Hm. destruct (Hm s) as [H1 H2]. split; [done|].
  intros a s' E. apply stable_same. by eapply H2.
Qed.

Lemma quiet_bounded {A} k (m : M A) : quiet m -> bounded k m.
Proof. intros Hm s. by apply quiet_at. Qed.

Lemma bounded_at_bind {A B} k (m : M A) (f : A -> M B) s :
  bounded_at k m s ->
  (forall a s1, m s = Ok a s1 -> bounded_at k (f a) s1) ->
  bounded_at k (bind m f) s.
Proof.
  intros [Hm1 Hm2] Hf. unfold bounded_at, bind.
  destruct (m s) as [a s1|e].
  - destruct (Hf a s1 eq_refl) as [Hf1 Hf2].
    pose proof (unbuilt_stable _ _ (Hm2 _ _ eq_refl)).
    split; [intros Hk; apply Hf1; lia|].
    intros b s' Hb. eapply stable_trans; [by eapply Hm2|by eapply Hf2].
  - split; [|done]. intros Hk E. apply (Hm1 Hk). congruence.
Qed.

Lemma bounded_bind_post {A B} k (m : M A) (f : A -> M B) (Q : A -> Prop) :
  bounded k m ->
  (forall s a s', m s = Ok a s' -> Q a) ->
  (forall a, Q a -> bounded k (f a)) ->
  bounded k (bind m f).
Proof.
  intros Hm HQ Hf s. apply bounded_at_bind; [by apply Hm|].
  intros a s1 E. apply Hf. by eapply HQ.
Qed.

Lemma bounded_bind {A B} k (m : M A) (f : A -> M B) :
  bounded k m -> (forall a, bounded k (f a)) -> bounded k (bind m f).
Proof.
  intros Hm Hf. apply (bounded_bind_post k m f (fun _ => True)); auto.
Qed.

Lemma bounded_for_each {A} k (body : A -> M unit) l :
  (forall x, bounded k (body x)) -> bounded k (for_each l body).
Proof.
  intros Hbody. induction l as [|x l IH]; simpl.
  - apply quiet_bounded, quiet_ret.
  - apply bounded_bind; [apply Hbody|by intros _].
Qed.

Lemma bounded_fold_each {A S} k (body : S -> A -> M S) l acc :
  (forall acc x, bounded k (body acc x)) -> bounded k (fold_each l body acc).
Proof.
  intros Hbody. revert acc. induction l as [|x l IH]; intros acc; simpl.
  - apply quiet_bounded, quiet_ret.
  - apply bounded_bind; [apply Hbody|apply IH].
Qed.

Lemma built_false_root s a :
  sg_root (default no_Subgraph (subgraphs_map s !! a)) = None ->
  built s a = false.
Proof.
  unfold built. destruct (subgraphs_map s !! a) as [sg|]; [|done].
  simpl. intros ->. apply bool_decide_eq_false. by intros [? ?].
Qed.

Section recursion.

Variable k : nat.
Variable rec : Function -> M RDNode.
Hypothesis Hrec : rec_bounded k rec.

Lemma bounded_call_buildFunction F s :
  (forall a, F = Some a -> built s a = false) ->
  bounded_at k (call_buildFunction Mod rec F) s.
Proof.
  intros Hunbuilt. unfold call_buildFunction, bounded_at.
  destruct F as [a|]; [|done].
  destruct (dyn_cast_Function Mod a) as [Fn|] eqn:E; [|done].
  apply dyn_cast_Function_Some in E as [Hin <-].
  destruct (Hrec Fn s Hin (Hunbuilt _ eq_refl)) as [H1 H2].
  split; [done|]. intros r s' Hr. by destruct (H2 r s' Hr).
Qed.

Lemma bounded_createCallToFunction CInst F :
  bounded k (createCallToFunction Mod rec CInst F).
Proof.
  unfold createCallToFunction.
  apply bounded_bind; [apply quiet_bounded; auto with quiet|]. intros returnNode.
  apply bounded_bind; [apply quiet_bounded; auto with quiet|]. intros callNode.
  intros s.
  apply bounded_at_bind; [apply quiet_at; auto with quiet|].
  intros subg s1 [= <- <-].
  destruct (sg_root _) as [r|] eqn:Eroot.
  - apply quiet_at. auto 10 with quiet.
  - apply bounded_at_bind.
    + apply bounded_at_bind.
      * apply bounded_call_buildFunction.
        intros a ->. by apply built_false_root.
      * intros _ s1 _. apply quiet_at. auto with quiet.
    + intros subg s1 _. apply quiet_at. auto 10 with quiet.
Qed.

Lemma bounded_createCall_ptr CInst call_funcptr ret_call ptr :
  bounded k (createCall_ptr Mod rec CInst call_funcptr ret_call ptr).
Proof.
  unfold createCall_ptr. destruct (isNull ptr).
  - apply quiet_bounded. auto with quiet.
  - apply bounded_bind; [apply bounded_createCallToFunction|].
    intros cf. apply quiet_bounded. auto with quiet.
Qed.

Lemma bounded_createCall CInst calledValue :
  bounded k (createCall Mod PTA rec CInst calledValue).
Proof.
  unfold createCall.
  destruct (dyn_cast_Function Mod _) as [func|].
  - apply bounded_bind; [apply quiet_bounded; auto with quiet|]. intros type.
    destruct (_ || _); [apply quiet_bounded; auto with quiet|].
    destruct (isIntrinsic func); [apply quiet_bounded; auto with quiet|].
    apply bounded_bind; [apply bounded_createCallToFunction|].
    intros cf. apply quiet_bounded. auto with quiet.
  - destruct (getPointsTo PTA _) as [op|]; [|apply quiet_bounded; auto with quiet].
    apply bounded_bind; [apply quiet_bounded; auto with quiet|]. intros _.
    destruct (1 <? length (pointsTo op)).
    + apply bounded_bind; [apply quiet_bounded; auto with quiet|].
      intros call_funcptr.
      apply bounded_bind; [apply quiet_bounded; auto with quiet|].
      intros ret_call.
      apply bounded_bind; [apply quiet_bounded; auto with quiet|]. intros _.
      apply bounded_bind; [|intros _; apply quiet_bounded; auto with quiet].
      apply bounded_for_each. intros ptr. apply bounded_createCall_ptr.
    + apply bounded_bind; [apply quiet_bounded; auto with quiet|]. intros ptr.
      apply bounded_bind; [apply bounded_createCallToFunction|].
      intros cf. apply quiet_bounded. auto with quiet.
Qed.

Lemma bounded_buildBlock_inst node i :
  bounded k (buildBlock_inst UNKNOWN_OFFSET Mod DL PTA rec node i).
Proof.
  unfold buildBlock_inst.
  apply bounded_bind; [apply quiet_bounded; auto with quiet|]. intros _.
  apply bounded_bind.
  - destruct i as [a|a ty op1|a|a [] called|a];
      try (apply quiet_bounded; solve [auto 10 with quiet]).
    apply bounded_bind; [apply bounded_createCall|].
    intros subg. apply quiet_bounded. auto with quiet.
  - intros [prev_node node']. apply quiet_bounded.
    apply quiet_bind; [|auto with quiet].
    destruct (negb _); auto with quiet.
Qed.

Lemma bounded_buildBlock block :
  bounded k (buildBlock UNKNOWN_OFFSET Mod DL PTA rec block).
Proof.
  unfold buildBlock.
  apply bounded_bind; [apply quiet_bounded; auto with quiet|]. intros node.
  apply bounded_bind; [|intros ?; apply quiet_bounded; auto with quiet].
  apply bounded_fold_each. intros acc i. apply bounded_buildBlock_inst.
Qed.

Lemma bounded_buildFunction_block acc block :
  bounded k (buildFunction_block UNKNOWN_OFFSET Mod DL PTA rec acc block).
Proof.
  unfold buildFunction_block. destruct acc as [built_blocks first].
  apply bounded_bind; [apply bounded_buildBlock|]. intros nds.
  apply quiet_bounded.
  apply quiet_bind; [auto with quiet|]. intros _.
  destruct (fst nds); auto with quiet.
Qed.

Lemma buildFunction_blocks_cover l acc acc' s s' :
  fold_each l (buildFunction_block UNKNOWN_OFFSET Mod DL PTA rec) acc s
  = Ok acc' s' ->
  (forall a p q, fst acc !! a = Some (Some p, q) ->
                 exists p' q', fst acc' !! a = Some (Some p', q'))
  /\ covers (fst acc') l.
Proof.
  revert acc s. induction l as [|b l IH]; intros acc s; simpl.
  - intros [= <- _]. split; [eauto|]. intros b Hb. by apply elem_of_nil in Hb.
  - intros (acc1 & s1 & Hb & Hl)%bind_Ok.
    destruct (IH _ _ Hl) as [Hkeep Hcov].
    assert (forall a p q, fst acc !! a = Some (Some p, q) ->
                          exists p' q', fst acc1 !! a = Some (Some p', q'))
      as Hkeep1.
    { unfold buildFunction_block in Hb. destruct acc as [built first].
      apply bind_Ok in Hb as (nds & s2 & Hnds & (_ & s3 & _ & Hb)%bind_Ok).
      destruct (buildBlock_first _ _ _ _ _ Hnds) as (last & ->).
      simpl in Hb. injection Hb as <- _. simpl. intros a p q Ha.
      destruct (decide (bb_addr b = a)) as [->|Hne].
      - rewrite lookup_insert_eq. eauto.
      - rewrite lookup_insert_ne by done. eauto. }
    assert (exists p q, fst acc1 !! bb_addr b = Some (Some p, q)) as (p & q & Hb1).
    { unfold buildFunction_block in Hb. destruct acc as [built first].
      apply bind_Ok in Hb as (nds & s2 & Hnds & (_ & s3 & _ & Hb)%bind_Ok).
      destruct (buildBlock_first _ _ _ _ _ Hnds) as (last & ->).
      simpl in Hb. injection Hb as <- _. simpl.
      rewrite lookup_insert_eq. eauto. }
    split.
    + intros a p' q' Ha. destruct (Hkeep1 _ _ _ Ha) as (p1 & q1 & H1). eauto.
    + intros b' [->|Hb']%elem_of_cons; [eauto|by apply Hcov].
Qed.

Lemma quiet_blockAddSuccessors fuel blocks built_blocks pssn block :
  covers built_blocks blocks ->
  quiet (blockAddSuccessors (S fuel) blocks built_blocks pssn block).
Proof.
  intros Hcov. simpl. apply quiet_fold_each. intros num S_.
  apply quiet_bind; [auto with quiet|]. intros _.
  destruct (fst (default (None, None) (built_blocks !! S_))) eqn:Efirst;
    [auto 10 with quiet|].
  destruct (find _ blocks) as [succ_block|] eqn:Efind; [|auto with quiet].
  apply find_some in Efind as [Hin Haddr%Nat.eqb_eq].
  apply list_elem_of_In in Hin. destruct (Hcov _ Hin) as (p & q & Hb).
  rewrite Haddr in Hb. by rewrite Hb in Efirst.
Qed.

Lemma quiet_buildFunction_succs fuel blocks built_blocks rets block :
  covers built_blocks blocks ->
  quiet (buildFunction_succs (S fuel) blocks built_blocks rets block).
Proof.
  intros Hcov. unfold buildFunction_succs.
  destruct (built_blocks !! bb_addr block) as [pssn|]; [|auto with quiet].
  apply quiet_bind; [auto with quiet|]. intros _.
  destruct (fst pssn); [|auto with quiet].
  apply quiet_bind; [by apply quiet_blockAddSuccessors|].
  intros succ_num. destruct (succ_num =? 0); auto with quiet.
Qed.

Lemma bounded_buildFunction_graph fuel F root ret_ :
  bounded k (buildFunction_graph UNKNOWN_OFFSET Mod DL PTA rec (S fuel) F
               root ret_).
Proof.
  unfold buildFunction_graph.
  apply (bounded_bind_post _ _ _ (fun acc => covers (fst acc) (f_blocks F))).
  - apply bounded_fold_each. intros acc b. apply bounded_buildFunction_block.
  - intros s acc s' Hrun. by destruct (buildFunction_blocks_cover _ _ _ _ _ Hrun).
  - intros [built_blocks first] Hcov. simpl in Hcov. apply quiet_bounded.
    apply quiet_bind; [auto with quiet|]. intros _.
    apply quiet_bind; [auto with quiet|]. intros first'.
    apply quiet_bind; [auto with quiet|]. intros _.
    apply quiet_bind.
    + apply quiet_fold_each. intros rets b.
      by apply quiet_buildFunction_succs.
    + intros rets. auto 10 with quiet.
Qed.

End recursion.

(** ** Success on well-formed modules *)

Lemma records_complete_same s s' :
  subgraphs_map s' = subgraphs_map s -> records_complete s -> records_complete s'.
Proof. intros E H F sg. rewrite E. apply H. Qed.

Lemma total_ret {A} (a : A) : total (ret a).
Proof. intros s. by exists a, s. Qed.

Lemma total_bind {A B} (m : M A) (f : A -> M B) :
  total m -> (forall a, total (f a)) -> total (bind m f).
Proof.
  intros Hm Hf s. destruct (Hm s) as (a & s1 & E1 & H1).
  destruct (Hf a s1) as (b & s2 & E2 & H2).
  exists b, s2. unfold bind. rewrite E1. split; [done|congruence].
Qed.

Lemma total_for_each {A} (body : A -> M unit) l :
  Forall (fun x => total (body x)) l -> total (for_each l body).
Proof.
  induction 1 as [|x l Hx _ IH]; simpl; [apply total_ret|].
  apply total_bind; [done|by intros _].
Qed.

Lemma total_new_RDNode : total new_RDNode.
Proof. intros s. by eexists _, _. Qed.
Lemma total_addSuccessor a b : total (addSuccessor a b).
Proof. intros s. by eexists _, _. Qed.
Lemma total_addDef a b c d e : total (addDef a b c d e).
Proof. intros s. by eexists _, _. Qed.
Lemma total_addNode a b : total (addNode a b).
Proof. intros s. by eexists _, _. Qed.
Lemma total_set_mapping a b : total (set_mapping a b).
Proof. intros s. by eexists _, _. Qed.
Lemma total_log d : total (log d).
Proof. intros s. by eexists _, _. Qed.
Lemma total_get_node v : total (get_node v).
Proof. intros s. by eexists _, _. Qed.
Lemma total_assert msg : total (assert true msg).
Proof. apply total_ret. Qed.
Lemma total_deref {A} (a : A) : total (deref (Some a)).
Proof. apply total_ret. Qed.

Create HintDb total.
#[local] Hint Resolve total_ret total_new_RDNode total_addSuccessor
  total_addDef total_addNode total_set_mapping total_log total_get_node
  total_assert total_deref : total.
#[local] Hint Extern 2 (total (bind _ _)) => (apply total_bind; [|intros ?]) : total.

Lemma total_createAlloc Inst : total (createAlloc Inst).
Proof. unfold createAlloc. auto 10 with total. Qed.

Lemma total_createStore_ptr op0_ty node npts ptr :
  isNull ptr || bool_decide (is_Some (getUserData (target ptr))) = true ->
  total (createStore_ptr UNKNOWN_OFFSET DL op0_ty node npts ptr).
Proof.
  unfold createStore_ptr. destruct (isNull ptr); [auto with total|]. simpl.
  intros [v ->]%bool_decide_eq_true.
  apply total_bind; [auto with total|]. intros [pn|]; auto with total.
Qed.

Lemma total_createStore Inst op0_ty op1 :
  wf_inst Mod PTA (Store Inst op0_ty op1) = true ->
  total (createStore UNKNOWN_OFFSET DL PTA Inst op0_ty op1).
Proof.
  simpl. unfold createStore.
  destruct (getPointsTo PTA op1) as [pts|]; [|done].
  intros Hwf. rewrite forallb_forall in Hwf.
  apply total_bind; [auto with total|]. intros node.
  apply total_bind; [auto with total|]. intros _.
  apply total_bind; [|auto with total].
  apply total_for_each, Forall_forall. intros ptr Hptr.
  apply total_createStore_ptr, Hwf. by apply list_elem_of_In.
Qed.

Lemma total_succeeds {A} k (m : M A) : total m -> succeeds k m.
Proof.
  intros Hm s Hinv _. destruct (Hm s) as (a & s' & E & Hs).
  exists a, s'. split; [done|].
  split; [by apply stable_same|by eapply records_complete_same].
Qed.

Lemma succeeds_at_bind {A B} k (m : M A) (f : A -> M B) s :
  succeeds_at k m s ->
  (forall a s1, m s = Ok a s1 -> succeeds_at k (f a) s1) ->
  succeeds_at k (bind m f) s.
Proof.
  intros Hm Hf Hinv Hk. destruct (Hm Hinv Hk) as (a & s1 & E & Hst & Hinv1).
  pose proof (unbuilt_stable _ _ Hst).
  destruct (Hf a s1 E Hinv1) as (b & s' & E' & Hst' & Hinv'); [lia|].
  exists b, s'. unfold bind. rewrite E.
  split; [done|]. split; [by eapply stable_trans|done].
Qed.

Lemma succeeds_bind {A B} k (m : M A) (f : A -> M B) :
  succeeds k m -> (forall a, succeeds k (f a)) -> succeeds k (bind m f).
Proof. intros Hm Hf s. apply succeeds_at_bind; [apply Hm|]. intros. apply Hf. Qed.

Lemma succeeds_for_each {A} k (body : A -> M unit) l :
  Forall (fun x => succeeds k (body x)) l -> succeeds k (for_each l body).
Proof.
  induction 1 as [|x l Hx _ IH]; simpl.
  - apply total_succeeds, total_ret.
  - apply succeeds_bind; [done|by intros _].
Qed.

Lemma succeeds_fold_each {A S} k (body : S -> A -> M S) l acc :
  Forall (fun x => forall acc, succeeds k (body acc x)) l ->
  succeeds k (fold_each l body acc).
Proof.
  intros Hl. revert acc. induction Hl as [|x l Hx _ IH]; intros acc; simpl.
  - apply total_succeeds, total_ret.
  - apply succeeds_bind; [apply Hx|apply IH].
Qed.

(** The end of [createCallToFunction], once the subgraph is at hand. *)
Lemma total_call_edges callNode returnNode subg :
  is_Some (sg_root subg) -> is_Some (sg_ret subg) ->
  total (exec assert (bool_decide (is_Some (sg_root subg))
                      && bool_decide (is_Some (sg_ret subg)))
                "subg.root && subg.ret";
         do subg_root <- deref (sg_root subg);
         do subg_ret <- deref (sg_ret subg);
         exec addSuccessor callNode subg_root;
         exec addSuccessor subg_ret returnNode;
         ret (callNode, returnNode)).
Proof.
  intros [r Hr] [t Ht]. rewrite Hr, Ht.
  rewrite !bool_decide_eq_true_2 by (by eexists). simpl.
  auto 10 with total.
Qed.

Section success.

Variable k : nat.
Variable rec : Function -> M RDNode.
Hypothesis Hrec : rec_succeeds k rec.

Lemma succeeds_createCallToFunction CInst a Fn :
  dyn_cast_Function Mod a = Some Fn -> f_blocks Fn <> [] ->
  succeeds k (createCallToFunction Mod rec CInst (Some a)).
Proof.
  intros Hcast Hbody. unfold createCallToFunction.
  apply succeeds_bind; [apply total_succeeds; auto with total|]. intros returnNode.
  apply succeeds_bind; [apply total_succeeds; auto with total|]. intros callNode.
  intros s Hinv Hk. unfold bind at 1. simpl.
  destruct (sg_root (default no_Subgraph (subgraphs_map s !! a)))
    as [r|] eqn:Eroot.
  - destruct (subgraphs_map s !! a) as [sg|] eqn:Esg; [|done]. simpl in Eroot.
    assert (is_Some (sg_root sg)) as Hroot by (by eexists).
    assert (is_Some (sg_ret sg)) as Hret by (by eapply Hinv).
    unfold bind at 1. simpl.
    destruct (total_call_edges callNode returnNode sg Hroot Hret s)
      as (p & s' & E & Hs).
    exists p, s'. split; [exact E|].
    split; [by apply stable_same|by eapply records_complete_same].
  - pose proof (built_false_root _ _ Eroot) as Hun.
    pose proof Hcast as [Hin Haddr]%dyn_cast_Function_Some. subst a.
    destruct (Hrec Fn s Hin Hbody Hun Hinv Hk)
      as (r & s1 & Er & Hst & Hinv1 & Hbuilt).
    unfold bind at 1. unfold bind at 1. unfold call_buildFunction.
    rewrite Hcast, Er. simpl.
    unfold built in Hbuilt.
    destruct (subgraphs_map s1 !! f_addr Fn) as [sg|] eqn:Esg; [|done].
    apply bool_decide_eq_true in Hbuilt.
    assert (is_Some (sg_ret sg)) as Hret by (by eapply Hinv1).
    destruct (total_call_edges callNode returnNode sg Hbuilt Hret s1)
      as (p & s' & E & Hs).
    exists p, s'. simpl. split; [exact E|].
    split; [|by eapply records_complete_same].
    eapply stable_trans; [done|by apply stable_same].
Qed.

Lemma wf_callee_Some ptr :
  wf_callee Mod ptr = true ->
  exists a Fn, getUserData (target ptr) = Some a
               /\ dyn_cast_Function Mod a = Some Fn /\ f_blocks Fn <> [].
Proof.
  unfold wf_callee. destruct (getUserData (target ptr)) as [a|]; [|done].
  destruct (dyn_cast_Function Mod a) as [Fn|] eqn:E; [|done].
  intros H. exists a, Fn. split; [done|]. split; [done|].
  by destruct (f_blocks Fn).
Qed.

Lemma succeeds_createCall_ptr CInst call_funcptr ret_call ptr :
  isNull ptr || wf_callee Mod ptr = true ->
  succeeds k (createCall_ptr Mod rec CInst call_funcptr ret_call ptr).
Proof.
  unfold createCall_ptr. destruct (isNull ptr).
  - intros _. apply total_succeeds. auto with total.
  - simpl. intros (a & Fn & -> & Hcast & Hbody)%wf_callee_Some.
    apply succeeds_bind; [by eapply succeeds_createCallToFunction|].
    intros cf. apply total_succeeds. auto with total.
Qed.

Lemma succeeds_createCall CInst calledValue :
  wf_inst Mod PTA (Call CInst false calledValue) = true ->
  succeeds k (createCall Mod PTA rec CInst calledValue).
Proof.
  simpl. unfold createCall.
  destruct (dyn_cast_Function Mod _) as [func|] eqn:Ecast.
  - intros Hwf s.
    assert (exists type, getMemAllocationFunc (Some func) s = Ok type s
                         /\ (recognized_allocator func = true ->
                             MemAllocationFuncs_nonzero type = true))
      as (type & Etype & Hnz).
    { destruct (recognized_allocator func) eqn:Erec.
      - destruct (getMemAllocationFunc_allocator func s Erec) as (t & ? & ?).
        by exists t.
      - simpl in Hwf. apply andb_prop in Hwf as [Hname _].
        destruct (getMemAllocationFunc_other func s) as (t & ?);
          [by destruct (named func "realloc")|].
        by exists t. }
    apply succeeds_at_bind.
    { intros Hinv _. exists type, s. rewrite Etype.
      split; [done|]. split; [apply stable_refl|done]. }
    intros type' s1 E. rewrite Etype in E. injection E as <- <-.
    destruct (MemAllocationFuncs_nonzero type || (length (f_blocks func) =? 0))
      eqn:Ealloc; [apply total_succeeds; auto using total_createAlloc with total|].
    apply orb_false_elim in Ealloc as [Ent Esize].
    destruct (recognized_allocator func) eqn:Erec;
      [by rewrite Hnz in Ent|].
    simpl in Hwf. apply andb_prop in Hwf as [_ Hwf]. rewrite Esize in Hwf.
    simpl in Hwf. apply negb_true_iff in Hwf. rewrite Hwf.
    pose proof Ecast as [_ Haddr]%dyn_cast_Function_Some.
    apply succeeds_bind.
    + apply (succeeds_createCallToFunction _ _ func);
        [by rewrite Haddr|].
      apply Nat.eqb_neq in Esize. by destruct (f_blocks func).
    + intros cf. apply total_succeeds. auto with total.
  - destruct (getPointsTo PTA _) as [op|]; [|done].
    destruct (pointsTo op) as [|ptr [|ptr' ptrs]] eqn:Epts; [done| |].
    + intros (a & Fn & Hud & Hcast & Hbody)%wf_callee_Some. simpl.
      apply succeeds_bind; [apply total_succeeds; auto with total|]. intros _.
      intros s. apply succeeds_at_bind; [apply total_succeeds; auto with total|].
      intros begin s1 [= <- <-]. rewrite Hud.
      apply succeeds_bind; [by eapply succeeds_createCallToFunction|].
      intros cf. apply total_succeeds. auto with total.
    + intros Hwf.
      change (forallb (fun ptr => isNull ptr || wf_callee Mod ptr)
                (ptr :: ptr' :: ptrs) = true) in Hwf.
      rewrite forallb_forall in Hwf.
      apply succeeds_bind; [apply total_succeeds; auto with total|]. intros _.
      change (1 <? length (ptr :: ptr' :: ptrs)) with true. cbv iota.
      apply succeeds_bind; [apply total_succeeds; auto with total|].
      intros call_funcptr.
      apply succeeds_bind; [apply total_succeeds; auto with total|].
      intros ret_call.
      apply succeeds_bind; [apply total_succeeds; auto with total|]. intros _.
      apply succeeds_bind; [|intros _; apply total_succeeds; auto with total].
      apply succeeds_for_each, Forall_forall. intros p Hp.
      apply succeeds_createCall_ptr, Hwf. by apply list_elem_of_In.
Qed.

Lemma succeeds_buildBlock_inst node i :
  wf_inst Mod PTA i = true ->
  succeeds k (buildBlock_inst UNKNOWN_OFFSET Mod DL PTA rec node i).
Proof.
  intros Hwf. unfold buildBlock_inst.
  apply succeeds_bind; [apply total_succeeds; auto with total|]. intros _.
  apply succeeds_bind.
  - destruct i as [a|a ty op1|a|a [] called|a];
      try (apply total_succeeds;
           solve [auto 10 using total_createAlloc, total_createStore with total]).
    apply succeeds_bind; [by apply succeeds_createCall|].
    intros subg. apply total_succeeds. auto with total.
  - intros [prev_node node']. apply total_succeeds.
    apply total_bind; [|auto with total].
    destruct (negb _); auto with total.
Qed.

Lemma succeeds_buildBlock block :
  forallb (wf_inst Mod PTA) (bb_insts block) = true ->
  succeeds k (buildBlock UNKNOWN_OFFSET Mod DL PTA rec block).
Proof.
  intros Hwf. rewrite forallb_forall in Hwf. unfold buildBlock.
  apply succeeds_bind; [apply total_succeeds; auto with total|]. intros node.
  apply succeeds_bind; [|intros ?; apply total_succeeds; auto with total].
  apply succeeds_fold_each, Forall_forall. intros i Hi acc.
  apply succeeds_buildBlock_inst, Hwf. by apply list_elem_of_In.
Qed.

Lemma succeeds_buildFunction_block acc block :
  forallb (wf_inst Mod PTA) (bb_insts block) = true ->
  succeeds k (buildFunction_block UNKNOWN_OFFSET Mod DL PTA rec acc block).
Proof.
  intros Hwf. unfold buildFunction_block. destruct acc as [built_blocks first].
  intros s. apply succeeds_at_bind; [by apply succeeds_buildBlock|].
  intros nds s1 Hnds.
  destruct (buildBlock_first _ _ _ _ _ Hnds) as (last & ->).
  apply total_succeeds. simpl. auto with total.
Qed.

Lemma buildFunction_blocks_full l acc acc' s s' :
  fold_each l (buildFunction_block UNKNOWN_OFFSET Mod DL PTA rec) acc s
  = Ok acc' s' ->
  (forall a e, fst acc !! a = Some e -> full e) ->
  (forall a e, fst acc' !! a = Some e -> full e)
  /\ (is_Some (snd acc) \/ l <> [] -> is_Some (snd acc')).
Proof.
  revert acc s. induction l as [|b l IH]; intros acc s; simpl.
  - intros [= <- _] Hfull. split; [done|]. by intros [?|?].
  - intros (acc1 & s1 & Hb & Hl)%bind_Ok Hfull.
    unfold buildFunction_block in Hb. destruct acc as [built first].
    apply bind_Ok in Hb as (nds & s2 & Hnds & (_ & s3 & _ & Hb)%bind_Ok).
    destruct (buildBlock_first _ _ _ _ _ Hnds) as (last & ->).
    simpl in Hb. injection Hb as <- _.
    destruct (IH _ _ Hl) as [Hfull' Hfirst].
    { simpl. intros a e. destruct (decide (bb_addr b = a)) as [->|Hne].
      - rewrite lookup_insert_eq. intros [= <-]. by split; eexists.
      - rewrite lookup_insert_ne by done. apply Hfull. }
    split; [done|]. intros _. apply Hfirst. left. simpl.
    by destruct first.
Qed.

End success.

(** [blockAddSuccessors] when every successor was built: one edge each. *)
Lemma blockAddSuccessors_all_built fuel blocks built_blocks first last block s :
  (forall S_, S_ ∈ bb_succs block ->
              exists p q, built_blocks !! S_ = Some (Some p, Some q)) ->
  exists s',
    blockAddSuccessors (S fuel) blocks built_blocks (first, Some last) block s
    = Ok (length (bb_succs block)) s'
    /\ subgraphs_map s' = subgraphs_map s.
Proof.
  simpl. change (length (bb_succs block)) with (0 + length (bb_succs block)).
  generalize 0. intros num Hbuilt. revert s num.
  induction (bb_succs block) as [|S_ succs IH]; intros s num; simpl.
  - exists s. by rewrite Nat.add_0_r.
  - destruct (Hbuilt S_) as (p & q & Hs); [left|].
    destruct IH with (s := with_edge last p s) (num := S num)
      as (s' & E & Hmap).
    { intros S' HS'. apply Hbuilt. by right. }
    exists s'. unfold bind at 1. rewrite Hs. simpl.
    unfold with_edge in E, Hmap. rewrite E.
    split; [f_equal; lia|done].
Qed.

Lemma wf_block_succs_built blocks built_blocks b :
  wf_block Mod PTA blocks b = true ->
  covers built_blocks blocks ->
  (forall a e, built_blocks !! a = Some e -> full e) ->
  forall S_, S_ ∈ bb_succs b ->
             exists p q, built_blocks !! S_ = Some (Some p, Some q).
Proof.
  intros [_ Hsuccs]%andb_prop Hcov Hfull S_ HS.
  rewrite forallb_forall in Hsuccs.
  apply list_elem_of_In, Hsuccs, existsb_exists in HS as (b' & Hb' & Haddr).
  apply Nat.eqb_eq in Haddr. apply list_elem_of_In in Hb'.
  destruct (Hcov b' Hb') as (p & q & Hp). rewrite Haddr in Hp.
  destruct (Hfull _ _ Hp) as [_ [q' Hq]]. simpl in Hq. subst q. eauto.
Qed.

Lemma buildFunction_succs_built fuel blocks built_blocks rets b s :
  covers built_blocks blocks ->
  (forall a e, built_blocks !! a = Some e -> full e) ->
  b ∈ blocks -> wf_block Mod PTA blocks b = true ->
  exists q s',
    buildFunction_succs (S fuel) blocks built_blocks rets b s
    = Ok (if length (bb_succs b) =? 0 then rets ++ [Some q] else rets) s'
    /\ subgraphs_map s' = subgraphs_map s.
Proof.
  intros Hcov Hfull Hb Hwf. unfold buildFunction_succs.
  destruct (Hcov b Hb) as (p & q0 & Hp). rewrite Hp.
  destruct (Hfull _ _ Hp) as [_ [q Hq]]. simpl in Hq. subst q0.
  destruct (blockAddSuccessors_all_built fuel blocks built_blocks (Some p) q b s)
    as (s' & E & Hmap).
  { by apply (wf_block_succs_built blocks). }
  assert (both_or_neither (Some p, Some q) = true) as Hboth by reflexivity.
  exists q, s'. rewrite Hboth. unfold bind at 1. cbn [assert ret fst].
  unfold bind at 1. rewrite E.
  split; [|done]. by destruct (length (bb_succs b) =? 0).
Qed.

Lemma buildFunction_succs_loop fuel blocks built_blocks l rets s :
  covers built_blocks blocks ->
  (forall a e, built_blocks !! a = Some e -> full e) ->
  (forall b, b ∈ l -> b ∈ blocks /\ wf_block Mod PTA blocks b = true) ->
  Forall is_Some rets ->
  exists rets' s',
    fold_each l (buildFunction_succs (S fuel) blocks built_blocks) rets s
    = Ok rets' s'
    /\ subgraphs_map s' = subgraphs_map s
    /\ Forall is_Some rets'
    /\ (rets <> [] \/ (exists b, b ∈ l /\ bb_succs b = []) -> rets' <> []).
Proof.
  intros Hcov Hfull. revert rets s.
  induction l as [|b l IH]; intros rets s Hl Hrets; simpl.
  - exists rets, s. repeat split; [done|].
    intros [?|(b & Hb & _)]; [done|by apply elem_of_nil in Hb].
  - destruct (Hl b) as [Hb Hwf]; [left|].
    destruct (buildFunction_succs_built fuel blocks built_blocks rets b s
                Hcov Hfull Hb Hwf) as (q & s1 & E1 & Hmap1).
    destruct (IH (if length (bb_succs b) =? 0 then rets ++ [Some q] else rets) s1)
      as (rets' & s' & E & Hmap & Hsome & Hne).
    { intros b' Hb'. apply Hl. by right. }
    { destruct (length (bb_succs b) =? 0); [|done].
      apply Forall_app. split; [done|]. by repeat constructor. }
    exists rets', s'. unfold bind. rewrite E1, E.
    split; [done|]. split; [congruence|]. split; [done|].
    intros Hex. apply Hne.
    destruct Hex as [Hrets'|(b' & [->|Hb']%elem_of_cons & Hnil)].
    + left. destruct (length (bb_succs b) =? 0); [|done]. by destruct rets.
    + left. rewrite Hnil. simpl. by destruct rets.
    + right. eauto.
Qed.

Lemma total_return_edges rets ret_ :
  Forall is_Some rets ->
  total (for_each rets (fun r => do r <- deref r; addSuccessor r ret_)).
Proof.
  intros Hrets. apply total_for_each.
  eapply Forall_impl; [done|]. intros r [r' ->]. simpl. auto with total.
Qed.

Lemma succeeds_buildFunction_graph k rec fuel F root ret_ :
  rec_succeeds k rec ->
  wf_function Mod PTA F = true ->
  succeeds k (buildFunction_graph UNKNOWN_OFFSET Mod DL PTA rec (S fuel) F
                root ret_).
Proof.
  intros Hrec [[Hbody Hblocks]%andb_prop Hexit]%andb_prop.
  rewrite forallb_forall in Hblocks.
  apply existsb_exists in Hexit as (bx & Hbx & Hnil).
  apply Nat.eqb_eq in Hnil. apply list_elem_of_In in Hbx.
  unfold buildFunction_graph. intros s.
  apply succeeds_at_bind.
  { apply succeeds_fold_each, Forall_forall. intros b Hb acc.
    apply succeeds_buildFunction_block; [done|].
    apply list_elem_of_In, Hblocks in Hb.
    by apply andb_prop in Hb as [? _]. }
  intros [built_blocks first] s1 Hloop.
  destruct (buildFunction_blocks_cover _ _ _ _ _ _ Hloop) as [_ Hcov].
  destruct (buildFunction_blocks_full _ _ _ _ _ _ Hloop) as [Hfull Hfirst].
  { simpl. intros a e. by rewrite lookup_empty. }
  simpl in Hcov, Hfull, Hfirst.
  destruct Hfirst as [first' ->].
  { right. apply negb_true_iff, Nat.eqb_neq in Hbody.
    by destruct (f_blocks F). }
  apply total_succeeds.
  apply total_bind; [auto with total|]. intros _.
  apply total_bind; [auto with total|]. intros first''.
  apply total_bind; [auto with total|]. intros _.
  intros s2.
  destruct (buildFunction_succs_loop fuel (f_blocks F) built_blocks
              (f_blocks F) [] s2 Hcov Hfull)
    as (rets & s3 & E & Hmap & Hsome & Hne); [|done|].
  { intros b Hb. split; [done|]. by apply Hblocks, list_elem_of_In. }
  assert (rets <> []) as Hrets.
  { apply Hne. right. exists bx. split; [done|]. by destruct (bb_succs bx). }
  destruct (total_return_edges rets ret_ Hsome s3) as ([] & s4 & E4 & Hmap4).
  assert (negb (length rets =? 0) = true) as Hlen by (by destruct rets).
  exists root, s4. unfold bind at 1. rewrite E, Hlen.
  unfold bind at 1. cbn [assert ret]. unfold bind at 1. rewrite E4.
  split; [done|congruence].
Qed.



Lemma unbuilt_pos s Fn :
  Fn ∈ functions Mod -> built s (f_addr Fn) = false -> 0 < unbuilt Mod s.
Proof.
  intros Hin Hun. unfold unbuilt.
  assert (Fn ∈ filter (fun f => built s (f_addr f) = false) (functions Mod))
    as Hf by (by apply list_elem_of_filter).
  destruct (filter _ _); [by apply elem_of_nil in Hf|simpl; lia].
Qed.

Lemma buildFunction_unfold fuel F s :
  buildFunction UNKNOWN_OFFSET Mod DL PTA (S fuel) F s
  = buildFunction_graph UNKNOWN_OFFSET Mod DL PTA
      (buildFunction UNKNOWN_OFFSET Mod DL PTA fuel) (S fuel) F
      (arena s) (S (arena s)) (with_subgraph_record (f_addr F) s).
Proof. reflexivity. Qed.

Lemma stable_with_subgraph_record F s :
  built s F = false -> stable s (with_subgraph_record F s).
Proof.
  intros Hun a sg Hsg Hroot. simpl.
  destruct (decide (F = a)) as [->|Hne]; [|by rewrite lookup_insert_ne].
  unfold built in Hun. rewrite Hsg in Hun.
  by apply bool_decide_eq_false in Hun.
Qed.

Lemma built_with_subgraph_record F s :
  built (with_subgraph_record F s) F = true.
Proof.
  unfold built. simpl. rewrite lookup_insert_eq.
  apply bool_decide_eq_true. by eexists.
Qed.

Lemma records_complete_with_subgraph_record F s :
  records_complete s -> records_complete (with_subgraph_record F s).
Proof.
  intros Hinv a sg. simpl. destruct (decide (F = a)) as [->|Hne].
  - rewrite lookup_insert_eq. intros [= <-] _. by eexists.
  - rewrite lookup_insert_ne by done. apply Hinv.
Qed.

Lemma buildFunction_graph_root rec fuel F root ret_ s r s' :
  buildFunction_graph UNKNOWN_OFFSET Mod DL PTA rec fuel F root ret_ s = Ok r s' ->
  r = root.
Proof.
  unfold buildFunction_graph.
  intros ([built first] & s1 & _ & H)%bind_Ok.
  apply bind_Ok in H as (_ & s2 & _ & H).
  apply bind_Ok in H as (first' & s3 & _ & H).
  apply bind_Ok in H as (_ & s4 & _ & H).
  apply bind_Ok in H as (rets & s5 & _ & H).
  apply bind_Ok in H as (_ & s6 & _ & H).
  apply bind_Ok in H as (_ & s7 & _ & H).
  by injection H as <- _.
Qed.

Lemma buildFunction_rec_bounded fuel :
  rec_bounded fuel (buildFunction UNKNOWN_OFFSET Mod DL PTA fuel).
Proof.
  induction fuel as [|fuel IH]; intros Fn s Hin Hun.
  - split; [|done]. intros Hk. pose proof (unbuilt_pos s Fn Hin Hun). lia.
  - rewrite buildFunction_unfold.
    pose proof (stable_with_subgraph_record _ _ Hun) as Hst.
    pose proof (built_with_subgraph_record (f_addr Fn) s) as Hbuilt.
    pose proof (unbuilt_decreases _ _ _ Hst Hin Hun Hbuilt) as Hlt.
    destruct (bounded_buildFunction_graph fuel _ IH fuel Fn (arena s)
                (S (arena s)) (with_subgraph_record (f_addr Fn) s)) as [H1 H2].
    split; [intros Hk; apply H1; lia|].
    intros r s' Hr. pose proof (H2 r s' Hr) as Hst'.
    split; [by eapply stable_trans|by eapply stable_built].
Qed.

Lemma buildFunction_rec_succeeds fuel :
  wf_module Mod PTA = true ->
  rec_succeeds fuel (buildFunction UNKNOWN_OFFSET Mod DL PTA fuel).
Proof.
  intros Hwf. unfold wf_module in Hwf. rewrite forallb_forall in Hwf.
  induction fuel as [|fuel IH]; intros Fn s Hin Hbody Hun Hinv Hk.
  - pose proof (unbuilt_pos s Fn Hin Hun). lia.
  - rewrite buildFunction_unfold.
    pose proof (stable_with_subgraph_record _ _ Hun) as Hst.
    pose proof (built_with_subgraph_record (f_addr Fn) s) as Hbuilt.
    pose proof (unbuilt_decreases _ _ _ Hst Hin Hun Hbuilt) as Hlt.
    assert (wf_function Mod PTA Fn = true) as Hfn.
    { apply list_elem_of_In, Hwf in Hin.
      apply orb_prop in Hin as [Hempty%Nat.eqb_eq|]; [|done].
      by destruct (f_blocks Fn). }
    destruct (succeeds_buildFunction_graph fuel _ fuel Fn (arena s)
                (S (arena s)) IH Hfn (with_subgraph_record (f_addr Fn) s))
      as (r & s' & E & Hst' & Hinv');
      [by apply records_complete_with_subgraph_record|lia|].
    exists r, s'. split; [done|].
    split; [by eapply stable_trans|]. split; [done|by eapply stable_built].
Qed.

Lemma quiet_buildGlobals : quiet (buildGlobals Mod).
Proof.
  unfold buildGlobals. apply quiet_bind.
  - apply quiet_fold_each. intros [cur first] g. unfold buildGlobals_global.
    apply quiet_bind; [auto with quiet|]. intros cur'.
    apply quiet_bind; [auto with quiet|]. intros _.
    destruct cur; auto with quiet.
  - intros [cur first]. auto with quiet.
Qed.

Lemma unbuilt_le s : unbuilt Mod s <= length (functions Mod).
Proof. apply length_filter. Qed.

(** [build] on a fresh builder does not run out of fuel when it has as much
    fuel as the module has functions. *)
Theorem build_terminates s :
  subgraphs_map s = ∅ ->
  build UNKNOWN_OFFSET Mod DL PTA (length (functions Mod)) s <> Fail OutOfFuel.
Proof.
  intros Hempty.
  cut (bounded_at (length (functions Mod))
         (build UNKNOWN_OFFSET Mod DL PTA (length (functions Mod))) s).
  { intros [H _]. apply H, unbuilt_le. }
  unfold build.
  destruct (getFunction Mod "main") as [F|] eqn:Emain;
    [|apply quiet_at; auto with quiet].
  apply find_some in Emain as [Hin%list_elem_of_In _].
  apply bounded_at_bind; [apply quiet_at, quiet_buildGlobals|].
  intros glob s1 Hglob.
  destruct (quiet_buildGlobals s) as [_ Hmap]. specialize (Hmap _ _ Hglob).
  apply bounded_at_bind.
  - destruct (buildFunction_rec_bounded (length (functions Mod)) F s1 Hin)
      as [H1 H2].
    { unfold built. by rewrite Hmap, Hempty, lookup_empty. }
    split; [done|]. intros r s' Hr. by destruct (H2 r s' Hr).
  - intros root s2 _. apply quiet_at.
    destruct (fst glob); auto 10 with quiet.
Qed.

Lemma createCallToFunction_cached rec CInst F r t s :
  subgraphs_map s !! F = Some {| sg_root := Some r; sg_ret := Some t |} ->
  createCallToFunction Mod rec CInst (Some F) s
  = Ok (S (arena s), arena s)
       {| arena := S (S (arena s));
          edges := edges s ++ [(S (arena s), r)] ++ [(t, arena s)];
          defs := defs s; nodes_map := nodes_map s; mapping := mapping s;
          subgraphs_map := subgraphs_map s; errs := errs s |}.
Proof.
  intros Hsg. unfold createCallToFunction, bind. simpl. rewrite Hsg. simpl.
  by rewrite <- app_assoc.
Qed.

Lemma records_complete_empty : records_complete empty_Builder.
Proof. intros F sg. simpl. by rewrite lookup_empty. Qed.

(** C4. Building a function that has no subgraph record yet -- recursive or
    not -- starts on its blocks only after its [(root, ret)] record is in
    [subgraphs_map].  With as much fuel as there are functions without a
    record it does not run out of fuel, so the recursion is finite; and it
    returns if the module is well-formed, so that no assertion of the
    builder fails.  When it returns, the record of the function is the one
    it inserted at the start and no record that existed before was replaced:
    there is one subgraph per function.  A call to a function that has its
    record takes the record from the map, whatever the recursive call would
    do: nothing is rebuilt. *)
Theorem buildFunction_recursion_terminates :
  (forall Fn s,
     Fn ∈ functions Mod -> built s (f_addr Fn) = false ->
     (forall fuel,
        buildFunction UNKNOWN_OFFSET Mod DL PTA (S fuel) Fn s
        = buildFunction_graph UNKNOWN_OFFSET Mod DL PTA
            (buildFunction UNKNOWN_OFFSET Mod DL PTA fuel) (S fuel) Fn
            (arena s) (S (arena s)) (with_subgraph_record (f_addr Fn) s))
     /\ (forall fuel,
           unbuilt Mod s <= fuel ->
           buildFunction UNKNOWN_OFFSET Mod DL PTA fuel Fn s <> Fail OutOfFuel)
     /\ (wf_module Mod PTA = true -> f_blocks Fn <> [] -> records_complete s ->
         forall fuel,
           unbuilt Mod s <= fuel ->
           exists r s',
             buildFunction UNKNOWN_OFFSET Mod DL PTA fuel Fn s = Ok r s')
     /\ (forall fuel r s',
           buildFunction UNKNOWN_OFFSET Mod DL PTA fuel Fn s = Ok r s' ->
           r = arena s
           /\ subgraphs_map s' !! f_addr Fn
              = Some {| sg_root := Some r; sg_ret := Some (S r) |}
           /\ stable s s'))
  /\ (forall rec CInst F r t s,
        subgraphs_map s !! F = Some {| sg_root := Some r; sg_ret := Some t |} ->
        createCallToFunction Mod rec CInst (Some F) s
        = Ok (S (arena s), arena s)
             {| arena := S (S (arena s));
                edges := edges s ++ [(S (arena s), r)] ++ [(t, arena s)];
                defs := defs s; nodes_map := nodes_map s; mapping := mapping s;
                subgraphs_map := subgraphs_map s; errs := errs s |}).
Proof.
  split; [|apply createCallToFunction_cached].
  intros Fn s Hin Hun. split; [intros; apply buildFunction_unfold|].
  split; [|split].
  - intros fuel Hk. by apply (buildFunction_rec_bounded fuel Fn s Hin Hun).
  - intros Hwf Hbody Hinv fuel Hk.
    destruct (buildFunction_rec_succeeds fuel Hwf Fn s Hin Hbody Hun Hinv Hk)
      as (r & s' & E & _).
    by exists r, s'.
  - intros [|fuel] r s' Hr; [done|].
    destruct (buildFunction_rec_bounded (S fuel) Fn s Hin Hun) as [_ H2].
    destruct (H2 r s' Hr) as [Hst _].
    rewrite buildFunction_unfold in Hr.
    pose proof (buildFunction_graph_root _ _ _ _ _ _ _ _ Hr) as ->.
    split; [done|]. split; [|done].
    destruct (bounded_buildFunction_graph fuel _ (buildFunction_rec_bounded fuel)
                fuel Fn (arena s) (S (arena s))
                (with_subgraph_record (f_addr Fn) s)) as [_ H3].
    apply (H3 _ _ Hr); [|by eexists]. simpl. by rewrite lookup_insert_eq.
Qed.

End rd_properties.

(** * The properties at the concrete inputs *)

Section instances.

Import rd examples.

(** The block [B] of [M_abc], which holds no instruction that emits a node,
    still exports its dummy node [(0, 0)], not [(null, null)]; and in the
    graph of [main] (root [0], ret [1], [A] = phi [2], alloca [3], store [4];
    [B] = phi [5]; [C] = phi [6], ret [7]) the stitching adds [4 -> 5] and
    [5 -> 6], not [4 -> 6]. *)
Lemma buildBlock_empty_block_not_bypassed :
  buildBlock UNKNOWN M_abc DL0 PTA0 no_rec block_B empty_Builder
  = Ok (Some 0, Some 0)
       {| arena := 1; edges := []; defs := []; nodes_map := ∅;
          mapping := <[12 := 0]> ∅; subgraphs_map := ∅; errs := [] |}
  /\ match build UNKNOWN M_abc DL0 PTA0 1 empty_Builder with
     | Ok root s => Some (root, arena s, edges s)
     | Fail _ => None
     end
     = Some (0, 8, [(2, 3); (3, 4); (6, 7); (0, 2); (4, 5); (5, 6); (7, 1)]).
Proof. split; reflexivity. Qed.

(** A direct call to [realloc], which has an empty body, returns no pair: it
    fails the assertion of [getMemAllocationFunc]. *)
Lemma createCall_realloc_aborts :
  dyn_cast_Function M_alloc (stripPointerCasts M_alloc 60) = Some realloc_decl
  /\ length (f_blocks realloc_decl) = 0
  /\ createCall M_alloc PTA0 no_rec 20 60 empty_Builder
     = Fail (AssertionFailed "realloc not implemented yet").
Proof. repeat split. Qed.

(** The fan-out over the function at [50] and unknown memory: the function
    is wired, the unknown pointer is taken for a callee and dereferenced. *)
Example createCall_unknown_target :
  createCall M_rec PTA0 (buildFunction UNKNOWN M_rec DL0 PTA0 3) 20 201
    empty_Builder = Fail NullDereference.
Proof. reflexivity. Qed.

(** A store through a pointer that may be the function at [50], which has
    no node, or unknown memory: the first is logged and skipped, the second
    makes the diagnostic dereference null. *)
Example createStore_unknown_target :
  createStore_ptr UNKNOWN DL0 i32 0 2 (mkPointer target_f 0) empty_Builder
  = Ok tt (logged [PrintValue 50;
                   Message "Don't have created node for pointer's target"]
             empty_Builder)
  /\ createStore UNKNOWN DL0 PTA0 11 i32 201 empty_Builder
     = Fail NullDereference.
Proof. split; reflexivity. Qed.

(** [main] calls itself: [build] returns, with one subgraph record. *)
Example build_recursive_main :
  match build UNKNOWN M_rec DL0 PTA0 1 empty_Builder with
  | Ok root s => Some (root, arena s, map_to_list (subgraphs_map s))
  | Fail _ => None
  end = Some (0, 6, [(50, {| sg_root := Some 0; sg_ret := Some 1 |})]).
Proof. reflexivity. Qed.

(** [main] and [g] call each other: [build] returns, with one subgraph
    record for each; one unit of fuel is not enough, two are. *)
Example build_mutually_recursive :
  match build UNKNOWN M_mut DL0 PTA0 2 empty_Builder with
  | Ok root s => Some (root, arena s, map_to_list (subgraphs_map s))
  | Fail _ => None
  end = Some (0, 13, [(50, {| sg_root := Some 1; sg_ret := Some 2 |});
                      (51, {| sg_root := Some 6; sg_ret := Some 7 |})])
  /\ build UNKNOWN M_mut DL0 PTA0 1 empty_Builder = Fail OutOfFuel.
Proof. split; reflexivity. Qed.

Lemma createStore_strong_update_witness :
  exists added,
    defs (after_store i32 4) = defs after_alloca ++ added
    /\ forall n d, (n, d) ∈ added ->
         n = 1
         /\ (ds_strong d = true
             <-> length (pointsTo (mkPSSNode 7 None [mkPointer alloc10 0])) = 1).
Proof.
  apply (createStore_strong_update UNKNOWN DL0 PTA0 11 i32 100
           (mkPSSNode 7 None [mkPointer alloc10 0]) after_alloca 1
           (after_store i32 4)); reflexivity.
Defined.

Lemma createStore_def_size_witness :
  (getAllocatedSize DL0 i32 = 4%N
   /\ exists d,
        defs (after_store i32 4) = defs after_alloca ++ [(1, d)]
        /\ ds_len d = getTypeAllocSize DL0 i32 /\ ds_len d = 4%N)
  /\ (getAllocatedSize DL0 opaque = 0%N
      /\ exists d,
           defs (after_store opaque UNKNOWN) = defs after_alloca ++ [(1, d)]
           /\ ds_len d = UNKNOWN).
Proof.
  split.
  - destruct (createStore_def_size UNKNOWN DL0 PTA0 11 i32 100
                (mkPSSNode 7 None [mkPointer alloc10 0]) after_alloca 1
                (after_store i32 4) eq_refl eq_refl)
      as (Hsize & added & Hadd & Hall).
    split; [exact Hsize|]. simpl in Hadd. subst added.
    eexists. split; [reflexivity|].
    destruct (Hall 1 _ (list_elem_of_here _ _)) as (_ & _ & Hsized).
    split; [|reflexivity]. apply Hsized; [reflexivity|discriminate].
  - destruct (createStore_def_size UNKNOWN DL0 PTA0 11 opaque 100
                (mkPSSNode 7 None [mkPointer alloc10 0]) after_alloca 1
                (after_store opaque UNKNOWN) eq_refl eq_refl)
      as (Hsize & added & Hadd & Hall).
    split; [exact Hsize|]. simpl in Hadd. subst added.
    eexists. split; [reflexivity|].
    destruct (Hall 1 _ (list_elem_of_here _ _)) as (Hunsized & _).
    apply Hunsized. reflexivity.
Defined.

Lemma createStore_skips_missing_node_witness :
  (let s2 := logged [PrintValue 10;
                     Message "Don't have created node for pointer's target"]
               empty_Builder in
   createStore_ptr UNKNOWN DL0 i32 0 2 (mkPointer alloc10 0) empty_Builder
   = Ok tt s2
   /\ for_each ([] ++ mkPointer alloc10 0 :: [mkPointer NULLPTR 0])
        (createStore_ptr UNKNOWN DL0 i32 0 2) empty_Builder
      = for_each [mkPointer NULLPTR 0] (createStore_ptr UNKNOWN DL0 i32 0 2) s2
   /\ defs s2 = defs empty_Builder)
  /\ (let s1 := logged [PrintValue 50;
                        Message "Don't have created node for pointer's target"]
                  empty_Builder in
      createStore_ptr UNKNOWN DL0 i32 0 2 (mkPointer UNKNOWN_MEMORY UNKNOWN) s1
      = Fail NullDereference
      /\ for_each ([mkPointer target_f 0]
                   ++ mkPointer UNKNOWN_MEMORY UNKNOWN :: [])
           (createStore_ptr UNKNOWN DL0 i32 0 2) empty_Builder
         = Fail NullDereference
      /\ forall r s',
           createStore UNKNOWN DL0 PTA0 11 i32 201 empty_Builder <> Ok r s').
Proof.
  split.
  - destruct (createStore_skips_missing_node UNKNOWN DL0 PTA0 i32 0 2 []
                (mkPointer alloc10 0) [mkPointer NULLPTR 0] empty_Builder
                empty_Builder eq_refl eq_refl) as (Hskip & _).
    apply (Hskip 10); reflexivity.
  - intros s1.
    destruct (createStore_skips_missing_node UNKNOWN DL0 PTA0 i32 0 2
                [mkPointer target_f 0] (mkPointer UNKNOWN_MEMORY UNKNOWN) []
                empty_Builder s1 eq_refl eq_refl) as (_ & Hfail & _).
    destruct (Hfail eq_refl) as (Hptr & Hloop & Hstore).
    split; [exact Hptr|]. split; [exact Hloop|].
    intros r s'.
    apply (Hstore 11 i32 201
             (mkPSSNode 10 None
                [mkPointer target_f 0; mkPointer UNKNOWN_MEMORY UNKNOWN])
             empty_Builder r s'); reflexivity.
Defined.

Lemma createCall_allocation_witness :
  createCall M_alloc PTA0 no_rec 20 61 empty_Builder
  = Ok (0, 0)
       {| arena := 1; edges := []; defs := [];
          nodes_map := <[20 := 0]> ∅; mapping := ∅; subgraphs_map := ∅;
          errs := [] |}.
Proof.
  apply (createCall_allocation M_alloc PTA0 no_rec 20 61 malloc_decl
           empty_Builder); [reflexivity|left; reflexivity].
Defined.

Lemma createCall_fanout_unknown_pointer_witness :
  (forall call_funcptr ret_call s1,
     createCall_ptr M_rec no_rec 20 call_funcptr ret_call
       (mkPointer NULLPTR UNKNOWN) s1 = Ok tt s1)
  /\ (forall call_funcptr ret_call s1,
        createCall_ptr M_rec no_rec 20 call_funcptr ret_call
          (mkPointer UNKNOWN_MEMORY UNKNOWN) s1 = Fail NullDereference)
  /\ forall r s',
       createCall M_rec PTA0 no_rec 20 201 empty_Builder <> Ok r s'.
Proof.
  apply (createCall_fanout_unknown_pointer M_rec PTA0 no_rec 20 201
           (mkPSSNode 10 None
              [mkPointer target_f 0; mkPointer UNKNOWN_MEMORY UNKNOWN])
           [mkPointer target_f 0] UNKNOWN [] empty_Builder);
    [reflexivity|reflexivity|reflexivity|simpl; lia].
Defined.

Lemma createCall_singleton_unchecked_witness :
  createCall M_rec PTA0 no_rec 20 200 empty_Builder
  = createCallToFunction M_rec no_rec 20
      (getUserData (target (mkPointer NULLPTR 0))) empty_Builder
  /\ (target (mkPointer NULLPTR 0) = NULLPTR ->
      isNull (mkPointer NULLPTR 0) = true
      /\ createCall M_rec PTA0 no_rec 20 200 empty_Builder
         = Fail NullDereference).
Proof.
  apply (createCall_singleton_unchecked M_rec PTA0 no_rec 20 200
           (mkPSSNode 9 None [mkPointer NULLPTR 0]) (mkPointer NULLPTR 0)
           empty_Builder); reflexivity.
Defined.

Lemma buildBlock_never_exports_null_witness :
  (exists s',
     buildBlock UNKNOWN M_abc DL0 PTA0 no_rec block_B empty_Builder
     = Ok (Some 0, Some 0) s'
     /\ arena s' = 1 /\ edges s' = [] /\ defs s' = [])
  /\ blockAddSuccessors 1 [block_A; block_B; block_C]
       (<[2 := (Some 5, Some 5)]> ∅) (Some 2, Some 4) block_A empty_Builder
     = Ok 1 (with_edge 4 5 empty_Builder).
Proof.
  destruct (buildBlock_never_exports_null UNKNOWN M_abc DL0 PTA0)
    as (_ & Hempty & Hstitch).
  split.
  - apply (Hempty no_rec block_B empty_Builder).
    repeat constructor.
  - apply (Hstitch 0 [block_A; block_B; block_C] (<[2 := (Some 5, Some 5)]> ∅)
             (Some 2) 4 block_A 2 5 5 empty_Builder); reflexivity.
Defined.

Lemma buildFunction_recursion_terminates_witness :
  buildFunction UNKNOWN M_rec DL0 PTA0 1 rec_main empty_Builder
  <> Fail OutOfFuel
  /\ (exists r s',
        buildFunction UNKNOWN M_rec DL0 PTA0 1 rec_main empty_Builder = Ok r s')
  /\ createCallToFunction M_rec no_rec 13 (Some 50)
       (with_subgraph_record 50 empty_Builder)
     = Ok (3, 2)
          {| arena := 4; edges := [] ++ [(3, 0)] ++ [(1, 2)]; defs := [];
             nodes_map := ∅; mapping := ∅;
             subgraphs_map :=
               <[50 := {| sg_root := Some 0; sg_ret := Some 1 |}]> ∅;
             errs := [] |}.
Proof.
  destruct (buildFunction_recursion_terminates UNKNOWN M_rec DL0 PTA0)
    as (Hbuild & Hcached).
  destruct (Hbuild rec_main empty_Builder) as (_ & Hfuel & Hreturns & _);
    [left|reflexivity|].
  split; [|split].
  - apply (Hfuel 1). vm_compute. lia.
  - apply (Hreturns eq_refl); [discriminate|apply records_complete_empty|].
    vm_compute. lia.
  - apply (Hcached no_rec 13 50 0 1 (with_subgraph_record 50 empty_Builder)).
    reflexivity.
Defined.

Lemma build_terminates_witness :
  build UNKNOWN M_mut DL0 PTA0 2 empty_Builder <> Fail OutOfFuel.
Proof.
  apply (build_terminates UNKNOWN M_mut DL0 PTA0 empty_Builder). reflexivity.
Defined.

Lemma preprocessGEPs_offsets_witness :
  pta.nodes (pta.PS (pta.preprocessGEPs UNKNOWN PA0)) !! 1
  = Some {| pta.getType := pta.GEP; pta.offset := UNKNOWN;
            pta.successors := [0; 2] |}.
Proof.
  destruct (preprocessGEPs_offsets UNKNOWN PA0 1
              {| pta.getType := pta.GEP; pta.offset := 4;
                 pta.successors := [0; 2] |}) as (Hgep & _);
    [reflexivity|].
  apply (Hgep eq_refl [0; 1]).
  - right. left.
  - right. left.
  - simpl. lia.
Defined.

Lemma run_reenumeration_covers_changed_witness :
  let pa := pta.with_to_process (pta.preprocessGEPs UNKNOWN PA0)
              (pta.getNodes (pta.PS (pta.preprocessGEPs UNKNOWN PA0))
                 (Some 0) None 0) in
  let pa' := pta.run_refill (fst (pta.run_pass hooks0 pa))
               (snd (pta.run_pass hooks0 pa)) in
  pta.to_process pa' <> []
  /\ length (pta.changed pa') <= length (pta.to_process pa').
Proof.
  destruct (run_reenumeration_covers_changed UNKNOWN hooks0 PA0) as (Hiter & _).
  apply Hiter.
  - apply (pta.loop_head_first UNKNOWN hooks0 PA0 0). reflexivity.
  - vm_compute. discriminate.
Defined.

End instances.

(** * The builder only adds *)

Section rd_growth.

Import rd.

Variable UNKNOWN_OFFSET : N.
Variable Mod : LLVMModule.
Variable DL : DataLayout.
Variable PTA : LLVMPointsToAnalysis.

Lemma extends_refl s : extends s s.
Proof. by repeat split. Qed.

Lemma extends_trans s1 s2 s3 : extends s1 s2 -> extends s2 s3 -> extends s1 s3.
Proof.
  intros (A1 & E1 & D1 & R1 & N1 & M1 & G1) (A2 & E2 & D2 & R2 & N2 & M2 & G2).
  repeat split; try (by etrans); lia.
Qed.

Lemma grows_ret {A} (a : A) : grows (ret a).
Proof. intros s a' s' [= _ <-]. apply extends_refl. Qed.

Lemma grows_fail {A} e : grows (@fail A e).
Proof. by intros s a s'. Qed.

Lemma grows_bind {A B} (m : M A) (f : A -> M B) :
  grows m -> (forall a, grows (f a)) -> grows (bind m f).
Proof.
  intros Hm Hf s b s' (a & s1 & H1 & H2)%bind_Ok.
  eapply extends_trans; [by eapply Hm|by eapply Hf].
Qed.

Lemma grows_for_each {A} (body : A -> M unit) l :
  (forall x, grows (body x)) -> grows (for_each l body).
Proof.
  intros Hbody. induction l as [|x l IH]; simpl.
  - apply grows_ret.
  - apply grows_bind; [apply Hbody|by intros _].
Qed.

Lemma grows_fold_each {A S} (body : S -> A -> M S) l acc :
  (forall acc x, grows (body acc x)) -> grows (fold_each l body acc).
Proof.
  intros Hbody. revert acc. induction l as [|x l IH]; intros acc; simpl.
  - apply grows_ret.
  - apply grows_bind; [apply Hbody|apply IH].
Qed.

Lemma grows_new_RDNode : grows new_RDNode.
Proof. intros s a s' [= _ <-]. repeat split; simpl; try done. lia. Qed.

Lemma grows_addSuccessor a b : grows (addSuccessor a b).
Proof.
  intros s [] s' [= <-]. repeat split; simpl; try done. by apply prefix_app_r.
Qed.

Lemma grows_addDef a b c d e : grows (addDef a b c d e).
Proof.
  intros s [] s' [= <-]. repeat split; simpl; try done. by apply prefix_app_r.
Qed.

Lemma grows_log d : grows (log d).
Proof.
  intros s [] s' [= <-]. repeat split; simpl; try done. by apply prefix_app_r.
Qed.

Lemma grows_addNode v n : grows (addNode v n).
Proof.
  intros s [] s' [= <-]. repeat split; simpl; try done.
  rewrite dom_insert. set_solver.
Qed.

Lemma grows_set_mapping v n : grows (set_mapping v n).
Proof.
  intros s [] s' [= <-]. repeat split; simpl; try done.
  rewrite dom_insert. set_solver.
Qed.

Lemma grows_set_subgraph F sg : grows (set_subgraph F sg).
Proof.
  intros s [] s' [= <-]. repeat split; simpl; try done.
  rewrite dom_insert. set_solver.
Qed.

Lemma grows_get_node v : grows (get_node v).
Proof. intros s a s' [= _ <-]. apply extends_refl. Qed.

Lemma grows_get_subgraph F : grows (get_subgraph F).
Proof. intros s a s' [= _ <-]. apply extends_refl. Qed.

Lemma grows_successorsNum n : grows (successorsNum n).
Proof. intros s a s' [= _ <-]. apply extends_refl. Qed.

Lemma grows_assert b msg : grows (assert b msg).
Proof. destruct b; [apply grows_ret|apply grows_fail]. Qed.

Lemma grows_deref {A} (p : option A) : grows (deref p).
Proof. destruct p; [apply grows_ret|apply grows_fail]. Qed.

Lemma grows_getMemAllocationFunc func : grows (getMemAllocationFunc func).
Proof.
  unfold getMemAllocationFunc. destruct func as [f|]; [|apply grows_ret].
  destruct (f_name f) as [name|]; [|apply grows_ret].
  repeat (match goal with |- grows (if ?b then _ else _) => destruct b end);
    (apply grows_ret || apply grows_fail).
Qed.

(** One step of a proof that a composed computation only adds. *)
Ltac grows_step :=
  match goal with
  | |- grows (bind _ _) => apply grows_bind; [|intros ?]
  | |- grows (ret _) => apply grows_ret
  | |- grows (fail _) => apply grows_fail
  | |- grows (for_each _ _) => apply grows_for_each; intros ?
  | |- grows (fold_each _ _ _) => apply grows_fold_each; intros ? ?
  | |- grows new_RDNode => apply grows_new_RDNode
  | |- grows (addSuccessor _ _) => apply grows_addSuccessor
  | |- grows (addDef _ _ _ _ _) => apply grows_addDef
  | |- grows (log _) => apply grows_log
  | |- grows (addNode _ _) => apply grows_addNode
  | |- grows (set_mapping _ _) => apply grows_set_mapping
  | |- grows (set_subgraph _ _) => apply grows_set_subgraph
  | |- grows (get_node _) => apply grows_get_node
  | |- grows (get_subgraph _) => apply grows_get_subgraph
  | |- grows (successorsNum _) => apply grows_successorsNum
  | |- grows (assert _ _) => apply grows_assert
  | |- grows (deref _) => apply grows_deref
  | |- grows (getMemAllocationFunc _) => apply grows_getMemAllocationFunc
  | |- grows (match ?x with _ => _ end) => destruct x
  | H : _ |- _ => apply H
  end.

Ltac grows_tac := repeat grows_step.

Lemma grows_createAlloc Inst : grows (createAlloc Inst).
Proof. unfold createAlloc. grows_tac. Qed.

Lemma grows_createStore Inst op0_ty op1 :
  grows (createStore UNKNOWN_OFFSET DL PTA Inst op0_ty op1).
Proof. unfold createStore, createStore_ptr. grows_tac. Qed.

Lemma grows_blockAddSuccessors fuel blocks built_blocks pssn block :
  grows (blockAddSuccessors fuel blocks built_blocks pssn block).
Proof.
  revert block. induction fuel as [|fuel IH]; intros block; simpl; grows_tac.
Qed.

Lemma grows_buildGlobals : grows (buildGlobals Mod).
Proof. unfold buildGlobals, buildGlobals_global. grows_tac. Qed.

Section recursion.

Variable rec : Function -> M RDNode.
Hypothesis Hrec : forall Fn, grows (rec Fn).

Lemma grows_createCallToFunction CInst F :
  grows (createCallToFunction Mod rec CInst F).
Proof. unfold createCallToFunction, call_buildFunction. grows_tac. Qed.

Lemma grows_createCall CInst calledValue :
  grows (createCall Mod PTA rec CInst calledValue).
Proof.
  pose proof grows_createCallToFunction. pose proof grows_createAlloc.
  unfold createCall, createCall_ptr. grows_tac.
Qed.

Lemma grows_buildBlock block :
  grows (buildBlock UNKNOWN_OFFSET Mod DL PTA rec block).
Proof.
  pose proof grows_createCall. pose proof grows_createAlloc.
  pose proof grows_createStore.
  unfold buildBlock, buildBlock_inst. grows_tac.
Qed.

Lemma grows_createCall_ptr CInst call_funcptr ret_call ptr :
  grows (createCall_ptr Mod rec CInst call_funcptr ret_call ptr).
Proof.
  pose proof grows_createCallToFunction. unfold createCall_ptr. grows_tac.
Qed.

Lemma grows_buildBlock_inst node i :
  grows (buildBlock_inst UNKNOWN_OFFSET Mod DL PTA rec node i).
Proof.
  pose proof grows_createCall. pose proof grows_createAlloc.
  pose proof grows_createStore.
  unfold buildBlock_inst. grows_tac.
Qed.

Lemma grows_buildFunction_block acc block :
  grows (buildFunction_block UNKNOWN_OFFSET Mod DL PTA rec acc block).
Proof.
  pose proof grows_buildBlock. unfold buildFunction_block. grows_tac.
Qed.

Lemma grows_buildFunction_succs fuel blocks built_blocks rets block :
  grows (buildFunction_succs fuel blocks built_blocks rets block).
Proof.
  pose proof grows_blockAddSuccessors. unfold buildFunction_succs. grows_tac.
Qed.

Lemma grows_buildFunction_body fuel F :
  grows (buildFunction_body UNKNOWN_OFFSET Mod DL PTA rec fuel F).
Proof.
  pose proof grows_buildBlock. pose proof grows_blockAddSuccessors.
  unfold buildFunction_body, buildFunction_graph, buildFunction_block,
    buildFunction_succs.
  grows_tac.
Qed.

End recursion.

Lemma grows_buildFunction fuel F :
  grows (buildFunction UNKNOWN_OFFSET Mod DL PTA fuel F).
Proof.
  revert F. induction fuel as [|fuel IH]; intros F; [apply grows_fail|].
  by apply grows_buildFunction_body.
Qed.

(** X2. Whatever [build] and [buildFunction] return, they have only
    added to the builder: no node, edge, def-site or diagnostic was removed or
    reordered, and no key left [nodes_map], [mapping] or [subgraphs_map]. *)
Theorem build_only_adds :
  (forall fuel F s r s',
     buildFunction UNKNOWN_OFFSET Mod DL PTA fuel F s = Ok r s' -> extends s s')
  /\ (forall fuel s r s',
        build UNKNOWN_OFFSET Mod DL PTA fuel s = Ok r s' -> extends s s').
Proof.
  split; [intros fuel F; apply grows_buildFunction|].
  intros fuel. pose proof grows_buildFunction. pose proof grows_buildGlobals.
  change (grows (build UNKNOWN_OFFSET Mod DL PTA fuel)).
  unfold build. grows_tac.
Qed.

End rd_growth.

(** * What single operations record *)

Section rd_operations.

Import rd.

Variable UNKNOWN_OFFSET : N.
Variable Mod : LLVMModule.
Variable DL : DataLayout.
Variable PTA : LLVMPointsToAnalysis.

(** ** [createStore] *)

Lemma createStore_loop_result op0_ty node npts l s :
  forallb store_ptr_ok l = true ->
  for_each l (createStore_ptr UNKNOWN_OFFSET DL op0_ty node npts) s
  = Ok tt
      {| arena := arena s; edges := edges s;
         defs := defs s
                 ++ flat_map (store_def UNKNOWN_OFFSET DL op0_ty node npts
                                (nodes_map s)) l;
         nodes_map := nodes_map s; mapping := mapping s;
         subgraphs_map := subgraphs_map s;
         errs := errs s ++ flat_map (store_diagnostics (nodes_map s)) l |}.
Proof.
  revert s. induction l as [|ptr l IH]; intros s; simpl.
  - intros _. rewrite !app_nil_r. by destruct s.
  - intros [Hptr Hl]%andb_prop. unfold bind.
    unfold createStore_ptr at 1, store_def at 1, store_diagnostics at 1.
    unfold store_ptr_ok in Hptr.
    destruct (isNull ptr); simpl.
    + rewrite (IH s Hl). done.
    + simpl in Hptr. apply bool_decide_eq_true in Hptr as [v Hv]. rewrite Hv.
      unfold bind, get_node. destruct (nodes_map s !! v) as [pn|]; simpl.
      * rewrite IH by done. simpl. by rewrite <- ?app_assoc.
      * rewrite IH by done. simpl. by rewrite <- ?app_assoc.
Qed.

Lemma createStore_loop_fails op0_ty node npts l s :
  forallb store_ptr_ok l = false ->
  for_each l (createStore_ptr UNKNOWN_OFFSET DL op0_ty node npts) s
  = Fail NullDereference.
Proof.
  revert s. induction l as [|ptr l IH]; intros s; simpl; [done|].
  intros Hl. unfold bind.
  destruct (store_ptr_ok ptr) eqn:Hptr; simpl in Hl.
  - pose proof (createStore_loop_result op0_ty node npts [ptr] s) as H1.
    simpl in H1. rewrite Hptr in H1. specialize (H1 eq_refl).
    unfold bind in H1.
    destruct (createStore_ptr _ _ _ _ _ ptr s) as [[] s1|e]; [|done].
    by apply IH.
  - unfold createStore_ptr, store_ptr_ok in *.
    destruct (isNull ptr); [done|]. simpl in Hptr.
    destruct (getUserData (target ptr)); [|done].
    by rewrite bool_decide_eq_true_2 in Hptr by (by eexists).
Qed.

(** X3. What [createStore] does, in full.  Without points-to information
    for the address it fails its assertion; if some pointer that is not null
    has a target without user data it dereferences null; otherwise it
    returns one new node, registered for the store in [nodes_map], with no
    edge, and with one def-site for every pointer that is not null and whose
    allocation has a node -- in the order of the points-to set, at the
    pointer's offset -- and the two diagnostics for every other non-null
    pointer. *)
Theorem createStore_result Inst op0_ty op1 s :
  createStore UNKNOWN_OFFSET DL PTA Inst op0_ty op1 s
  = match getPointsTo PTA op1 with
    | None =>
        Fail (AssertionFailed "Don't have the points-to information for store")
    | Some pts =>
        if forallb store_ptr_ok (pointsTo pts) then
          let node := arena s in
          let nm := <[Inst := node]> (nodes_map s) in
          Ok node
            {| arena := S (arena s); edges := edges s;
               defs := defs s
                       ++ flat_map
                            (store_def UNKNOWN_OFFSET DL op0_ty node
                               (length (pointsTo pts)) nm)
                            (pointsTo pts);
               nodes_map := nm; mapping := mapping s;
               subgraphs_map := subgraphs_map s;
               errs := errs s ++ flat_map (store_diagnostics nm) (pointsTo pts) |}
        else Fail NullDereference
    end.
Proof.
  unfold createStore. unfold bind at 1. simpl. unfold bind at 1. simpl.
  destruct (getPointsTo PTA op1) as [pts|]; [|done].
  unfold bind at 1.
  destruct (forallb store_ptr_ok (pointsTo pts)) eqn:Hok.
  - by rewrite createStore_loop_result.
  - by rewrite createStore_loop_fails.
Qed.

(** ** [getMemAllocationFunc] *)

Lemma named_realloc_not_allocator f :
  named f "realloc" = true -> recognized_allocator f = false.
Proof.
  unfold recognized_allocator, named. destruct (f_name f) as [name|]; [|done].
  unfold strcmp_eq. intros ->%String.eqb_eq. reflexivity.
Qed.

(** X4. [getMemAllocationFunc] never changes the builder; it fails, on its
    assertion, exactly for a function named [realloc]; and what it returns
    is not [NONEMEM] exactly for a function named [malloc], [calloc] or
    [alloca], the names being compared as C strings. *)
Theorem getMemAllocationFunc_classifies func s :
  match getMemAllocationFunc func s with
  | Ok type s' =>
      s' = s
      /\ (MemAllocationFuncs_nonzero type = true
          <-> exists f, func = Some f /\ recognized_allocator f = true)
      /\ (forall f, func = Some f -> named f "realloc" = false)
  | Fail e =>
      e = AssertionFailed "realloc not implemented yet"
      /\ exists f, func = Some f /\ named f "realloc" = true
  end.
Proof.
  destruct func as [f|]; simpl.
  - pose proof (named_realloc_not_allocator f) as Hre.
    unfold recognized_allocator, named in *.
    destruct (f_name f) as [name|] eqn:Ename; simpl.
    + destruct (strcmp_eq name "malloc") eqn:E1; simpl.
      { split; [done|]. split; [|intros ? [= <-]; rewrite Ename;
          by destruct (strcmp_eq name "realloc"); [specialize (Hre eq_refl)|]].
        split; [|done]. intros _. exists f. by rewrite Ename, E1. }
      destruct (strcmp_eq name "calloc") eqn:E2; simpl.
      { split; [done|]. split; [|intros ? [= <-]; rewrite Ename;
          by destruct (strcmp_eq name "realloc"); [specialize (Hre eq_refl)|]].
        split; [|done]. intros _. exists f. by rewrite Ename, E1, E2. }
      destruct (strcmp_eq name "alloca") eqn:E3; simpl.
      { split; [done|]. split; [|intros ? [= <-]; rewrite Ename;
          by destruct (strcmp_eq name "realloc"); [specialize (Hre eq_refl)|]].
        split; [|done]. intros _. exists f. by rewrite Ename, E1, E2, E3. }
      destruct (strcmp_eq name "realloc") eqn:E4; simpl.
      { split; [done|]. exists f. by rewrite Ename. }
      split; [done|]. split; [|by intros ? [= <-]; rewrite Ename].
      split; [done|]. intros (f' & [= <-] & H). by rewrite Ename, E1, E2, E3 in H.
    + split; [done|]. split; [|by intros ? [= <-]; rewrite Ename].
      split; [done|]. intros (f' & [= <-] & H). by rewrite Ename in H.
  - split; [done|]. split; [|done]. split; [done|]. by intros (f & ? & _).
Qed.

(** ** [createCallToFunction] *)

Lemma createCallToFunction_post buildFunction_rec CInst F s callNode returnNode s' :
  createCallToFunction Mod buildFunction_rec CInst F s
  = Ok (callNode, returnNode) s' ->
  returnNode = arena s /\ callNode = S (arena s)
  /\ exists a root ret_ s4,
       F = Some a
       /\ subgraphs_map s4 !! a
          = Some {| sg_root := Some root; sg_ret := Some ret_ |}
       /\ s' = add_edges [(callNode, root); (ret_, returnNode)] s4.
Proof.
  unfold createCallToFunction.
  intros (r & s1 & [= <- <-] & (c & s2 & [= <- <-] & H)%bind_Ok)%bind_Ok.
  apply bind_Ok in H as (subg0 & s3 & [= <- <-] & H).
  apply bind_Ok in H as (subg & s4 & Hsubg & H).
  assert (get_subgraph F s4 = Ok subg s4) as Hget.
  { destruct (sg_root _) eqn:E in Hsubg.
    - by injection Hsubg as <- <-.
    - by apply bind_Ok in Hsubg as (_ & s5 & _ & [= <- <-]). }
  clear Hsubg. injection Hget as Hget.
  destruct (sg_root subg) as [root|] eqn:Eroot;
    [|by apply bind_Ok in H as ([] & s5 & Hassert & _)].
  destruct (sg_ret subg) as [ret_|] eqn:Eret;
    [|by apply bind_Ok in H as ([] & s5 & Hassert & _)].
  rewrite !bool_decide_eq_true_2 in H by (by eexists).
  apply bind_Ok in H as ([] & s5 & [= <-] & H).
  apply bind_Ok in H as (? & s6 & [= <- <-] & H).
  apply bind_Ok in H as (? & s7 & [= <- <-] & H).
  apply bind_Ok in H as ([] & s8 & [= <-] & H).
  apply bind_Ok in H as ([] & s9 & [= <-] & [= <- <- <-]).
  split; [done|]. split; [done|].
  destruct F as [a|]; [|by rewrite <- Hget in Eroot].
  exists a, root, ret_, s4. split; [done|].
  split; [|unfold add_edges; simpl; by rewrite <- app_assoc].
  destruct (subgraphs_map s4 !! a) as [sg|]; [|by rewrite <- Hget in Eroot].
  simpl in Hget. subst sg. by destruct subg; simpl in *; subst.
Qed.

(** X5. When [createCallToFunction] returns, whether it found the subgraph
    of the callee or had it built, the pair is the two nodes it allocated
    first (the return node, then the call node), the callee has a record
    with both a root and a return node, and the last two edges of the graph
    are [callNode -> root] and [ret -> returnNode]. *)
Theorem createCallToFunction_wiring buildFunction_rec CInst F s callNode returnNode s' :
  createCallToFunction Mod buildFunction_rec CInst F s
  = Ok (callNode, returnNode) s' ->
  returnNode = arena s /\ callNode = S (arena s)
  /\ exists a root ret_ es,
       F = Some a
       /\ subgraphs_map s' !! a
          = Some {| sg_root := Some root; sg_ret := Some ret_ |}
       /\ edges s' = es ++ [(callNode, root); (ret_, returnNode)].
Proof.
  intros (Hret & Hcall & a & root & ret_ & s4 & HF & Hsg & ->)
         %createCallToFunction_post.
  split; [done|]. split; [done|].
  exists a, root, ret_, (edges s4). split; [done|]. split; [|done].
  exact Hsg.
Qed.

End rd_operations.

(** * The shape of what is built *)

Section rd_structure.

Import rd.

Variable UNKNOWN_OFFSET : N.
Variable Mod : LLVMModule.
Variable DL : DataLayout.
Variable PTA : LLVMPointsToAnalysis.

Lemma chain_S a k : chain a (S k) = (a, S a) :: chain (S a) k.
Proof. reflexivity. Qed.

Lemma chain_snoc a k : chain a (S k) = chain a k ++ [(a + k, S (a + k))].
Proof.
  unfold chain. rewrite seq_S, map_app. done.
Qed.

(** ** [buildGlobals] *)

Lemma buildGlobals_loop gs cur first s :
  exists s',
    fold_each gs buildGlobals_global (cur, first) s
    = Ok (match gs with [] => cur | _ => Some (arena s + length gs - 1) end,
          match cur, gs with None, _ :: _ => Some (arena s) | _, _ => first end)
         s'
    /\ arena s' = arena s + length gs
    /\ edges s'
       = edges s
         ++ match cur, gs with Some p, _ :: _ => [(p, arena s)] | _, _ => [] end
         ++ chain (arena s) (length gs - 1)
    /\ defs s' = defs s /\ mapping s' = mapping s
    /\ subgraphs_map s' = subgraphs_map s /\ errs s' = errs s
    /\ (forall j g, gs !! j = Some g -> g ∉ drop (S j) gs ->
                    nodes_map s' !! g = Some (arena s + j))
    /\ (forall v, v ∉ gs -> nodes_map s' !! v = nodes_map s !! v).
Proof.
  revert cur first s. induction gs as [|g gs IH]; intros cur first s.
  - exists s. simpl. rewrite Nat.add_0_r.
    destruct cur; simpl; rewrite ?app_nil_r; repeat split; try done.
    all: intros j g Hj; by rewrite lookup_nil in Hj.
  - set (s1 := {| arena := S (arena s);
                  edges := edges s ++ match cur with
                                      | Some p => [(p, arena s)]
                                      | None => []
                                      end;
                  defs := defs s;
                  nodes_map := <[g := arena s]> (nodes_map s);
                  mapping := mapping s; subgraphs_map := subgraphs_map s;
                  errs := errs s |}).
    destruct (IH (Some (arena s))
                (match cur with None => Some (arena s) | Some _ => first end) s1)
      as (s' & Hrun & Ha & He & Hd & Hm & Hg & Hr & Hin & Hout).
    exists s'.
    assert (fold_each (g :: gs) buildGlobals_global (cur, first) s
            = fold_each gs buildGlobals_global
                (Some (arena s),
                 match cur with None => Some (arena s) | Some _ => first end) s1)
      as ->.
    { simpl. unfold bind at 1. unfold buildGlobals_global at 1.
      unfold bind at 1. simpl. unfold bind at 1. simpl.
      destruct cur as [p|]; simpl; [done|].
      unfold s1. simpl. by rewrite app_nil_r. }
    split.
    { etrans; [exact Hrun|]. unfold s1. simpl.
      destruct gs, cur; simpl; try done; do 3 f_equal; lia. }
    simpl in *.
    split; [lia|]. split.
    { rewrite He, <- app_assoc. f_equal. rewrite Nat.sub_0_r.
      destruct cur as [p|], gs as [|g' gs]; simpl; rewrite ?app_nil_r; try done.
      - rewrite Nat.sub_0_r. by rewrite chain_S.
      - rewrite Nat.sub_0_r. by rewrite chain_S. }
    repeat split; try done.
    + intros [|j] g' Hj Hlater; simpl in *.
      * injection Hj as <-. rewrite Hout by done.
        by rewrite lookup_insert_eq, Nat.add_0_r.
      * rewrite (Hin j g' Hj Hlater). f_equal. lia.
    + intros v Hv. rewrite Hout by (intros ?; apply Hv; by right).
      rewrite lookup_insert_ne; [done|]. intros ->. apply Hv. by left.
Qed.

Lemma buildGlobals_post s :
  let n := length (globals Mod) in
  exists s',
    buildGlobals Mod s
    = Ok (match globals Mod with [] => None | _ => Some (arena s) end,
          match globals Mod with [] => None | _ => Some (arena s + n - 1) end)
         s'
    /\ arena s' = arena s + n
    /\ edges s' = edges s ++ chain (arena s) (n - 1)
    /\ subgraphs_map s' = subgraphs_map s.
Proof.
  intros n.
  destruct (buildGlobals_loop (globals Mod) None None s)
    as (s' & Hrun & Ha & He & _ & _ & Hsg & _).
  exists s'. unfold buildGlobals. unfold bind at 1. rewrite Hrun.
  split; [by destruct (globals Mod)|]. split; [done|]. split; [|done].
  rewrite He. by destruct (globals Mod).
Qed.

(** X6. [buildGlobals] always returns.  For [n] globals it allocates [n]
    nodes, one per global in declaration order, links each to the next, and
    returns the first and the last of them ([(null, null)] when there is no
    global); every global whose address does not occur again later in the
    list is registered in [nodes_map] with its node, and nothing else of the
    builder changes. *)
Theorem buildGlobals_chain s :
  let n := length (globals Mod) in
  exists s',
    buildGlobals Mod s
    = Ok (match globals Mod with [] => None | _ => Some (arena s) end,
          match globals Mod with [] => None | _ => Some (arena s + n - 1) end)
         s'
    /\ arena s' = arena s + n
    /\ edges s' = edges s ++ chain (arena s) (n - 1)
    /\ defs s' = defs s /\ mapping s' = mapping s
    /\ subgraphs_map s' = subgraphs_map s /\ errs s' = errs s
    /\ (forall j g, globals Mod !! j = Some g -> g ∉ drop (S j) (globals Mod) ->
                    nodes_map s' !! g = Some (arena s + j))
    /\ (forall v, v ∉ globals Mod -> nodes_map s' !! v = nodes_map s !! v).
Proof.
  intros n.
  destruct (buildGlobals_loop (globals Mod) None None s)
    as (s' & Hrun & Ha & He & Hrest).
  exists s'. unfold buildGlobals. unfold bind at 1. rewrite Hrun.
  split; [by destruct (globals Mod)|]. split; [done|]. split; [|done].
  rewrite He. by destruct (globals Mod).
Qed.

(** ** [buildBlock] on a block without calls *)

Lemma createAlloc_result Inst s :
  createAlloc Inst s
  = Ok (arena s)
       {| arena := S (arena s); edges := edges s; defs := defs s;
          nodes_map := <[Inst := arena s]> (nodes_map s);
          mapping := mapping s; subgraphs_map := subgraphs_map s;
          errs := errs s |}.
Proof. reflexivity. Qed.

Lemma createStore_Ok Inst op0_ty op1 s node s' :
  createStore UNKNOWN_OFFSET DL PTA Inst op0_ty op1 s = Ok node s' ->
  node = arena s /\ arena s' = S (arena s) /\ edges s' = edges s
  /\ nodes_map s' = <[Inst := arena s]> (nodes_map s)
  /\ mapping s' = mapping s /\ subgraphs_map s' = subgraphs_map s.
Proof.
  unfold createStore.
  intros (n & s1 & [= <- <-] & ([] & s2 & [= <-] & H)%bind_Ok)%bind_Ok.
  destruct (getPointsTo PTA op1) as [pts|]; [|done].
  apply bind_Ok in H as ([] & s3 & Hloop & [= <- <-]).
  apply (for_each_preserves (adds_defs (arena s) (fun _ => True))) in Hloop.
  - by destruct Hloop as (-> & -> & -> & -> & -> & _).
  - apply adds_defs_refl.
  - apply adds_defs_trans.
  - intros ptr t t' _ Hptr.
    apply (createStore_ptr_adds UNKNOWN_OFFSET DL) in Hptr.
    destruct Hptr as (? & ? & ? & ? & ? & added & ? & Hf).
    repeat split; try done. exists added. split; [done|].
    eapply Forall_impl; [done|]. by intros ? [? _].
Qed.

Lemma buildBlock_inst_call_free buildFunction_rec node i s node' s' :
  call_free i = true ->
  arena s = S node ->
  buildBlock_inst UNKNOWN_OFFSET Mod DL PTA buildFunction_rec node i s
  = Ok node' s' ->
  let k := if emits_one i then 1 else 0 in
  node' = node + k /\ arena s' = arena s + k
  /\ edges s' = edges s ++ chain node k.
Proof.
  intros Hfree Harena. unfold buildBlock_inst.
  intros ([] & s1 & [= <-] & ([prev n] & s2 & Hi & H)%bind_Ok)%bind_Ok.
  destruct i as [a|a ty op1|a|a [] called|a]; try done; simpl.
  - rewrite bind_Ok in Hi. destruct Hi as (n' & s3 & Hc & [= <- <- <-]).
    rewrite createAlloc_result in Hc. injection Hc as <- <-. simpl in *.
    rewrite Harena in H.
    rewrite (proj2 (Nat.eqb_neq node (S node))) in H by lia. simpl in H.
    apply bind_Ok in H as ([] & s4 & [= <-] & [= <- <-]). simpl.
    rewrite Harena. split; [lia|]. split; [lia|]. done.
  - rewrite bind_Ok in Hi. destruct Hi as (n' & s3 & Hc & [= <- <- <-]).
    apply createStore_Ok in Hc as (-> & Ha & He & _). simpl in *.
    rewrite Harena in H.
    rewrite (proj2 (Nat.eqb_neq node (S node))) in H by lia. simpl in H.
    apply bind_Ok in H as ([] & s4 & [= <-] & [= <- <-]). simpl.
    rewrite Ha, He, Harena. split; [lia|]. split; [lia|]. done.
  - rewrite bind_Ok in Hi. destruct Hi as (n' & s3 & Hc & [= <- <- <-]).
    rewrite createAlloc_result in Hc. injection Hc as <- <-. simpl in *.
    rewrite Harena in H.
    rewrite (proj2 (Nat.eqb_neq node (S node))) in H by lia. simpl in H.
    apply bind_Ok in H as ([] & s4 & [= <-] & [= <- <-]). simpl.
    rewrite Harena. split; [lia|]. split; [lia|]. done.
  - injection Hi as <- <- <-. rewrite Nat.eqb_refl in H. simpl in H.
    apply bind_Ok in H as ([] & s4 & [= <-] & [= <- <-]). simpl.
    rewrite app_nil_r. split; [lia|]. split; [lia|]. done.
  - injection Hi as <- <- <-. rewrite Nat.eqb_refl in H. simpl in H.
    apply bind_Ok in H as ([] & s4 & [= <-] & [= <- <-]). simpl.
    rewrite app_nil_r. split; [lia|]. split; [lia|]. done.
Qed.

Lemma chain_app a k1 k2 : chain a (k1 + k2) = chain a k1 ++ chain (a + k1) k2.
Proof. unfold chain. by rewrite seq_app, map_app. Qed.

Lemma buildBlock_insts_call_free buildFunction_rec insts node s node' s' :
  forallb call_free insts = true ->
  arena s = S node ->
  fold_each insts (buildBlock_inst UNKNOWN_OFFSET Mod DL PTA buildFunction_rec)
    node s = Ok node' s' ->
  node' = node + emitted insts /\ arena s' = arena s + emitted insts
  /\ edges s' = edges s ++ chain node (emitted insts).
Proof.
  revert node s. induction insts as [|i insts IH]; intros node s; simpl.
  - intros _ _ [= <- <-]. rewrite !Nat.add_0_r, app_nil_r. done.
  - intros [Hi Hfree]%andb_prop Harena (n1 & s1 & H1 & H2)%bind_Ok.
    destruct (buildBlock_inst_call_free _ _ _ _ _ _ Hi Harena H1)
      as (-> & Ha1 & He1).
    apply IH in H2 as (-> & Ha2 & He2); [|done|].
    + unfold emitted in *. simpl.
      destruct (emits_one i); simpl in *.
      * rewrite Ha2, Ha1, He2, He1, <- app_assoc.
        split; [lia|]. split; [lia|].
        f_equal. change (S (length (List.filter emits_one insts)))
          with (1 + length (List.filter emits_one insts)).
        by rewrite chain_app.
      * rewrite Ha2, Ha1, He2, He1, app_nil_r, Nat.add_0_r.
        split; [lia|]. split; [lia|]. done.
    + rewrite Ha1, Harena. destruct (emits_one i); lia.
Qed.

(** X7. In a block without calls, [buildBlock] numbers its nodes
    consecutively -- the dummy first node, then one node for every alloca,
    store and ret in order -- links each node to the next and adds no other
    edge, and exports the first and the last of them. *)
Theorem buildBlock_call_free_chain buildFunction_rec block s r s' :
  forallb call_free (bb_insts block) = true ->
  buildBlock UNKNOWN_OFFSET Mod DL PTA buildFunction_rec block s = Ok r s' ->
  let k := emitted (bb_insts block) in
  r = (Some (arena s), Some (arena s + k))
  /\ arena s' = S (arena s + k)
  /\ edges s' = edges s ++ chain (arena s) k.
Proof.
  intros Hfree. unfold buildBlock.
  intros (n & s1 & [= <- <-] & (last & s2 & Hloop & [= <- <-])%bind_Ok)%bind_Ok.
  apply buildBlock_insts_call_free in Hloop as (-> & Ha & He); [|done|done].
  simpl in *. split; [done|]. split; [lia|done].
Qed.

(** ** [blockAddSuccessors] *)

Lemma blockAddSuccessors_built_edges fuel blocks built_blocks first last block s :
  (forall S_, S_ ∈ bb_succs block ->
              exists p q, built_blocks !! S_ = Some (Some p, Some q)) ->
  blockAddSuccessors (S fuel) blocks built_blocks (first, Some last) block s
  = Ok (length (bb_succs block))
       (add_edges (omap (fun S_ => pair last <$> first_of built_blocks S_)
                     (bb_succs block)) s).
Proof.
  simpl. change (length (bb_succs block)) with (0 + length (bb_succs block)).
  generalize 0. intros num Hbuilt. revert s num.
  induction (bb_succs block) as [|S_ succs IH]; intros s num; simpl.
  - rewrite Nat.add_0_r. unfold add_edges. simpl. rewrite app_nil_r.
    by destruct s.
  - destruct (Hbuilt S_) as (p & q & Hs); [left|].
    unfold bind at 1. rewrite Hs. simpl.
    specialize (IH (fun S' HS' => Hbuilt S' (list_elem_of_further _ _ _ HS'))).
    rewrite IH. unfold first_of at 2. rewrite Hs. simpl.
    unfold add_edges. simpl. rewrite <- app_assoc. simpl.
    f_equal. lia.
Qed.

(** X8. [blockAddSuccessors] adds, for a block all of whose successors
    were built, one edge from the last node of the block to the first node of
    each successor, in order, and returns their number.  A successor that was
    not built is looked through: if it is the only successor, the result is
    what [blockAddSuccessors] gives for that successor itself, with the same
    last node. *)
Theorem blockAddSuccessors_edges fuel blocks built_blocks first last s :
  (forall block,
     (forall S_, S_ ∈ bb_succs block ->
                 exists p q, built_blocks !! S_ = Some (Some p, Some q)) ->
     blockAddSuccessors (S fuel) blocks built_blocks (first, Some last) block s
     = Ok (length (bb_succs block))
          (add_edges (omap (fun S_ => pair last <$> first_of built_blocks S_)
                        (bb_succs block)) s))
  /\ (forall block S_ succ_block,
        bb_succs block = [S_] ->
        default (None, None) (built_blocks !! S_) = (None, None) ->
        find (fun b => Nat.eqb (bb_addr b) S_) blocks = Some succ_block ->
        blockAddSuccessors (S fuel) blocks built_blocks (first, Some last)
          block s
        = blockAddSuccessors fuel blocks built_blocks (first, Some last)
            succ_block s).
Proof.
  split; [intros block; apply blockAddSuccessors_built_edges|].
  intros block S_ succ_block Hsuccs Hnone Hfind.
  simpl. rewrite Hsuccs. simpl. unfold bind at 1. rewrite Hnone. simpl.
  rewrite Hfind. unfold bind, ret.
  by destruct (blockAddSuccessors fuel _ _ _ succ_block s).
Qed.

(** X9. On a block that was not built and is its own first successor,
    [blockAddSuccessors] recurses without end: whatever the fuel, it is
    exhausted. *)
Theorem blockAddSuccessors_unbuilt_cycle fuel blocks built_blocks pssn block rest s :
  bb_succs block = bb_addr block :: rest ->
  default (None, None) (built_blocks !! bb_addr block) = (None, None) ->
  find (fun b => Nat.eqb (bb_addr b) (bb_addr block)) blocks = Some block ->
  blockAddSuccessors fuel blocks built_blocks pssn block s = Fail OutOfFuel.
Proof.
  intros Hsuccs Hnone Hfind. revert s.
  induction fuel as [|fuel IH]; intros s; simpl; [done|].
  rewrite Hsuccs. simpl. unfold bind at 1. unfold bind at 1.
  rewrite Hnone. simpl. rewrite Hfind. unfold bind at 1. by rewrite IH.
Qed.

(** ** Direct and indirect calls to a function that was built *)

Lemma getMemAllocationFunc_not_allocator func s :
  recognized_allocator func = false -> named func "realloc" = false ->
  getMemAllocationFunc (Some func) s = Ok NONEMEM s.
Proof.
  unfold recognized_allocator, named, getMemAllocationFunc.
  destruct (f_name func) as [name|]; [|done].
  destruct (strcmp_eq name "malloc"); [done|].
  destruct (strcmp_eq name "calloc"); [done|].
  destruct (strcmp_eq name "alloca"); [done|].
  by intros _ ->.
Qed.

(** X10. A call to a function whose subgraph is in the cache gives the same
    two nodes and the same two edges whether it is direct or goes through a
    function pointer with a single target; but only the direct call
    registers the call instruction in [nodes_map]: after the indirect call
    [nodes_map] is as it was. *)
Theorem createCall_single_target_not_registered
    buildFunction_rec CInst direct indirect func op ptr root ret_ s :
  dyn_cast_Function Mod (stripPointerCasts Mod direct) = Some func ->
  recognized_allocator func = false -> named func "realloc" = false ->
  f_blocks func <> [] -> isIntrinsic func = false ->
  dyn_cast_Function Mod (stripPointerCasts Mod indirect) = None ->
  getPointsTo PTA (stripPointerCasts Mod indirect) = Some op ->
  pointsTo op = [ptr] ->
  getUserData (target ptr) = Some (f_addr func) ->
  subgraphs_map s !! f_addr func
  = Some {| sg_root := Some root; sg_ret := Some ret_ |} ->
  let s' := {| arena := S (S (arena s));
               edges := edges s ++ [(S (arena s), root)] ++ [(ret_, arena s)];
               defs := defs s; nodes_map := nodes_map s; mapping := mapping s;
               subgraphs_map := subgraphs_map s; errs := errs s |} in
  createCall Mod PTA buildFunction_rec CInst indirect s
  = Ok (S (arena s), arena s) s'
  /\ createCall Mod PTA buildFunction_rec CInst direct s
     = Ok (S (arena s), arena s)
          {| arena := arena s'; edges := edges s'; defs := defs s';
             nodes_map := <[CInst := S (arena s)]> (nodes_map s');
             mapping := mapping s'; subgraphs_map := subgraphs_map s';
             errs := errs s' |}.
Proof.
  intros Hd Halloc Hre Hbody Hintr Hi Hop Hpts Hud Hsg s'.
  pose proof (createCallToFunction_cached Mod buildFunction_rec CInst _ _ _ _ Hsg)
    as Hcall.
  split.
  - unfold createCall. rewrite Hi, Hop, Hpts. simpl.
    unfold bind at 1. simpl. unfold bind at 1. simpl. rewrite Hud.
    unfold bind at 1. by rewrite Hcall.
  - unfold createCall. rewrite Hd.
    unfold bind at 1.
    rewrite (getMemAllocationFunc_not_allocator func s Halloc Hre). simpl.
    assert ((length (f_blocks func) =? 0) = false) as ->
      by (by destruct (f_blocks func)).
    rewrite Hintr. simpl. unfold bind at 1. by rewrite Hcall.
Qed.

(** ** The entry of the graph *)

Lemma buildFunction_blocks_first rec l built f s acc' s' :
  fold_each l (buildFunction_block UNKNOWN_OFFSET Mod DL PTA rec)
    (built, Some f) s = Ok acc' s' ->
  snd acc' = Some f.
Proof.
  revert built s. induction l as [|b l IH]; intros built s; simpl.
  - by intros [= <- _].
  - intros (acc1 & s1 & Hb & Hl)%bind_Ok.
    unfold buildFunction_block in Hb.
    apply bind_Ok in Hb as (nds & s2 & Hnds & (? & s3 & _ & Hb)%bind_Ok).
    destruct (buildBlock_first _ _ _ _ _ _ _ _ _ Hnds) as (last & ->).
    simpl in Hb. injection Hb as <- _. by eapply IH.
Qed.

Lemma buildFunction_graph_entry rec fuel F root ret_ s r s' :
  buildFunction_graph UNKNOWN_OFFSET Mod DL PTA rec fuel F root ret_ s
  = Ok r s' ->
  f_blocks F <> [] /\ (root, arena s) ∈ edges s'.
Proof.
  unfold buildFunction_graph.
  intros ([built first] & s1 & Hblocks & H)%bind_Ok.
  assert (f_blocks F <> [] /\ first = Some (arena s)) as [Hne ->].
  { destruct (f_blocks F) as [|b l].
    - injection Hblocks as <- <- <-. by apply bind_Ok in H as ([] & ? & ? & _).
    - split; [done|]. simpl in Hblocks.
      apply bind_Ok in Hblocks as (acc1 & s2 & Hb & Hl).
      unfold buildFunction_block in Hb.
      apply bind_Ok in Hb as (nds & s3 & Hnds & (? & s4 & _ & Hb)%bind_Ok).
      destruct (buildBlock_first _ _ _ _ _ _ _ _ _ Hnds) as (last & ->).
      simpl in Hb. injection Hb as <- _.
      by apply buildFunction_blocks_first in Hl. }
  split; [done|].
  apply bind_Ok in H as ([] & s2 & [= <-] & H).
  apply bind_Ok in H as (first' & s3 & [= <- <-] & H).
  apply bind_Ok in H as ([] & s4 & [= <-] & H).
  apply bind_Ok in H as (rets & s5 & Hsuccs & H).
  apply bind_Ok in H as ([] & s6 & Hassert & H).
  apply bind_Ok in H as ([] & s7 & Hrets & [= _ <-]).
  apply grows_fold_each in Hsuccs;
    [|intros; apply grows_buildFunction_succs].
  apply grows_assert in Hassert.
  apply grows_for_each in Hrets;
    [|intros r0; apply grows_bind; [apply grows_deref|];
      intros; apply grows_addSuccessor].
  destruct (extends_trans _ _ _ Hsuccs (extends_trans _ _ _ Hassert Hrets))
    as (_ & [es ->] & _).
  simpl. set_solver.
Qed.

Lemma successorsNum_pos n m es :
  (n, m) ∈ es -> 0 < length (filter (fun e : RDNode * RDNode => fst e = n) es).
Proof.
  intros Hin.
  assert ((n, m) ∈ filter (fun e : RDNode * RDNode => fst e = n) es) as Hf
    by (by apply list_elem_of_filter).
  destruct (filter _ es); [by apply elem_of_nil in Hf|simpl; lia].
Qed.

(** X11. On a well-formed module whose [main] has a body, [build] from a
    builder without subgraph records returns, with as much fuel as the
    module has functions, and what it returns is the node it allocated
    first: the first global's node when there are globals, the root of
    [main] otherwise.  The root of [main] comes right after the [n] global
    nodes and has the first node of the entry block as successor, so that
    the final assertion on [successorsNum] holds; with globals, the edge
    from the last global to that root is the last one added. *)
Theorem build_entry main s :
  wf_module Mod PTA = true ->
  getFunction Mod "main" = Some main ->
  f_blocks main <> [] ->
  subgraphs_map s = ∅ ->
  let n := length (globals Mod) in
  let root := arena s + n in
  exists s',
    build UNKNOWN_OFFSET Mod DL PTA (length (functions Mod)) s
    = Ok (arena s) s'
    /\ subgraphs_map s' !! f_addr main
       = Some {| sg_root := Some root; sg_ret := Some (S root) |}
    /\ (root, S (S root)) ∈ edges s'
    /\ (0 < n ->
        exists es,
          edges s'
          = edges s ++ chain (arena s) (n - 1) ++ es ++ [(root - 1, root)]).
Proof.
  intros Hwf Hmain Hbody Hempty n root. unfold build. rewrite Hmain.
  apply find_some in Hmain as [Hin%list_elem_of_In _].
  destruct (buildGlobals_post s) as (s1 & Hglob & Ha1 & He1 & Hsg1).
  fold n in Hglob, Ha1, He1.
  assert (built s1 (f_addr main) = false) as Hun
    by (unfold built; by rewrite Hsg1, Hempty, lookup_empty).
  destruct (buildFunction_rec_succeeds UNKNOWN_OFFSET Mod DL PTA
              (length (functions Mod)) Hwf main s1 Hin Hbody Hun)
    as (r & s2 & Hr & _).
  { intros F sg. by rewrite Hsg1, Hempty, lookup_empty. }
  { apply unbuilt_le. }
  destruct (length (functions Mod)) as [|fuel]; [done|].
  unfold bind at 1. rewrite Hglob. unfold bind at 1. rewrite Hr.
  pose proof (grows_buildFunction UNKNOWN_OFFSET Mod DL PTA _ _ _ _ _ Hr)
    as (_ & [es Hes] & _).
  rewrite buildFunction_unfold in Hr.
  pose proof (buildFunction_graph_root _ _ _ _ _ _ _ _ _ _ _ _ Hr) as ->.
  destruct (buildFunction_graph_entry _ _ _ _ _ _ _ _ Hr) as [_ Hentry].
  assert (subgraphs_map s2 !! f_addr main
          = Some {| sg_root := Some root; sg_ret := Some (S root) |}) as Hrec.
  { destruct (bounded_buildFunction_graph UNKNOWN_OFFSET Mod DL PTA fuel _
                (buildFunction_rec_bounded UNKNOWN_OFFSET Mod DL PTA fuel)
                fuel main (arena s1) (S (arena s1))
                (with_subgraph_record (f_addr main) s1)) as [_ H3].
    unfold root. rewrite <- Ha1.
    apply (H3 _ _ Hr); [|by eexists]. simpl. by rewrite lookup_insert_eq. }
  simpl in Hentry. rewrite Ha1 in Hentry. fold root in Hentry.
  destruct (globals Mod) as [|g gs] eqn:Eglob; simpl.
  - exists s2. subst n root. simpl in *.
    replace (arena s + 0) with (arena s) in * by lia. rewrite Ha1.
    split; [done|]. split; [done|]. split; [done|]. lia.
  - unfold bind, ret, successorsNum. simpl.
    erewrite (proj2 (Nat.ltb_lt 0 _)).
    2:{ apply (successorsNum_pos _ (S (S root))). rewrite Ha1.
        apply elem_of_app. by left. }
    eexists. split; [done|]. simpl.
    split; [done|]. split; [apply elem_of_app; by left|]. intros _. exists es.
    rewrite Hes, He1, Ha1, <- !app_assoc. fold root.
    by subst n.
Qed.

(** ** The fan-out of an indirect call *)

Lemma for_each_elem {A} (R : Builder -> Builder -> Prop)
    (body : A -> M unit) (l : list A) x :
  (forall s, R s s) ->
  (forall s1 s2 s3, R s1 s2 -> R s2 s3 -> R s1 s3) ->
  (forall y s s', body y s = Ok tt s' -> R s s') ->
  x ∈ l ->
  forall s s', for_each l body s = Ok tt s' ->
  exists s1 s2, body x s1 = Ok tt s2 /\ R s2 s'.
Proof.
  intros Hrefl Htrans Hbody. induction l as [|y l IH]; intros Hx s s'; simpl.
  - by apply elem_of_nil in Hx.
  - intros ([] & s1 & H1 & H2)%bind_Ok.
    apply elem_of_cons in Hx as [->|Hx].
    + exists s, s1. split; [done|].
      by apply (for_each_preserves R body l Hrefl Htrans (fun y _ _ _ => Hbody y _ _)).
    + by apply (IH Hx s1).
Qed.

Lemma fold_each_elem {A S} (R : Builder -> Builder -> Prop)
    (body : S -> A -> M S) (l : list A) x :
  (forall s, R s s) ->
  (forall s1 s2 s3, R s1 s2 -> R s2 s3 -> R s1 s3) ->
  (forall acc y acc' s s', body acc y s = Ok acc' s' -> R s s') ->
  x ∈ l ->
  forall acc acc' s s', fold_each l body acc s = Ok acc' s' ->
  exists acc1 s1 acc2 s2, body acc1 x s1 = Ok acc2 s2 /\ R s2 s'.
Proof.
  intros Hrefl Htrans Hbody.
  induction l as [|y l IH]; intros Hx acc acc' s s'; simpl.
  - by apply elem_of_nil in Hx.
  - intros (acc1 & s1 & H1 & H2)%bind_Ok.
    apply elem_of_cons in Hx as [->|Hx].
    + exists acc, s, acc1, s1. split; [done|].
      by apply (fold_each_preserves R body l Hrefl Htrans
                  (fun a y a' _ _ _ => Hbody a y a' _ _) _ _ _ _ H2).
    + by apply (IH Hx acc1 acc' s1).
Qed.

(** X12. When the fan-out of an indirect call with several possible callees
    returns, its pair is the two nodes it allocated first, and every pointer
    of the points-to set that is not null has its callee wired in: the
    callee has a subgraph record, and there are a call node and a return
    node with the edges call -> callee's call node -> callee's root and
    callee's return -> callee's return node -> return. *)
Theorem createCall_fanout_wiring fuel CInst calledValue op s call ret_call s' :
  dyn_cast_Function Mod (stripPointerCasts Mod calledValue) = None ->
  getPointsTo PTA (stripPointerCasts Mod calledValue) = Some op ->
  1 < length (pointsTo op) ->
  createCall Mod PTA (buildFunction UNKNOWN_OFFSET Mod DL PTA fuel) CInst
    calledValue s = Ok (call, ret_call) s' ->
  call = arena s /\ ret_call = S (arena s)
  /\ forall ptr,
       ptr ∈ pointsTo op -> isNull ptr = false ->
       exists a root ret_ c r,
         getUserData (target ptr) = Some a
         /\ subgraphs_map s' !! a
            = Some {| sg_root := Some root; sg_ret := Some ret_ |}
         /\ (call, c) ∈ edges s' /\ (c, root) ∈ edges s'
         /\ (ret_, r) ∈ edges s' /\ (r, ret_call) ∈ edges s'.
Proof.
  intros Hfunc Hop Hlen. unfold createCall. rewrite Hfunc, Hop.
  apply Nat.ltb_lt in Hlen. rewrite Hlen.
  intros ([] & s1 & Hassert & (c0 & s2 & Hc & H)%bind_Ok)%bind_Ok.
  assert (s1 = s) as ->.
  { unfold assert in Hassert. destruct (negb _); [|done].
    by injection Hassert. }
  injection Hc as <- <-.
  apply bind_Ok in H as (r0 & s3 & [= <- <-] & H).
  apply bind_Ok in H as ([] & s4 & [= <-] & H).
  apply bind_Ok in H as ([] & s5 & Hloop & [= <- <- <-]).
  split; [done|]. split; [done|].
  intros ptr Hptr Hnull.
  set (rec := buildFunction UNKNOWN_OFFSET Mod DL PTA fuel) in *.
  set (R := fun t t' : Builder => extends t t' /\ stable t t').
  assert (forall t, R t t) as Hrefl
    by (intros t; split; [apply extends_refl|apply stable_refl]).
  assert (forall t1 t2 t3, R t1 t2 -> R t2 t3 -> R t1 t3) as Htrans.
  { intros t1 t2 t3 [? ?] [? ?].
    split; [by eapply extends_trans|by eapply stable_trans]. }
  assert (forall y t t',
            createCall_ptr Mod rec CInst (arena s) (S (arena s)) y t = Ok tt t' ->
            R t t') as Hbody.
  { intros y t t' Hy. split.
    - eapply grows_createCall_ptr; [|exact Hy].
      intros Fn. apply grows_buildFunction.
    - destruct (bounded_createCall_ptr Mod fuel rec
                  (buildFunction_rec_bounded UNKNOWN_OFFSET Mod DL PTA fuel)
                  CInst (arena s) (S (arena s)) y t) as [_ Hstable].
      by eapply Hstable. }
  destruct (for_each_elem R _ _ ptr Hrefl Htrans Hbody Hptr _ _ Hloop)
    as (t1 & t2 & Hcall & Hext & Hst).
  unfold createCall_ptr in Hcall. rewrite Hnull in Hcall.
  apply bind_Ok in Hcall as ([c r] & t3 & Hcf & Hcall).
  apply createCallToFunction_post in Hcf
    as (-> & -> & a & root & ret_ & t0 & Ha & Hsg & ->).
  apply bind_Ok in Hcall as ([] & t4 & [= <-] & [= <-]).
  exists a, root, ret_, (S (arena t1)), (arena t1).
  split; [done|]. split; [by apply Hst; [|eexists]|].
  destruct Hext as (_ & [es' ->] & _). simpl.
  repeat split; rewrite !elem_of_app, !elem_of_cons; naive_solver.
Qed.

(** ** What [buildFunction] registers *)

Lemma buildBlock_inst_registers rec node i s node' s' :
  (forall Fn, grows (rec Fn)) ->
  buildBlock_inst UNKNOWN_OFFSET Mod DL PTA rec node i s = Ok node' s' ->
  inst_addr i ∈ dom (mapping s')
  /\ (emits_one i = true -> inst_addr i ∈ dom (nodes_map s')).
Proof.
  intros Hrec. unfold buildBlock_inst.
  intros ([] & s1 & [= <-] & ([prev n] & s2 & Hi & H)%bind_Ok)%bind_Ok.
  apply bind_Ok in H as ([] & s3 & Hedge & [= _ <-]).
  assert (mapping s3 = mapping s2 /\ nodes_map s3 = nodes_map s2) as [-> ->].
  { destruct (negb _); by injection Hedge as <-. }
  clear Hedge.
  destruct i as [a|a ty op1|a|a [] called|a]; simpl in *.
  - apply bind_Ok in Hi as (n' & s4 & Hc & [= _ _ <-]).
    rewrite createAlloc_result in Hc. injection Hc as _ <-. simpl.
    rewrite !dom_insert. set_solver.
  - apply bind_Ok in Hi as (n' & s4 & Hc & [= _ _ <-]).
    apply createStore_Ok in Hc as (_ & _ & _ & -> & -> & _). simpl.
    rewrite !dom_insert. set_solver.
  - apply bind_Ok in Hi as (n' & s4 & Hc & [= _ _ <-]).
    rewrite createAlloc_result in Hc. injection Hc as _ <-. simpl.
    rewrite !dom_insert. set_solver.
  - injection Hi as _ _ <-. simpl. rewrite dom_insert. set_solver.
  - apply bind_Ok in Hi as (subg & s4 & Hc & H).
    apply bind_Ok in H as ([] & s5 & [= <-] & [= _ _ <-]). simpl.
    apply (grows_createCall Mod PTA rec Hrec) in Hc
      as (_ & _ & _ & _ & _ & Hdom & _).
    split; [|done]. apply Hdom. simpl. rewrite dom_insert. set_solver.
  - injection Hi as _ _ <-. simpl. rewrite dom_insert. set_solver.
Qed.

Lemma buildFunction_graph_blocks rec fuel F root ret_ s r s' :
  buildFunction_graph UNKNOWN_OFFSET Mod DL PTA rec fuel F root ret_ s
  = Ok r s' ->
  exists acc s1,
    fold_each (f_blocks F) (buildFunction_block UNKNOWN_OFFSET Mod DL PTA rec)
      (∅, None) s = Ok acc s1
    /\ extends s1 s'.
Proof.
  unfold buildFunction_graph.
  intros ([built first] & s1 & Hblocks & H)%bind_Ok.
  exists (built, first), s1. split; [done|].
  apply bind_Ok in H as ([] & s2 & H2 & H). apply grows_assert in H2.
  apply bind_Ok in H as (first' & s3 & H3 & H). apply grows_deref in H3.
  apply bind_Ok in H as ([] & s4 & H4 & H). apply grows_addSuccessor in H4.
  apply bind_Ok in H as (rets & s5 & H5 & H).
  apply grows_fold_each in H5; [|intros; apply grows_buildFunction_succs].
  apply bind_Ok in H as ([] & s6 & H6 & H). apply grows_assert in H6.
  apply bind_Ok in H as ([] & s7 & H7 & [= _ <-]).
  apply grows_for_each in H7;
    [|intros r0; apply grows_bind; [apply grows_deref|];
      intros; apply grows_addSuccessor].
  repeat (eapply extends_trans; [eassumption|]). apply extends_refl.
Qed.

Lemma buildFunction_block_buildBlock rec acc b s acc' s' :
  buildFunction_block UNKNOWN_OFFSET Mod DL PTA rec acc b s = Ok acc' s' ->
  exists nds, buildBlock UNKNOWN_OFFSET Mod DL PTA rec b s = Ok nds s'.
Proof.
  unfold buildFunction_block. destruct acc as [built first].
  intros (nds & s1 & Hnds & ([] & s2 & Hassert & H)%bind_Ok)%bind_Ok.
  exists nds. rewrite Hnds. f_equal.
  unfold assert in Hassert. destruct (both_or_neither nds); [|done].
  injection Hassert as <-. by destruct (fst nds); injection H as _ <-.
Qed.

(** X13. When [buildFunction] returns, every instruction of every block of
    the function has an entry in [mapping], and every alloca, store and
    return instruction has a node in [nodes_map]. *)
Theorem buildFunction_registers fuel F s r s' :
  buildFunction UNKNOWN_OFFSET Mod DL PTA fuel F s = Ok r s' ->
  forall b i,
    b ∈ f_blocks F -> i ∈ bb_insts b ->
    inst_addr i ∈ dom (mapping s')
    /\ (emits_one i = true -> inst_addr i ∈ dom (nodes_map s')).
Proof.
  destruct fuel as [|fuel]; [done|]. simpl. unfold buildFunction_body.
  set (rec := buildFunction UNKNOWN_OFFSET Mod DL PTA fuel).
  assert (forall Fn, grows (rec Fn)) as Hrec
    by (intros Fn; apply grows_buildFunction).
  intros (root & s1 & _ & (ret_ & s2 & _ & H)%bind_Ok)%bind_Ok.
  apply bind_Ok in H as ([] & s3 & _ & H).
  apply buildFunction_graph_blocks in H as (acc & s4 & Hblocks & Hrest).
  intros b i Hb Hi.
  destruct (fold_each_elem extends
              (buildFunction_block UNKNOWN_OFFSET Mod DL PTA rec)
              (f_blocks F) b extends_refl extends_trans
              (fun acc y acc' t t' =>
                 grows_buildFunction_block UNKNOWN_OFFSET Mod DL PTA rec Hrec
                   acc y t acc' t')
              Hb _ _ _ _ Hblocks)
    as (acc1 & t1 & acc2 & t2 & Hblock & Hext).
  apply buildFunction_block_buildBlock in Hblock as (nds & Hnds).
  unfold buildBlock in Hnds.
  apply bind_Ok in Hnds
    as (node & t4 & _ & (last & t5 & Hinsts & [= _ <-])%bind_Ok).
  destruct (fold_each_elem extends
              (buildBlock_inst UNKNOWN_OFFSET Mod DL PTA rec)
              (bb_insts b) i extends_refl extends_trans
              (fun acc y acc' t t' =>
                 grows_buildBlock_inst UNKNOWN_OFFSET Mod DL PTA rec Hrec
                   acc y t acc' t')
              Hi _ _ _ _ Hinsts)
    as (n1 & u1 & n2 & u2 & Hinst & Hext3).
  apply buildBlock_inst_registers in Hinst as [Hm Hn]; [|done].
  pose proof (extends_trans _ _ _ Hext3 (extends_trans _ _ _ Hext Hrest))
    as (_ & _ & _ & _ & Hdn & Hdm & _).
  split; [by apply Hdm|]. intros He. by apply Hdn, Hn.
Qed.

End rd_structure.

(** * More about the driver of the points-to analysis *)

Section pta_driver.

Import pta.

Variable UNKNOWN_OFFSET : N.

Lemma force_unknown_shape nd :
  getType (force_unknown UNKNOWN_OFFSET nd) = getType nd
  /\ successors (force_unknown UNKNOWN_OFFSET nd) = successors nd.
Proof. unfold force_unknown. by destruct (bool_decide _). Qed.

Lemma in_cycle_no_cycles sccs n :
  (forall scc, scc ∈ sccs -> length scc <= 1) -> in_cycle sccs n = false.
Proof.
  intros Hall. destruct (in_cycle sccs n) eqn:E; [|done].
  apply in_cycle_true in E as (scc & Hscc & _ & Hlen).
  specialize (Hall scc Hscc). lia.
Qed.

(** X14. [preprocessGEPs] changes offsets only: the subgraph keeps its
    nodes, their kinds and successors, and its root, and the analysis keeps
    its components, flags and work lists.  Running it twice is running it
    once, and without a component of more than one node it changes
    nothing. *)
Theorem preprocessGEPs_keeps_structure (pa : PointerAnalysis) :
  let pa' := preprocessGEPs UNKNOWN_OFFSET pa in
  (forall n,
     getType <$> nodes (PS pa') !! n = getType <$> nodes (PS pa) !! n
     /\ successors <$> nodes (PS pa') !! n = successors <$> nodes (PS pa) !! n)
  /\ getRoot (PS pa') = getRoot (PS pa)
  /\ SCCs pa' = SCCs pa /\ max_offset pa' = max_offset pa
  /\ preprocess_geps pa' = preprocess_geps pa
  /\ invalidate_nodes pa' = invalidate_nodes pa
  /\ to_process pa' = to_process pa /\ changed pa' = changed pa
  /\ preprocessGEPs UNKNOWN_OFFSET pa' = pa'
  /\ ((forall scc, scc ∈ SCCs pa -> length scc <= 1) -> pa' = pa).
Proof.
  intros pa'. split; [|repeat split].
  - intros n. simpl. rewrite preprocessGEPs_sccs_lookup.
    destruct (in_cycle (SCCs pa) n); [|done].
    destruct (nodes (PS pa) !! n) as [nd|]; [|done]. simpl.
    by destruct (force_unknown_shape nd) as [-> ->].
  - unfold pa', preprocessGEPs, with_PS. simpl. do 2 f_equal.
    apply map_eq. intros n. rewrite !preprocessGEPs_sccs_lookup.
    destruct (in_cycle (SCCs pa) n); [|done].
    destruct (nodes (PS pa) !! n) as [nd|]; [|done]. simpl.
    by rewrite force_unknown_idemp.
  - intros Hall. unfold pa', preprocessGEPs, with_PS.
    destruct pa as [[ns root] sccs mo pg inv tp ch]. simpl in *.
    do 2 f_equal. apply map_eq. intros n.
    by rewrite preprocessGEPs_sccs_lookup, in_cycle_no_cycles.
Qed.

Section run.

Variable hooks : Hooks.

Lemma run_pass_to_process pa : to_process (snd (run_pass hooks pa)) = [].
Proof. done. Qed.


Lemma run_node_quiet pa cur :
  (forall n ps, fst (beforeProcessed hooks n ps) = false) ->
  (forall n ps, fst (processNode hooks n ps) = false) ->
  (forall n ps, fst (afterProcessed hooks n ps) = false) ->
  changed (run_node hooks pa cur) = changed pa.
Proof.
  intros Hb Hp Ha. unfold run_node.
  pose proof (Hb cur (PS pa)) as H1.
  destruct (beforeProcessed hooks cur (PS pa)) as [b1 ps1].
  pose proof (Hp cur ps1) as H2.
  destruct (processNode hooks cur ps1) as [b2 ps2].
  pose proof (Ha cur ps2) as H3.
  destruct (afterProcessed hooks cur ps2) as [b3 ps3].
  simpl in *. by subst.
Qed.

Lemma run_nodes_quiet l pa :
  (forall n ps, fst (beforeProcessed hooks n ps) = false) ->
  (forall n ps, fst (processNode hooks n ps) = false) ->
  (forall n ps, fst (afterProcessed hooks n ps) = false) ->
  changed (foldl (run_node hooks) pa l) = changed pa.
Proof.
  intros Hb Hp Ha. revert pa. induction l as [|cur l IH]; intros pa; simpl.
  - done.
  - by rewrite IH, run_node_quiet.
Qed.

End run.


(** X16. If no hook reports a change, [run] is one pass over the nodes
    enumerated from the root: it returns after the first iteration of its
    loop, without a re-enumeration. *)
Theorem run_single_pass (hooks : Hooks) (fuel : nat) (pa : PointerAnalysis) root :
  getRoot (PS pa) = Some root ->
  (forall n ps, fst (beforeProcessed hooks n ps) = false) ->
  (forall n ps, fst (processNode hooks n ps) = false) ->
  (forall n ps, fst (afterProcessed hooks n ps) = false) ->
  let pa1 := if preprocess_geps pa then preprocessGEPs UNKNOWN_OFFSET pa
             else pa in
  run UNKNOWN_OFFSET hooks (S fuel) pa
  = Returned
      (snd (run_pass hooks
              (with_to_process pa1 (getNodes (PS pa1) (Some root) None 0)))).
Proof.
  intros Hroot Hb Hp Ha pa1. unfold run. rewrite Hroot. fold pa1.
  cbn [run_loop].
  set (pa2 := with_to_process pa1 _).
  assert (changed (snd (run_pass hooks pa2)) = []) as Hch
    by (unfold run_pass; simpl; by rewrite run_nodes_quiet).
  pose proof (run_pass_to_process hooks pa2) as Hclear.
  destruct (run_pass hooks pa2) as [num pa3]. cbn [snd] in *.
  rewrite Hch, (bool_decide_eq_true_2 ([] = [])) by done. cbn [negb].
  by rewrite Hclear, Hch.
Qed.

End pta_driver.

(** * More instances *)

Section more_instances.

Import rd examples.

Lemma build_only_adds_witness :
  exists r s',
    build UNKNOWN M_mut DL0 PTA0 2 empty_Builder = Ok r s'
    /\ extends empty_Builder s'.
Proof.
  destruct (build UNKNOWN M_mut DL0 PTA0 2 empty_Builder) as [r s'|e] eqn:E.
  - exists r, s'. split; [reflexivity|].
    apply (proj2 (build_only_adds UNKNOWN M_mut DL0 PTA0) 2 empty_Builder r s' E).
  - vm_compute in E. discriminate E.
Defined.

Lemma createCallToFunction_wiring_witness :
  let s := with_subgraph_record 50 empty_Builder in
  let s' := {| arena := 4; edges := [(3, 0); (1, 2)]; defs := [];
               nodes_map := ∅; mapping := ∅;
               subgraphs_map :=
                 <[50 := {| sg_root := Some 0; sg_ret := Some 1 |}]> ∅;
               errs := [] |} in
  2 = arena s /\ 3 = S (arena s)
  /\ exists a root ret_ es,
       Some 50 = Some a
       /\ subgraphs_map s' !! a
          = Some {| sg_root := Some root; sg_ret := Some ret_ |}
       /\ edges s' = es ++ [(3, root); (ret_, 2)].
Proof.
  intros s s'.
  apply (createCallToFunction_wiring M_rec no_rec 13 (Some 50) s 3 2 s').
  reflexivity.
Defined.

Lemma buildGlobals_chain_witness :
  exists s',
    buildGlobals M_glob empty_Builder = Ok (Some 0, Some 2) s'
    /\ arena s' = 3 /\ edges s' = [(0, 1); (1, 2)]
    /\ nodes_map s' !! 71 = Some 1.
Proof.
  destruct (buildGlobals_chain M_glob empty_Builder)
    as (s' & Hrun & Ha & He & _ & _ & _ & _ & Hg & _).
  exists s'. split; [exact Hrun|]. split; [exact Ha|]. split; [exact He|].
  apply (Hg 1 71); [reflexivity|]. simpl.
  intros H. apply elem_of_cons in H as [H|H]; [discriminate H|].
  by apply elem_of_nil in H.
Defined.

Lemma buildBlock_call_free_chain_witness :
  exists s',
    buildBlock UNKNOWN M_abc DL0 PTA0 no_rec block_A empty_Builder
    = Ok (Some 0, Some 2) s'
    /\ arena s' = 3 /\ edges s' = [(0, 1); (1, 2)].
Proof.
  destruct (buildBlock UNKNOWN M_abc DL0 PTA0 no_rec block_A empty_Builder)
    as [r s'|e] eqn:E.
  - destruct (buildBlock_call_free_chain UNKNOWN M_abc DL0 PTA0 no_rec block_A
                empty_Builder r s' eq_refl E) as (Hr & Ha & He).
    exists s'. rewrite Hr. split; [reflexivity|]. split; [exact Ha|exact He].
  - vm_compute in E. discriminate E.
Defined.

Lemma blockAddSuccessors_edges_witness :
  blockAddSuccessors 1 [block_A; block_B; block_C]
    (<[2 := (Some 5, Some 5)]> ∅) (Some 2, Some 4) block_A empty_Builder
  = Ok 1 (add_edges [(4, 5)] empty_Builder)
  /\ blockAddSuccessors 2 [block_A; block_B; block_C]
       (<[3 := (Some 6, Some 7)]> ∅) (Some 2, Some 4) block_A empty_Builder
     = blockAddSuccessors 1 [block_A; block_B; block_C]
         (<[3 := (Some 6, Some 7)]> ∅) (Some 2, Some 4) block_B empty_Builder.
Proof.
  split.
  - etrans.
    { apply (proj1 (blockAddSuccessors_edges 0 [block_A; block_B; block_C]
                      (<[2 := (Some 5, Some 5)]> ∅) (Some 2) 4 empty_Builder)
               block_A).
      intros S_ H. apply elem_of_cons in H as [->|H].
      - exists 5, 5. reflexivity.
      - by apply elem_of_nil in H. }
    reflexivity.
  - apply (proj2 (blockAddSuccessors_edges 1 [block_A; block_B; block_C]
                    (<[3 := (Some 6, Some 7)]> ∅) (Some 2) 4 empty_Builder)
             block_A 2 block_B); reflexivity.
Defined.

Lemma blockAddSuccessors_unbuilt_cycle_witness :
  blockAddSuccessors 5 [block_loop] ∅ (Some 0, Some 0) block_loop empty_Builder
  = Fail OutOfFuel.
Proof.
  apply (blockAddSuccessors_unbuilt_cycle 5 [block_loop] ∅ (Some 0, Some 0)
           block_loop [] empty_Builder); reflexivity.
Defined.

Lemma createCall_single_target_not_registered_witness :
  let s := with_subgraph_record 50 empty_Builder in
  nodes_map s = ∅
  /\ (exists s', createCall M_rec PTA1 no_rec 20 202 s = Ok (3, 2) s'
                 /\ nodes_map s' = ∅)
  /\ (exists s', createCall M_rec PTA1 no_rec 20 50 s = Ok (3, 2) s'
                 /\ nodes_map s' = <[20 := 3]> ∅).
Proof.
  intros s.
  destruct (createCall_single_target_not_registered M_rec PTA1 no_rec 20 50 202
              rec_main (mkPSSNode 11 None [mkPointer target_f 0])
              (mkPointer target_f 0) 0 1 s) as [Hind Hdir];
    try reflexivity; [discriminate|].
  split; [reflexivity|]. split.
  - eexists. split; [exact Hind|reflexivity].
  - eexists. split; [exact Hdir|reflexivity].
Defined.

Lemma build_entry_witness :
  exists s',
    build UNKNOWN M_mut DL0 PTA0 2 empty_Builder = Ok 0 s'
    /\ subgraphs_map s' !! 50
       = Some {| sg_root := Some 1; sg_ret := Some 2 |}
    /\ (1, 3) ∈ edges s'
    /\ exists es, edges s' = [] ++ chain 0 0 ++ es ++ [(0, 1)].
Proof.
  destruct (build_entry UNKNOWN M_mut DL0 PTA0 mut_main empty_Builder)
    as (s' & Hrun & Hrec & Hedge & Hlast);
    [reflexivity|reflexivity|discriminate|reflexivity|].
  exists s'. split; [exact Hrun|]. split; [exact Hrec|]. split; [exact Hedge|].
  apply Hlast. simpl. lia.
Defined.

Lemma createCall_fanout_wiring_witness :
  exists s',
    createCall M_rec PTA1 (buildFunction UNKNOWN M_rec DL0 PTA1 3) 20 203
      empty_Builder = Ok (0, 1) s'
    /\ exists a root ret_ c r,
         getUserData target_f = Some a
         /\ subgraphs_map s' !! a
            = Some {| sg_root := Some root; sg_ret := Some ret_ |}
         /\ (0, c) ∈ edges s' /\ (c, root) ∈ edges s'
         /\ (ret_, r) ∈ edges s' /\ (r, 1) ∈ edges s'.
Proof.
  destruct (createCall M_rec PTA1 (buildFunction UNKNOWN M_rec DL0 PTA1 3) 20
              203 empty_Builder) as [[call ret_call] s'|e] eqn:E.
  - destruct (createCall_fanout_wiring UNKNOWN M_rec DL0 PTA1 3 20 203
                (mkPSSNode 12 None [mkPointer target_f 0; mkPointer NULLPTR 0])
                empty_Builder call ret_call s') as (Hc & Hr & Hptr);
      [reflexivity|reflexivity|simpl; lia|exact E|].
    exists s'. rewrite Hc, Hr. split; [reflexivity|].
    rewrite Hc, Hr in Hptr.
    apply (Hptr (mkPointer target_f 0)); [left|reflexivity].
  - vm_compute in E. discriminate E.
Defined.

Lemma buildFunction_registers_witness :
  exists r s',
    buildFunction UNKNOWN M_abc DL0 PTA0 1 abc_main empty_Builder = Ok r s'
    /\ 11 ∈ dom (mapping s') /\ 11 ∈ dom (nodes_map s').
Proof.
  destruct (buildFunction UNKNOWN M_abc DL0 PTA0 1 abc_main empty_Builder)
    as [r s'|e] eqn:E.
  - destruct (buildFunction_registers UNKNOWN M_abc DL0 PTA0 1 abc_main
                empty_Builder r s' E block_A (Store 11 i32 100)) as [Hm Hn];
      [left|right; left|].
    exists r, s'. split; [reflexivity|]. split; [exact Hm|exact (Hn eq_refl)].
  - vm_compute in E. discriminate E.
Defined.

Lemma preprocessGEPs_keeps_structure_witness :
  pta.preprocessGEPs UNKNOWN PA1 = PA1.
Proof.
  destruct (preprocessGEPs_keeps_structure UNKNOWN PA1)
    as (_ & _ & _ & _ & _ & _ & _ & _ & _ & Hsame).
  apply Hsame. intros scc H.
  repeat (apply elem_of_cons in H as [->|H]; [simpl; lia|]).
  by apply elem_of_nil in H.
Defined.


Lemma run_single_pass_witness :
  let pa1 := pta.preprocessGEPs UNKNOWN PA0 in
  pta.run UNKNOWN hooks_quiet 1 PA0
  = pta.Returned
      (snd (pta.run_pass hooks_quiet
              (pta.with_to_process pa1
                 (pta.getNodes (pta.PS pa1) (Some 0) None 0)))).
Proof.
  apply (run_single_pass UNKNOWN hooks_quiet 0 PA0 0); reflexivity.
Defined.

End more_instances.
